(** * Step-wise Dijkstra visualiser: a shallow embedding of
      [src/utils/graphUtils.ts] and [src/utils/dijkstra.ts].

    Numbers.  Edge weights come from an integer slider (1..20) or from the
    demo graph, so a weight is a [Z]; a distance is a finite integer or the
    JavaScript value [Infinity].  [NaN] cannot arise from integer weights
    and sums and is not modelled.

    Containers.  A JavaScript [Map] or [Set] iterates in insertion order,
    and the code depends on it (the first key of [previous] in
    [constructPath], the scan of [unvisitedNodes] in [dijkstraNextStep]),
    so both are lists that keep insertion order. *)

From Stdlib Require Import String List ZArith Bool Lia Arith.
Import ListNotations.

#[local] Open Scope string_scope.
#[local] Open Scope list_scope.

(* ================================================================= *)
(** ** JavaScript numbers and the [||] idiom *)

Inductive num : Type :=
| Fin (z : Z)
| Infinity.

Definition num_eqb (a b : num) : bool :=
  match a, b with
  | Fin p, Fin q => Z.eqb p q
  | Infinity, Infinity => true
  | _, _ => false
  end.

(** [d + weight] for a distance [d] and an integer weight. *)
Definition num_add (d : num) (w : Z) : num :=
  match d with
  | Fin z => Fin (z + w)
  | Infinity => Infinity
  end.

(** [a < b] on numbers. *)
Definition num_ltb (a b : num) : bool :=
  match a, b with
  | Fin p, Fin q => Z.ltb p q
  | Fin _, Infinity => true
  | Infinity, _ => false
  end.

(** A number is falsy exactly when it is [0]. *)
Definition num_truthy (n : num) : bool :=
  match n with
  | Fin z => negb (Z.eqb z 0)
  | Infinity => true
  end.

(** [m.get(k) || 0] *)
Definition or_zero (o : option num) : num :=
  match o with
  | Some n => if num_truthy n then n else Fin 0
  | None => Fin 0
  end.

(** [m.get(k) || Infinity] *)
Definition or_infinity (o : option num) : num :=
  match o with
  | Some n => if num_truthy n then n else Infinity
  | None => Infinity
  end.

(** [m.get(k) || null] *)
Definition or_null (o : option num) : option num :=
  match o with
  | Some n => if num_truthy n then Some n else None
  | None => None
  end.

(** A string is falsy exactly when it is empty. *)
Definition str_truthy (s : string) : bool := negb (String.eqb s "").

(** Truthiness of a [string | null]. *)
Definition ostr_truthy (o : option string) : bool :=
  match o with
  | Some s => str_truthy s
  | None => false
  end.

(* ================================================================= *)
(** ** Insertion-ordered [Map<string, V>] and [Set<string>] *)

Section JSMap.
Context {V : Type}.

Fixpoint map_get (k : string) (m : list (string * V)) : option V :=
  match m with
  | [] => None
  | (k', v) :: r => if String.eqb k' k then Some v else map_get k r
  end.

(** [m.set(k, v)]: an existing key keeps its place, a new key goes last. *)
Fixpoint map_set (k : string) (v : V) (m : list (string * V))
  : list (string * V) :=
  match m with
  | [] => [(k, v)]
  | (k', v') :: r =>
      if String.eqb k' k then (k', v) :: r else (k', v') :: map_set k v r
  end.

Definition map_has (k : string) (m : list (string * V)) : bool :=
  match map_get k m with
  | Some _ => true
  | None => false
  end.

Definition map_keys (m : list (string * V)) : list string := map fst m.
End JSMap.

Fixpoint set_has (k : string) (s : list string) : bool :=
  match s with
  | [] => false
  | k' :: r => if String.eqb k' k then true else set_has k r
  end.

Definition set_add (k : string) (s : list string) : list string :=
  if set_has k s then s else s ++ [k].

Definition set_delete (k : string) (s : list string) : list string :=
  filter (fun k' => negb (String.eqb k' k)) s.

(* ================================================================= *)
(** ** graphUtils.ts *)

Inductive NodeStatus : Type :=
| st_default | st_visited | st_current | st_start | st_end | st_path.

Inductive EdgeStatus : Type :=
| es_default | es_path.

Definition NodeStatus_eqb (a b : NodeStatus) : bool :=
  match a, b with
  | st_default, st_default | st_visited, st_visited
  | st_current, st_current | st_start, st_start
  | st_end, st_end | st_path, st_path => true
  | _, _ => false
  end.

(** [node.status === c] for the optional field [status]. *)
Definition status_is (o : option NodeStatus) (c : NodeStatus) : bool :=
  match o with
  | Some s => NodeStatus_eqb s c
  | None => false
  end.

Record Node : Type := mkNode {
  id : string;
  x : Z;
  y : Z;
  label : option string;
  status : option NodeStatus
}.

Record Edge : Type := mkEdge {
  edge_id : string;
  source : string;
  target : string;
  weight : Z;
  edge_status : option EdgeStatus
}.

Record Graph : Type := mkGraph {
  nodes : list Node;
  edges : list Edge
}.

Definition with_status (n : Node) (s : option NodeStatus) : Node :=
  mkNode (id n) (x n) (y n) (label n) s.

Definition with_edge_status (e : Edge) (s : option EdgeStatus) : Edge :=
  mkEdge (edge_id e) (source e) (target e) (weight e) s.

Definition node_ids (g : Graph) : list string := map id (nodes g).

Definition edgeExists (es : list Edge) (sourceId targetId : string) : bool :=
  existsb (fun edge =>
             (String.eqb (source edge) sourceId
              && String.eqb (target edge) targetId)
             || (String.eqb (source edge) targetId
                 && String.eqb (target edge) sourceId)) es.

Definition resetGraphStatus (g : Graph) : Graph :=
  mkGraph
    (map (fun node =>
            with_status node
              (if status_is (status node) st_start
                  || status_is (status node) st_end
               then status node else Some st_default))
         (nodes g))
    (map (fun edge => with_edge_status edge (Some es_default)) (edges g)).

Definition Connections : Type := list (string * Z).
Definition AdjacencyList : Type := list (string * Connections).

(** [adjacencyList.get(k) || []]: an array is always truthy. *)
Definition or_empty (o : option Connections) : Connections :=
  match o with
  | Some l => l
  | None => []
  end.

(** The body of [graph.edges.forEach] in [createAdjacencyList].  Both
    arrays are fetched before either push.  For a self-loop on a key that
    is present the two names denote one array, which receives both pushes;
    on a key that is absent they are two fresh arrays and the second [set]
    replaces the first. *)
Definition add_connections (adjacencyList : AdjacencyList) (edge : Edge)
  : AdjacencyList :=
  if String.eqb (source edge) (target edge) then
    match map_get (source edge) adjacencyList with
    | Some arr =>
        map_set (source edge)
          (arr ++ [(target edge, weight edge); (source edge, weight edge)])
          adjacencyList
    | None =>
        map_set (target edge) [(source edge, weight edge)]
          (map_set (source edge) [(target edge, weight edge)] adjacencyList)
    end
  else
    let sourceConnections :=
      or_empty (map_get (source edge) adjacencyList)
        ++ [(target edge, weight edge)] in
    let targetConnections :=
      or_empty (map_get (target edge) adjacencyList)
        ++ [(source edge, weight edge)] in
    map_set (target edge) targetConnections
      (map_set (source edge) sourceConnections adjacencyList).

Definition createAdjacencyList (g : Graph) : AdjacencyList :=
  fold_left add_connections (edges g)
    (fold_left (fun adj node => map_set (id node) [] adj) (nodes g) []).

Definition demo_node (i : string) (px py : Z) : Node :=
  mkNode i px py (Some i) (Some st_default).

Definition demo_edge (i s t : string) (w : Z) : Edge :=
  mkEdge i s t w (Some es_default).

Definition generateDemoGraph : Graph :=
  mkGraph
    [ demo_node "A" 100 150; demo_node "B" 250 80; demo_node "C" 400 150;
      demo_node "D" 250 250; demo_node "E" 550 220 ]
    [ demo_edge "A-B" "A" "B" 4; demo_edge "A-D" "A" "D" 3;
      demo_edge "B-C" "B" "C" 5; demo_edge "B-D" "B" "D" 2;
      demo_edge "C-D" "C" "D" 1; demo_edge "C-E" "C" "E" 6;
      demo_edge "D-E" "D" "E" 8 ].

(* ================================================================= *)
(** ** dijkstra.ts *)

Record DijkstraStep : Type := mkStep {
  distances : list (string * num);
  previous : list (string * option string);
  currentNode : option string;
  visitedNodes : list string;
  unvisitedNodes : list string;
  graph : Graph;
  isDone : bool;
  shortestPath : option (list string)
}.

(** The field [shortestPath] of the Result is [res_shortestPath] here: the
    step record already has a projection of that name. *)
Record DijkstraResult : Type := mkResult {
  success : bool;
  steps : list DijkstraStep;
  res_shortestPath : option (list string);
  shortestDistance : option num
}.

Definition initializeDijkstra (g : Graph) (startNodeId : string)
  : DijkstraStep :=
  let init :=
    fold_left
      (fun (acc : list (string * num) * list (string * option string)
                  * list string) node =>
         let '(ds, ps, us) := acc in
         (map_set (id node)
            (if String.eqb (id node) startNodeId then Fin 0 else Infinity) ds,
          map_set (id node) None ps,
          set_add (id node) us))
      (nodes g) ([], [], []) in
  let '(ds, ps, us) := init in
  mkStep ds ps (Some startNodeId) [] us
    (mkGraph
       (map (fun node =>
               with_status node
                 (Some (if String.eqb (id node) startNodeId then st_start
                        else if status_is (status node) st_end then st_end
                             else st_default)))
            (nodes g))
       (edges g))
    false None.

(** The body of [neighbors.forEach]: relax one connection of the current
    node. *)
Definition relax (visited : list string) (currentNodeId : string)
  (currentDistance : num)
  (acc : list (string * num) * list (string * option string))
  (nb : string * Z)
  : list (string * num) * list (string * option string) :=
  let '(neighborId, w) := nb in
  if set_has neighborId visited then acc
  else
    let newDistance := num_add currentDistance w in
    let existingDistance := or_infinity (map_get neighborId (fst acc)) in
    if num_ltb newDistance existingDistance
    then (map_set neighborId newDistance (fst acc),
          map_set neighborId (Some currentNodeId) (snd acc))
    else acc.

(** The body of [unvisitedNodes.forEach]: keep the first node of strictly
    smallest distance. *)
Definition pick (ds : list (string * num)) (acc : num * option string)
  (nodeId : string) : num * option string :=
  let distance := or_infinity (map_get nodeId ds) in
  if num_ltb distance (fst acc) then (distance, Some nodeId) else acc.

Definition mark_node (currentNodeId : string) (visited : list string)
  (node : Node) : Node :=
  with_status node
    (if String.eqb (id node) currentNodeId
     then Some (if status_is (status node) st_start
                then st_start else st_current)
     else if set_has (id node) visited
          then Some (if status_is (status node) st_end
                     then st_end else st_visited)
          else status node).

(** The connections of the current node, relaxed in order. *)
Definition relax_all (prevStep : DijkstraStep) (currentNodeId : string)
  : list (string * num) * list (string * option string) :=
  let adjacencyList := createAdjacencyList (graph prevStep) in
  let visited := set_add currentNodeId (visitedNodes prevStep) in
  let neighbors := or_empty (map_get currentNodeId adjacencyList) in
  let currentDistance :=
    or_zero (map_get currentNodeId (distances prevStep)) in
  fold_left (relax visited currentNodeId currentDistance) neighbors
    (distances prevStep, previous prevStep).

(** [(smallestDistance, nextNode)] after the scan of the unvisited set. *)
Definition select_next (ds : list (string * num)) (unvisited : list string)
  : num * option string :=
  fold_left (pick ds) unvisited (Infinity, None).

Definition dijkstraNextStep (prevStep : DijkstraStep) : DijkstraStep :=
  if isDone prevStep || negb (ostr_truthy (currentNode prevStep)) then prevStep
  else
    match currentNode prevStep with
    | None => prevStep
    | Some currentNodeId =>
        let visited := set_add currentNodeId (visitedNodes prevStep) in
        let unvisited := set_delete currentNodeId (unvisitedNodes prevStep) in
        let g' :=
          mkGraph
            (map (mark_node currentNodeId visited) (nodes (graph prevStep)))
            (edges (graph prevStep)) in
        let relaxed := relax_all prevStep currentNodeId in
        let sel := select_next (fst relaxed) unvisited in
        let finished :=
          match snd sel with
          | None => true
          | Some _ => num_eqb (fst sel) Infinity
          end in
        mkStep (fst relaxed) (snd relaxed)
          (if finished then None else snd sel)
          visited unvisited g' finished (shortestPath prevStep)
    end.

(** [previous.get(current) || null] *)
Definition prev_or_null (o : option (option string)) : option string :=
  match o with
  | Some (Some s) => if str_truthy s then Some s else None
  | _ => None
  end.

(** The [while (current)] loop of [constructPath]; [None] when the fuel
    runs out before the loop ends. *)
Fixpoint walk (fuel : nat) (ps : list (string * option string))
  (current : option string) (path : list string) : option (list string) :=
  if ostr_truthy current then
    match fuel, current with
    | S f, Some c => walk f ps (prev_or_null (map_get c ps)) (c :: path)
    | _, _ => None
    end
  else Some path.

(** [constructPath]: the outer option is the fuel, the inner one is the
    [string[] | null] of the source. *)
Definition constructPath (fuel : nat) (endNodeId : string)
  (ps : list (string * option string)) : option (option (list string)) :=
  if negb (map_has endNodeId ps)
     || (match map_get endNodeId ps with
         | Some None => true
         | _ => false
         end
         && negb (match map_keys ps with
                  | k :: _ => String.eqb endNodeId k
                  | [] => false
                  end))
  then Some None
  else option_map Some (walk fuel ps (Some endNodeId) []).

Definition path_includes (path : list string) (i : string) : bool :=
  existsb (String.eqb i) path.

(** [path.some((nodeId, index) => ...)] over consecutive elements. *)
Fixpoint is_path_edge (edge : Edge) (path : list string) : bool :=
  match path with
  | nodeId :: ((nextNodeId :: _) as rest) =>
      (String.eqb (source edge) nodeId && String.eqb (target edge) nextNodeId)
      || (String.eqb (source edge) nextNodeId
          && String.eqb (target edge) nodeId)
      || is_path_edge edge rest
  | _ => false
  end.

Definition visualizeShortestPath (g : Graph) (path : list string) : Graph :=
  if Nat.ltb (length path) 2 then g
  else
    mkGraph
      (map (fun node =>
              with_status node
                (if status_is (status node) st_start
                    || status_is (status node) st_end
                 then status node
                 else if path_includes path (id node) then Some st_path
                      else status node))
           (nodes g))
      (map (fun edge =>
              with_edge_status edge
                (if is_path_edge edge path then Some es_path
                 else edge_status edge))
           (edges g)).

(** The [while (!currentStep.isDone)] loop of [runDijkstraAlgorithm]. *)
Fixpoint run_loop (fuel : nat) (currentStep : DijkstraStep)
  (acc : list DijkstraStep) : option (DijkstraStep * list DijkstraStep) :=
  if isDone currentStep then Some (currentStep, acc)
  else
    match fuel with
    | O => None
    | S f =>
        let next := dijkstraNextStep currentStep in
        run_loop f next (acc ++ [next])
    end.

Definition set_last_path (ss : list DijkstraStep) (g : Graph)
  (p : list string) : list DijkstraStep :=
  match rev ss with
  | [] => []
  | l :: r =>
      rev r ++ [mkStep (distances l) (previous l) (currentNode l)
                  (visitedNodes l) (unvisitedNodes l) g (isDone l) (Some p)]
  end.

Definition runDijkstraAlgorithm (fuel : nat) (g : Graph)
  (startNodeId endNodeId : string) : option DijkstraResult :=
  let first := initializeDijkstra g startNodeId in
  match run_loop fuel first [first] with
  | None => None
  | Some (currentStep, ss) =>
      match constructPath fuel endNodeId (previous currentStep) with
      | None => None
      | Some sp =>
          let ss' :=
            match sp with
            | Some p =>
                if Nat.ltb 0 (length p)
                then set_last_path ss
                       (visualizeShortestPath (graph currentStep) p) p
                else ss
            | None => ss
            end in
          Some (mkResult
                  (match sp with Some _ => true | None => false end)
                  ss' sp
                  (or_null (map_get endNodeId (distances currentStep))))
      end
  end.

(** [n] calls of [dijkstraNextStep]. *)
Fixpoint advance_n (n : nat) (s : DijkstraStep) : DijkstraStep :=
  match n with
  | O => s
  | S k => advance_n k (dijkstraNextStep s)
  end.

(* ================================================================= *)
(** ** graphUtils.ts: labels *)

(** [label.length === 1 && label >= 'A' && label <= 'Z'], with the code of
    the letter: on one-character strings the comparisons of JavaScript
    compare character codes. *)
Definition upper_letter_code (l : string) : option nat :=
  match l with
  | String c EmptyString =>
      let k := Ascii.nat_of_ascii c in
      if Nat.leb 65 k && Nat.leb k 90 then Some k else None
  | _ => None
  end.

(** The body of [existingLabels.forEach]: [highestChar], as a character
    code, after one more label. *)
Definition raise_highest (highestChar : nat) (l : string) : nat :=
  match upper_letter_code l with
  | Some k => if Nat.ltb highestChar k then k else highestChar
  | None => highestChar
  end.

Definition getNextLetterLabel (ns : list Node) : string :=
  match ns with
  | [] => "A"
  | _ =>
      let existingLabels :=
        map (fun node => match label node with
                         | Some l => l
                         | None => ""
                         end) ns in
      let highestChar := fold_left raise_highest existingLabels 65 in
      let nextCharCode := highestChar + 1 in
      if Nat.leb nextCharCode 90
      then String (Ascii.ascii_of_nat nextCharCode) EmptyString
      else "A"
  end.

(** [createNode], with the result of [generateId] as an argument. *)
Definition createNode (generated : string) (px py : Z)
  (l : option string) : Node :=
  mkNode generated px py
    (Some (match l with
           | Some s => if str_truthy s then s else getNextLetterLabel []
           | None => getNextLetterLabel []
           end))
    (Some st_default).

(* ================================================================= *)
(** ** The graph editor (GraphCanvas)

    Each handler is modelled by the graph it passes to [onGraphChange],
    or [None] when it returns without calling it. *)

Inductive EditorMode : Type := mode_edit | mode_view.

(** The guard [if (mode !== 'edit' || isRunning) return]. *)
Definition editing (mode : EditorMode) (isRunning : bool) : bool :=
  match mode with
  | mode_edit => negb isRunning
  | mode_view => false
  end.

Definition confirmEdgeCreation (g : Graph)
  (pendingEdge : option (string * string)) (edgeWeight : Z)
  : option Graph :=
  match pendingEdge with
  | None => None
  | Some (src, tgt) =>
      let newEdge :=
        mkEdge (src ++ "-" ++ tgt) src tgt edgeWeight (Some es_default) in
      if edgeExists (edges g) (source newEdge) (target newEdge) then None
      else Some (mkGraph (nodes g) (edges g ++ [newEdge]))
  end.

Definition handleNodeDrag (mode : EditorMode) (isRunning : bool)
  (g : Graph) (nodeId : string) (px py : Z) : option Graph :=
  if editing mode isRunning then
    Some (mkGraph
            (map (fun node =>
                    if String.eqb (id node) nodeId
                    then mkNode (id node) px py (label node) (status node)
                    else node)
               (nodes g))
            (edges g))
  else None.

Definition handleNodeContextMenu (mode : EditorMode) (isRunning : bool)
  (g : Graph) (nodeId : string) : option Graph :=
  if editing mode isRunning then
    Some (mkGraph
            (filter (fun node => negb (String.eqb (id node) nodeId))
               (nodes g))
            (filter (fun edge =>
                       negb (String.eqb (source edge) nodeId)
                       && negb (String.eqb (target edge) nodeId))
               (edges g)))
  else None.

Definition handleEdgeContextMenu (mode : EditorMode) (isRunning : bool)
  (g : Graph) (edgeId : string) : option Graph :=
  if editing mode isRunning then
    Some (mkGraph (nodes g)
            (filter (fun edge => negb (String.eqb (edge_id edge) edgeId))
               (edges g)))
  else None.

(** At most one edge between any two nodes: no edge joins the endpoints
    of an earlier edge. *)
Fixpoint simple_edges (es : list Edge) : Prop :=
  match es with
  | [] => True
  | e :: r => edgeExists r (source e) (target e) = false /\ simple_edges r
  end.

(** Steps reachable from [initializeDijkstra g startNodeId]. *)
Inductive reachable (g : Graph) (startNodeId : string)
  : DijkstraStep -> Prop :=
| reach_init : reachable g startNodeId (initializeDijkstra g startNodeId)
| reach_next : forall s,
    reachable g startNodeId s ->
    reachable g startNodeId (dijkstraNextStep s).

(** An edge joins [u] and [v], in either direction. *)
Definition joins (e : Edge) (u v : string) : Prop :=
  (source e = u /\ target e = v) \/ (source e = v /\ target e = u).

(** [v] can be reached from [u] along edges of [g]. *)
Inductive connected (g : Graph) (u : string) : string -> Prop :=
| conn_refl : connected g u u
| conn_step : forall v w e,
    connected g u v -> In e (edges g) -> joins e v w -> connected g u w.

(** Position of the first occurrence of [k], or the length when absent. *)
Fixpoint rank (k : string) (s : list string) : nat :=
  match s with
  | [] => O
  | k' :: r => if String.eqb k' k then O else S (rank k r)
  end.

(** The data-model invariant on edges: both endpoints name nodes. *)
Definition edges_wf (g : Graph) : Prop :=
  forall e, In e (edges g) ->
            In (source e) (node_ids g) /\ In (target e) (node_ids g).

(** The three containers that the [forEach] of [initializeDijkstra] fills,
    taken apart. *)
Definition init_distances (g : Graph) (startNodeId : string)
  : list (string * num) :=
  fold_left
    (fun ds node =>
       map_set (id node)
         (if String.eqb (id node) startNodeId then Fin 0 else Infinity) ds)
    (nodes g) [].

Definition init_previous (g : Graph) : list (string * option string) :=
  fold_left (fun ps node => map_set (id node) None ps) (nodes g) [].

Definition init_unvisited (g : Graph) : list string :=
  fold_left (fun us node => set_add (id node) us) (nodes g) [].

Definition init_status (startNodeId : string) (node : Node) : NodeStatus :=
  if String.eqb (id node) startNodeId then st_start
  else if status_is (status node) st_end then st_end else st_default.

(** A step is active when the guard of [dijkstraNextStep] lets it through. *)
Definition active (s : DijkstraStep) (u : string) : Prop :=
  isDone s = false /\ currentNode s = Some u /\ u <> "".

(** [(v, w)] is what an edge [e] contributes to the connections of [u]. *)
Definition contributes (e : Edge) (u v : string) (w : Z) : Prop :=
  weight e = w
  /\ ((source e = u /\ target e = v) \/ (target e = u /\ source e = v)).

(** What the scan of the unvisited set has found after the nodes [seen]. *)
Definition pick_ok (ds : list (string * num)) (seen : list string)
  (acc : num * option string) : Prop :=
  match snd acc with
  | None => fst acc = Infinity
  | Some n =>
      In n seen /\ fst acc = or_infinity (map_get n ds)
      /\ num_ltb (fst acc) Infinity = true
  end.

(** The two sets split the node ids, and both maps are defined exactly on
    the node ids. *)
Definition partition_ok (g : Graph) (s : DijkstraStep) : Prop :=
  (forall v, ~ (In v (visitedNodes s) /\ In v (unvisitedNodes s)))
  /\ (forall v, In v (visitedNodes s) \/ In v (unvisitedNodes s)
                <-> In v (node_ids g))
  /\ (forall v, In v (map_keys (distances s)) <-> In v (node_ids g))
  /\ (forall v, In v (map_keys (previous s)) <-> In v (node_ids g)).

(** What every step of a run keeps besides [partition_ok]: the current
    node is still unvisited, the unvisited list has no repetition, and the
    graph copy has the edges and node ids of the input. *)
Definition frontier_ok (g : Graph) (s : DijkstraStep) : Prop :=
  (isDone s = false ->
   exists u, currentNode s = Some u /\ In u (unvisitedNodes s))
  /\ NoDup (unvisitedNodes s)
  /\ (forall v, In v (unvisitedNodes s) -> In v (node_ids g))
  /\ edges (graph s) = edges g
  /\ node_ids (graph s) = node_ids g.

(** A graph with a node whose id is the empty string. *)
Definition empty_id_graph : Graph :=
  mkGraph
    [ mkNode "A" 0 0 (Some "A") (Some st_default);
      mkNode "" 50 0 (Some "B") (Some st_default) ]
    [ mkEdge "A-" "A" "" 1 (Some es_default) ].

(** Predecessors were visited earlier: along [previous] the rank in the
    visited list goes down. *)
Definition prev_ranked (s : DijkstraStep) : Prop :=
  forall v u, map_get v (previous s) = Some (Some u) ->
              rank u (visitedNodes s) < rank v (visitedNodes s).

(** Whatever has a finite distance, a predecessor, or is the current node
    can be reached from the start node along edges. *)
Definition conn_ok (g : Graph) (start : string) (s : DijkstraStep) : Prop :=
  (forall v z, map_get v (distances s) = Some (Fin z) -> connected g start v)
  /\ (forall v u, map_get v (previous s) = Some (Some u) ->
                  connected g start v)
  /\ (forall u, currentNode s = Some u -> connected g start u).

(** With positive weights only the start node has distance [0], and it is
    the current node or already visited. *)
Definition pos_ok (start : string) (s : DijkstraStep) : Prop :=
  (forall v z, map_get v (distances s) = Some (Fin z) ->
               (0 < z)%Z \/ (v = start /\ z = 0%Z))
  /\ (currentNode s = Some start \/ In start (visitedNodes s)).

(** What one relaxation with candidate distance [cand] from [u] does to the
    entries of a node in [distances] and [previous]. *)
Definition relax_entry (u : string) (cand : num)
  (old : option num * option (option string))
  : option num * option (option string) :=
  if num_ltb cand (or_infinity (fst old))
  then (Some cand, Some (Some u))
  else old.

(** The measure of the [while (current)] loop of [constructPath]. *)
Definition walk_measure (visited : list string) (current : option string)
  : nat :=
  match current with
  | Some k => S (rank k visited)
  | None => 0
  end.

(** A graph with an isolated node that is not the first one. *)
Definition isolated_graph : Graph :=
  mkGraph
    [ mkNode "A" 0 0 (Some "A") (Some st_default);
      mkNode "B" 50 0 (Some "B") (Some st_default);
      mkNode "C" 90 0 (Some "C") (Some st_default) ]
    [ mkEdge "A-B" "A" "B" 2 (Some es_default) ].

(** A graph as a second run finds it: ["B"] still carries the status
    [start] of an earlier run, which [resetGraphStatus] keeps. *)
Definition stale_start_graph : Graph :=
  mkGraph
    [ mkNode "A" 0 0 (Some "A") (Some st_default);
      mkNode "B" 50 0 (Some "B") (Some st_start);
      mkNode "C" 90 0 (Some "C") (Some st_end) ]
    [ mkEdge "A-B" "A" "B" 2 (Some es_default);
      mkEdge "B-C" "B" "C" 3 (Some es_default) ].

(** The three fields of a Result that a caller displays. *)
Definition outcome (r : DijkstraResult)
  : bool * option (list string) * option num :=
  (success r, res_shortestPath r, shortestDistance r).

(** A graph whose first node is isolated. *)
Definition isolated_first_graph : Graph :=
  mkGraph
    [ mkNode "X" 0 0 (Some "X") (Some st_default);
      mkNode "A" 50 0 (Some "A") (Some st_default);
      mkNode "B" 90 0 (Some "B") (Some st_default) ]
    [ mkEdge "A-B" "A" "B" 2 (Some es_default) ].

(** [a <= b] on numbers. *)
Definition num_leb (a b : num) : bool := negb (num_ltb b a).

(** [route g u v d]: some walk along edges of [g] leads from [u] to [v]
    and its weights add up to [d]. *)
Inductive route (g : Graph) (u : string) : string -> Z -> Prop :=
| route_here : route g u u 0
| route_edge : forall v w e d,
    route g u v d -> In e (edges g) -> joins e v w ->
    route g u w (d + weight e).

(** [chain g p d]: consecutive ids of the non-empty list [p] are joined by
    edges of [g] whose weights add up to [d]. *)
Inductive chain (g : Graph) : list string -> Z -> Prop :=
| chain_one : forall v, chain g [v] 0
| chain_cons : forall u v rest e d,
    In e (edges g) -> joins e u v -> chain g (v :: rest) d ->
    chain g (u :: v :: rest) (weight e + d).

(** The invariant behind the correctness of the distances. *)
Definition opt_ok (g : Graph) (start : string) (s : DijkstraStep) : Prop :=
  map_get start (distances s) = Some (Fin 0)
  /\ (forall u, In u (visitedNodes s) ->
                exists zu, map_get u (distances s) = Some (Fin zu))
  /\ (forall u x zu dx,
         In u (visitedNodes s) -> In x (unvisitedNodes s) ->
         map_get u (distances s) = Some (Fin zu) ->
         map_get x (distances s) = Some dx ->
         num_leb (Fin zu) dx = true)
  /\ (forall u e v zu dv,
         In u (visitedNodes s) -> In e (edges g) -> joins e u v ->
         map_get u (distances s) = Some (Fin zu) ->
         map_get v (distances s) = Some dv ->
         num_leb dv (Fin (zu + weight e)) = true)
  /\ (isDone s = false ->
      exists u zu, currentNode s = Some u
        /\ map_get u (distances s) = Some (Fin zu)
        /\ forall x dx, In x (unvisitedNodes s) ->
                        map_get x (distances s) = Some dx ->
                        num_leb (Fin zu) dx = true)
  /\ (isDone s = true ->
      forall x, In x (unvisitedNodes s) ->
                map_get x (distances s) = Some Infinity)
  /\ (forall v z, map_get v (distances s) = Some (Fin z) ->
                  route g start v z).

(** The invariant behind the reconstruction of the path: a predecessor is
    a visited node one edge away, and the two distances differ by the
    weight of that edge. *)
Definition prev_ok (g : Graph) (start : string) (s : DijkstraStep) : Prop :=
  (forall v u, map_get v (previous s) = Some (Some u) ->
     u <> "" /\ In u (visitedNodes s)
     /\ exists e zu, In e (edges g) /\ joins e u v
          /\ map_get u (distances s) = Some (Fin zu)
          /\ map_get v (distances s) = Some (Fin (zu + weight e)))
  /\ (forall v z, map_get v (distances s) = Some (Fin z) ->
        v = start \/ exists u, map_get v (previous s) = Some (Some u)).

(** Consecutive ids of a path are linked by [previous]: each one is the
    recorded predecessor of the next. *)
Fixpoint linked (ps : list (string * option string)) (p : list string)
  : Prop :=
  match p with
  | a :: ((b :: _) as rest) =>
      prev_or_null (map_get b ps) = Some a /\ linked ps rest
  | _ => True
  end.

(** The status that the graph copy of a step shows for a node of the
    input graph, given the visited list of the step. *)
Definition shown_status (start : string) (visited : list string)
  (n : Node) : option NodeStatus :=
  if set_has (id n) visited then
    if String.eqb (id n) (last visited "") then
      Some (if String.eqb (id n) start then st_start else st_current)
    else Some st_visited
  else Some (init_status start n).

(** What the algorithm reads of an edge. *)
Definition edge_ends (e : Edge) : string * string * Z :=
  (source e, target e, weight e).

(** The algorithmic part of a step: everything but the graph copy and the
    path. *)
Definition core (s : DijkstraStep)
  : list (string * num) * list (string * option string) * option string
    * list string * list string * bool :=
  (distances s, previous s, currentNode s, visitedNodes s,
   unvisitedNodes s, isDone s).

(* ================================================================= *)
(** ** Maps and sets *)

Ltac str_cases a b :=
  let E := fresh "E" in
  destruct (String.eqb a b) eqn:E;
  [apply String.eqb_eq in E | apply String.eqb_neq in E].

Section MapFacts.
Context {V : Type}.
Implicit Types (m : list (string * V)) (k : string) (v : V).

Lemma map_get_set_same k v m : map_get k (map_set k v m) = Some v.
Proof.
  induction m as [|[k' v'] r IH]; simpl.
  - now rewrite String.eqb_refl.
  - str_cases k' k; simpl.
    + subst. now rewrite String.eqb_refl.
    + apply String.eqb_neq in E. now rewrite E.
Qed.

Lemma map_get_set_other k k' v m :
  k <> k' -> map_get k' (map_set k v m) = map_get k' m.
Proof.
  intros N. induction m as [|[k0 v0] r IH]; simpl.
  - apply String.eqb_neq in N. now rewrite N.
  - str_cases k0 k; simpl.
    + subst. apply String.eqb_neq in N. now rewrite N.
    + now rewrite IH.
Qed.

Lemma map_keys_set k v m k' :
  In k' (map_keys (map_set k v m)) <-> k' = k \/ In k' (map_keys m).
Proof.
  unfold map_keys. induction m as [|[k0 v0] r IH]; simpl.
  - intuition.
  - str_cases k0 k; simpl.
    + subst. intuition.
    + rewrite IH. intuition.
Qed.

Lemma map_get_in_keys k m :
  In k (map_keys m) <-> map_get k m <> None.
Proof.
  unfold map_keys. induction m as [|[k0 v0] r IH]; simpl.
  - intuition.
  - str_cases k0 k.
    + subst. split; [discriminate | auto].
    + rewrite <- IH. intuition.
Qed.

Lemma map_has_true k m : map_has k m = true <-> In k (map_keys m).
Proof.
  unfold map_has. rewrite map_get_in_keys.
  destruct (map_get k m); split; congruence.
Qed.
End MapFacts.

Lemma set_has_In k s : set_has k s = true <-> In k s.
Proof.
  induction s as [|k' r IH]; simpl.
  - split; [discriminate | tauto].
  - str_cases k' k.
    + subst. intuition.
    + rewrite IH. intuition.
Qed.

Lemma set_has_false k s : set_has k s = false <-> ~ In k s.
Proof.
  rewrite <- set_has_In. destruct (set_has k s); split; congruence.
Qed.

Lemma set_add_In k s k' : In k' (set_add k s) <-> k' = k \/ In k' s.
Proof.
  unfold set_add. destruct (set_has k s) eqn:H.
  - apply set_has_In in H. split; [auto | intros [->|]; auto].
  - rewrite in_app_iff. simpl. intuition.
Qed.

Lemma set_delete_In k s k' : In k' (set_delete k s) <-> In k' s /\ k' <> k.
Proof.
  unfold set_delete. rewrite filter_In, negb_true_iff, String.eqb_neq.
  tauto.
Qed.

Lemma set_add_NoDup k s : NoDup s -> NoDup (set_add k s).
Proof.
  intros N. unfold set_add. destruct (set_has k s) eqn:H; auto.
  apply set_has_false in H.
  apply NoDup_rev in N. rewrite <- (rev_involutive (s ++ [k])).
  apply NoDup_rev. rewrite rev_app_distr. simpl.
  constructor; auto. now rewrite <- in_rev.
Qed.

Lemma set_delete_NoDup k s : NoDup s -> NoDup (set_delete k s).
Proof. apply NoDup_filter. Qed.

Lemma set_delete_length k s :
  NoDup s -> In k s -> S (length (set_delete k s)) = length s.
Proof.
  induction 1 as [|a r Ha N IH]; simpl; [tauto|].
  intros [->|Hin].
  - rewrite String.eqb_refl. simpl. f_equal.
    unfold set_delete in *. clear IH.
    induction r as [|b r IHr]; simpl; auto.
    inversion N; subst.
    str_cases b k; simpl.
    + subst. exfalso. apply Ha. now left.
    + f_equal. apply IHr; auto. intros F. apply Ha. now right.
  - str_cases a k; simpl.
    + subst. contradiction.
    + f_equal. now apply IH.
Qed.

Lemma set_add_length k s : length (set_add k s) <= S (length s).
Proof.
  unfold set_add. destruct (set_has k s); [lia|].
  rewrite length_app. simpl. lia.
Qed.

(* ================================================================= *)
(** ** [initializeDijkstra] *)

Lemma init_fold_split start (l : list Node) ds ps us :
  fold_left
    (fun (acc : list (string * num) * list (string * option string)
                * list string) node =>
       let '(ds, ps, us) := acc in
       (map_set (id node)
          (if String.eqb (id node) start then Fin 0 else Infinity) ds,
        map_set (id node) None ps,
        set_add (id node) us))
    l (ds, ps, us)
  = (fold_left
       (fun ds node =>
          map_set (id node)
            (if String.eqb (id node) start then Fin 0 else Infinity) ds)
       l ds,
     fold_left (fun ps node => map_set (id node) None ps) l ps,
     fold_left (fun us node => set_add (id node) us) l us).
Proof.
  revert ds ps us. induction l as [|n r IH]; intros; simpl; auto.
Qed.

Lemma initializeDijkstra_eq g start :
  initializeDijkstra g start =
  mkStep (init_distances g start) (init_previous g) (Some start) []
    (init_unvisited g)
    (mkGraph
       (map (fun node => with_status node (Some (init_status start node)))
          (nodes g))
       (edges g))
    false None.
Proof.
  unfold initializeDijkstra. rewrite init_fold_split. reflexivity.
Qed.

Section InitFolds.
Context {V : Type} (f : string -> V).

Let fill (l : list Node) (m : list (string * V)) :=
  fold_left (fun m node => map_set (id node) (f (id node)) m) l m.

Lemma fill_get_out l m k :
  ~ In k (map id l) -> map_get k (fill l m) = map_get k m.
Proof.
  revert m. induction l as [|n r IH]; intros m N; simpl in *; auto.
  unfold fill in *. simpl. rewrite IH by tauto.
  apply map_get_set_other. tauto.
Qed.

Lemma fill_get_in l m k :
  In k (map id l) -> map_get k (fill l m) = Some (f k).
Proof.
  revert m. induction l as [|n r IH]; intros m H; simpl in *; [tauto|].
  destruct (in_dec string_dec k (map id r)) as [Hr|Hr].
  - unfold fill in *. simpl. now apply IH.
  - destruct H as [<-|H]; [|contradiction].
    change (map_get (id n) (fill r (map_set (id n) (f (id n)) m))
            = Some (f (id n))).
    rewrite fill_get_out by assumption. apply map_get_set_same.
Qed.

Lemma fill_keys l m k :
  In k (map_keys (fill l m)) <-> In k (map_keys m) \/ In k (map id l).
Proof.
  revert m. induction l as [|n r IH]; intros m; simpl.
  - tauto.
  - change (In k (map_keys (fill r (map_set (id n) (f (id n)) m)))
            <-> In k (map_keys m) \/ id n = k \/ In k (map id r)).
    rewrite IH, map_keys_set. intuition.
Qed.
End InitFolds.

Lemma fold_set_add_In (l : list Node) us k :
  In k (fold_left (fun us node => set_add (id node) us) l us)
  <-> In k us \/ In k (map id l).
Proof.
  revert us. induction l as [|n r IH]; intros us; simpl.
  - tauto.
  - rewrite IH, set_add_In. intuition.
Qed.

Lemma fold_set_add_NoDup (l : list Node) us :
  NoDup us -> NoDup (fold_left (fun us node => set_add (id node) us) l us).
Proof.
  revert us. induction l as [|n r IH]; intros us N; simpl; auto.
  apply IH. now apply set_add_NoDup.
Qed.

Lemma init_distances_get g start k :
  In k (node_ids g) ->
  map_get k (init_distances g start)
  = Some (if String.eqb k start then Fin 0 else Infinity).
Proof.
  intros H. unfold init_distances.
  apply (fill_get_in
           (fun i => if String.eqb i start then Fin 0 else Infinity)).
  exact H.
Qed.

Lemma init_distances_keys g start k :
  In k (map_keys (init_distances g start)) <-> In k (node_ids g).
Proof.
  unfold init_distances.
  rewrite (fill_keys
             (fun i => if String.eqb i start then Fin 0 else Infinity)).
  simpl. tauto.
Qed.

Lemma init_distances_get_out g start k :
  ~ In k (node_ids g) -> map_get k (init_distances g start) = None.
Proof.
  intros H. destruct (map_get k (init_distances g start)) eqn:E; auto.
  exfalso. apply H. apply (init_distances_keys g start).
  apply map_get_in_keys. congruence.
Qed.

Lemma init_previous_get g k :
  In k (node_ids g) -> map_get k (init_previous g) = Some None.
Proof.
  intros H. unfold init_previous.
  apply (fill_get_in (fun _ => @None string)). exact H.
Qed.

Lemma init_previous_keys g k :
  In k (map_keys (init_previous g)) <-> In k (node_ids g).
Proof.
  unfold init_previous. rewrite (fill_keys (fun _ => @None string)).
  simpl. tauto.
Qed.

Lemma init_previous_null g k u :
  map_get k (init_previous g) <> Some (Some u).
Proof.
  destruct (in_dec string_dec k (node_ids g)) as [H|H].
  - rewrite init_previous_get by assumption. discriminate.
  - intros E. apply H. apply init_previous_keys. apply map_get_in_keys.
    congruence.
Qed.

Lemma init_unvisited_In g k : In k (init_unvisited g) <-> In k (node_ids g).
Proof.
  unfold init_unvisited. rewrite fold_set_add_In. simpl. tauto.
Qed.

Lemma init_unvisited_NoDup g : NoDup (init_unvisited g).
Proof. apply fold_set_add_NoDup. constructor. Qed.

(* ================================================================= *)
(** ** One call of [dijkstraNextStep] *)

Lemma dijkstraNextStep_idle s :
  isDone s = true \/ currentNode s = None ->
  dijkstraNextStep s = s.
Proof.
  intros [H|H]; unfold dijkstraNextStep; rewrite H; simpl; auto.
  now rewrite orb_true_r.
Qed.

Lemma dijkstraNextStep_empty_id s :
  currentNode s = Some "" -> dijkstraNextStep s = s.
Proof.
  intros H. unfold dijkstraNextStep. rewrite H. simpl.
  now rewrite orb_true_r.
Qed.

Lemma active_or_idle s :
  (exists u, active s u) \/ dijkstraNextStep s = s.
Proof.
  destruct (isDone s) eqn:D.
  - right. apply dijkstraNextStep_idle. now left.
  - destruct (currentNode s) as [u|] eqn:C.
    + destruct (string_dec u "") as [->|N].
      * right. now apply dijkstraNextStep_empty_id.
      * left. exists u. repeat split; auto.
    + right. apply dijkstraNextStep_idle. now right.
Qed.

Section ActiveStep.
Variables (s : DijkstraStep) (u : string).
Hypothesis Hact : active s u.

Let visited := set_add u (visitedNodes s).
Let unvisited := set_delete u (unvisitedNodes s).
Let relaxed := relax_all s u.
Let sel := select_next (fst relaxed) unvisited.
Let finished :=
  match snd sel with
  | None => true
  | Some _ => num_eqb (fst sel) Infinity
  end.

Lemma dijkstraNextStep_active :
  dijkstraNextStep s =
  mkStep (fst relaxed) (snd relaxed)
    (if finished then None else snd sel)
    visited unvisited
    (mkGraph (map (mark_node u visited) (nodes (graph s)))
       (edges (graph s)))
    finished (shortestPath s).
Proof.
  destruct Hact as (D & C & N).
  unfold dijkstraNextStep. rewrite D, C. simpl.
  unfold str_truthy. apply String.eqb_neq in N. rewrite N. reflexivity.
Qed.

Lemma next_distances : distances (dijkstraNextStep s) = fst (relax_all s u).
Proof. now rewrite dijkstraNextStep_active. Qed.

Lemma next_previous : previous (dijkstraNextStep s) = snd (relax_all s u).
Proof. now rewrite dijkstraNextStep_active. Qed.

Lemma next_visited :
  visitedNodes (dijkstraNextStep s) = set_add u (visitedNodes s).
Proof. now rewrite dijkstraNextStep_active. Qed.

Lemma next_unvisited :
  unvisitedNodes (dijkstraNextStep s) = set_delete u (unvisitedNodes s).
Proof. now rewrite dijkstraNextStep_active. Qed.

Lemma next_edges : edges (graph (dijkstraNextStep s)) = edges (graph s).
Proof. now rewrite dijkstraNextStep_active. Qed.

Lemma next_node_ids :
  node_ids (graph (dijkstraNextStep s)) = node_ids (graph s).
Proof.
  rewrite dijkstraNextStep_active. unfold node_ids. simpl.
  rewrite map_map. apply map_ext. reflexivity.
Qed.

Lemma next_isDone :
  isDone (dijkstraNextStep s) =
  match snd (select_next (fst (relax_all s u))
               (set_delete u (unvisitedNodes s))) with
  | None => true
  | Some _ =>
      num_eqb (fst (select_next (fst (relax_all s u))
                      (set_delete u (unvisitedNodes s)))) Infinity
  end.
Proof. now rewrite dijkstraNextStep_active. Qed.

Lemma next_currentNode :
  currentNode (dijkstraNextStep s) =
  if isDone (dijkstraNextStep s) then None
  else snd (select_next (fst (relax_all s u))
              (set_delete u (unvisitedNodes s))).
Proof. now rewrite dijkstraNextStep_active. Qed.
End ActiveStep.

(* ================================================================= *)
(** ** Relaxation *)

Section Relax.
Variables (visited : list string) (u : string) (du : num).

Lemma relax_get acc nb v :
  In v visited \/ v <> fst nb ->
  map_get v (fst (relax visited u du acc nb)) = map_get v (fst acc)
  /\ map_get v (snd (relax visited u du acc nb)) = map_get v (snd acc).
Proof.
  intros H. destruct nb as [n w]. unfold relax. simpl in *.
  destruct (set_has n visited) eqn:Hv; [auto|].
  destruct (num_ltb _ _); [|auto]. simpl.
  assert (n <> v) as N.
  { destruct H as [H|H]; [|congruence].
    intros ->. apply set_has_false in Hv. contradiction. }
  now rewrite !map_get_set_other by assumption.
Qed.

Lemma relax_fold_get nbs acc v :
  In v visited \/ ~ In v (map fst nbs) ->
  map_get v (fst (fold_left (relax visited u du) nbs acc))
  = map_get v (fst acc)
  /\ map_get v (snd (fold_left (relax visited u du) nbs acc))
     = map_get v (snd acc).
Proof.
  revert acc. induction nbs as [|nb r IH]; intros acc H; simpl; [auto|].
  destruct (IH (relax visited u du acc nb)) as [A B].
  { simpl in H. tauto. }
  destruct (relax_get acc nb v) as [A' B'].
  { simpl in H. destruct H; [auto|right]. intros ->. tauto. }
  split; congruence.
Qed.

Lemma relax_keys acc nb k :
  (In k (map_keys (fst (relax visited u du acc nb)))
   <-> In k (map_keys (fst acc))
       \/ (k = fst nb
           /\ map_get k (fst (relax visited u du acc nb))
              <> map_get k (fst acc)))
  /\ (In k (map_keys (snd acc)) ->
      In k (map_keys (snd (relax visited u du acc nb))))
  /\ (In k (map_keys (snd (relax visited u du acc nb))) ->
      In k (map_keys (snd acc)) \/ k = fst nb).
Proof.
  destruct nb as [n w]. unfold relax. simpl.
  destruct (set_has n visited); [tauto|].
  destruct (num_ltb _ _) eqn:L; [|tauto]. simpl.
  rewrite !map_keys_set. repeat split; try tauto.
  intros [->|H]; auto.
  destruct (map_get n (fst acc)) eqn:G.
  - left. apply map_get_in_keys. congruence.
  - right. split; auto. rewrite map_get_set_same. discriminate.
Qed.

Lemma relax_fold_keys nbs acc k :
  (In k (map_keys (fst (fold_left (relax visited u du) nbs acc))) ->
   In k (map_keys (fst acc)) \/ In k (map fst nbs))
  /\ (In k (map_keys (snd (fold_left (relax visited u du) nbs acc))) ->
      In k (map_keys (snd acc)) \/ In k (map fst nbs))
  /\ (In k (map_keys (fst acc)) ->
      In k (map_keys (fst (fold_left (relax visited u du) nbs acc))))
  /\ (In k (map_keys (snd acc)) ->
      In k (map_keys (snd (fold_left (relax visited u du) nbs acc)))).
Proof.
  revert acc. induction nbs as [|nb r IH]; intros acc; simpl; [tauto|].
  destruct (IH (relax visited u du acc nb)) as (A & B & C & D).
  destruct (relax_keys acc nb k) as (E & F & G).
  repeat split; intros H.
  - apply A in H. destruct H as [H|H]; [|tauto].
    apply E in H. intuition.
  - apply B in H. destruct H as [H|H]; [|tauto].
    apply G in H. intuition.
  - apply C, E. now left.
  - apply D, F, H.
Qed.
End Relax.

(* ================================================================= *)
(** ** Selection of the next node *)

Lemma num_ltb_inf_r a b : num_ltb a b = true -> num_ltb a Infinity = true.
Proof. destruct a, b; simpl; auto. Qed.

Lemma pick_fold_ok ds l seen acc :
  pick_ok ds seen acc ->
  pick_ok ds (seen ++ l) (fold_left (pick ds) l acc).
Proof.
  revert seen acc. induction l as [|n r IH]; intros seen acc H; simpl.
  - now rewrite app_nil_r.
  - replace (seen ++ n :: r) with ((seen ++ [n]) ++ r)
      by now rewrite <- app_assoc.
    apply IH. unfold pick.
    destruct (num_ltb _ _) eqn:L.
    + unfold pick_ok. simpl. split; [|split].
      * apply in_or_app. right. now left.
      * reflexivity.
      * eapply num_ltb_inf_r; eauto.
    + unfold pick_ok in *. destruct (snd acc); auto.
      destruct H as (A & B & C). repeat split; auto.
      apply in_or_app. now left.
Qed.

Lemma select_next_ok ds l : pick_ok ds l (select_next ds l).
Proof.
  unfold select_next. apply (pick_fold_ok ds l [] (Infinity, None)).
  reflexivity.
Qed.

Lemma select_next_some ds l n :
  snd (select_next ds l) = Some n ->
  In n l /\ num_eqb (fst (select_next ds l)) Infinity = false
  /\ fst (select_next ds l) = or_infinity (map_get n ds).
Proof.
  intros H. pose proof (select_next_ok ds l) as P. unfold pick_ok in P.
  rewrite H in P. destruct P as (A & B & C). repeat split; auto.
  destruct (fst (select_next ds l)); simpl in *; congruence.
Qed.

(** While the run is not finished the current node was taken from the
    unvisited set and has a finite, non-zero distance. *)
Lemma next_current_unvisited s u :
  active s u ->
  isDone (dijkstraNextStep s) = false ->
  exists n, currentNode (dijkstraNextStep s) = Some n
            /\ In n (unvisitedNodes (dijkstraNextStep s))
            /\ exists z, map_get n (distances (dijkstraNextStep s))
                         = Some (Fin z) /\ z <> 0%Z.
Proof.
  intros A D. rewrite (next_currentNode s u A), D.
  rewrite (next_isDone s u A) in D.
  rewrite (next_unvisited s u A), (next_distances s u A).
  destruct (snd (select_next _ _)) as [n|] eqn:E; [|discriminate].
  exists n. destruct (select_next_some _ _ _ E) as (I & F & G).
  repeat split; auto.
  pose proof (select_next_ok (fst (relax_all s u))
                (set_delete u (unvisitedNodes s))) as P.
  unfold pick_ok in P. rewrite E in P. destruct P as (_ & _ & L).
  rewrite G in L, F.
  destruct (map_get n (fst (relax_all s u))) as [[z|]|]; simpl in *;
    try discriminate.
  destruct (Z.eqb_spec z 0); simpl in *; try discriminate.
  exists z. auto.
Qed.

(* ================================================================= *)
(** ** [createAdjacencyList] *)

Lemma pair_eq_iff (a c : string) (b d : Z) : (a, b) = (c, d) <-> a = c /\ b = d.
Proof. split; [intros H; inversion H; auto | intros [-> ->]; auto]. Qed.

Lemma add_connections_In adj e u v w :
  In (v, w) (or_empty (map_get u (add_connections adj e)))
  <-> In (v, w) (or_empty (map_get u adj)) \/ contributes e u v w.
Proof.
  unfold add_connections, contributes.
  str_cases (source e) (target e).
  - destruct (map_get (source e) adj) as [arr|] eqn:G.
    + destruct (string_dec (source e) u) as [Su|Su].
      * subst u. rewrite map_get_set_same, G. simpl.
        rewrite in_app_iff. simpl. rewrite !pair_eq_iff, <- E.
        intuition congruence.
      * rewrite map_get_set_other by assumption. intuition congruence.
    + rewrite <- E.
      destruct (string_dec (source e) u) as [Su|Su].
      * subst u. rewrite map_get_set_same, G. simpl.
        rewrite !pair_eq_iff. intuition congruence.
      * rewrite !map_get_set_other by assumption. intuition congruence.
  - destruct (string_dec (target e) u) as [Tu|Tu].
    + subst u. rewrite map_get_set_same. simpl. rewrite in_app_iff. simpl.
      rewrite !pair_eq_iff. intuition congruence.
    + rewrite map_get_set_other by assumption.
      destruct (string_dec (source e) u) as [Su|Su].
      * subst u. rewrite map_get_set_same. simpl. rewrite in_app_iff. simpl.
        rewrite !pair_eq_iff. intuition congruence.
      * rewrite map_get_set_other by assumption. intuition congruence.
Qed.

Lemma fold_add_connections_In es adj u v w :
  In (v, w) (or_empty (map_get u (fold_left add_connections es adj)))
  <-> In (v, w) (or_empty (map_get u adj))
      \/ exists e, In e es /\ contributes e u v w.
Proof.
  revert adj. induction es as [|e r IH]; intros adj; simpl.
  - split; [auto|]. intros [H|(e & [] & _)]; auto.
  - rewrite IH, add_connections_In. split.
    + intros [[H|H]|(e' & I & C)]; eauto.
    + intros [H|(e' & [<-|I] & C)]; eauto.
Qed.

Lemma empty_connections (l : list Node) u :
  or_empty
    (map_get u (fold_left (fun adj node => map_set (id node) [] adj) l []))
  = [].
Proof.
  destruct (in_dec string_dec u (map id l)) as [H|H].
  - now rewrite (fill_get_in (fun _ => @nil (string * Z)) l [] u H).
  - now rewrite (fill_get_out (fun _ => @nil (string * Z)) l [] u H).
Qed.

(** The connections of [u] are exactly what the edges at [u] contribute. *)
Lemma createAdjacencyList_In g u v w :
  In (v, w) (or_empty (map_get u (createAdjacencyList g)))
  <-> exists e, In e (edges g) /\ contributes e u v w.
Proof.
  unfold createAdjacencyList.
  rewrite fold_add_connections_In, empty_connections. simpl. tauto.
Qed.

(* ================================================================= *)
(** ** Iterating [dijkstraNextStep] *)

Lemma advance_n_S n s :
  advance_n (S n) s = dijkstraNextStep (advance_n n s).
Proof.
  revert s. induction n as [|n IH]; intros s; [reflexivity|].
  change (advance_n (S (S n)) s) with (advance_n (S n) (dijkstraNextStep s)).
  rewrite IH. reflexivity.
Qed.

Lemma advance_n_add n m s :
  advance_n (n + m) s = advance_n m (advance_n n s).
Proof.
  revert s. induction n as [|n IH]; intros s; simpl; auto.
Qed.

Lemma reachable_advance_n g start n :
  reachable g start (advance_n n (initializeDijkstra g start)).
Proof.
  induction n as [|n IH]; [constructor|].
  rewrite advance_n_S. now constructor.
Qed.

Lemma reachable_inv g start s :
  reachable g start s ->
  exists n, s = advance_n n (initializeDijkstra g start).
Proof.
  induction 1 as [|s R [n ->]].
  - now exists O.
  - exists (S n). now rewrite advance_n_S.
Qed.

Lemma advance_n_done n s :
  isDone s = true -> advance_n n s = s.
Proof.
  intros D. induction n as [|n IH]; simpl; auto.
  rewrite dijkstraNextStep_idle; auto.
Qed.

(** The graph copy keeps the edges and the node ids of the input. *)
Lemma reachable_graph g start s :
  reachable g start s ->
  edges (graph s) = edges g /\ node_ids (graph s) = node_ids g.
Proof.
  induction 1 as [|s R [IHe IHn]].
  - rewrite initializeDijkstra_eq. unfold node_ids. simpl. split; auto.
    rewrite map_map. apply map_ext. reflexivity.
  - destruct (active_or_idle s) as [[u A]|I].
    + now rewrite (next_edges s u A), (next_node_ids s u A).
    + now rewrite I.
Qed.

(* ================================================================= *)
(** ** Visited nodes are final *)

Lemma step_visited_stable s v :
  In v (visitedNodes s) ->
  In v (visitedNodes (dijkstraNextStep s))
  /\ map_get v (distances (dijkstraNextStep s)) = map_get v (distances s).
Proof.
  intros H. destruct (active_or_idle s) as [[u A]|I].
  - rewrite (next_visited s u A), (next_distances s u A). split.
    + apply set_add_In. now right.
    + unfold relax_all. apply relax_fold_get. left.
      apply set_add_In. now right.
  - now rewrite I.
Qed.

Lemma advance_visited_stable m s v :
  In v (visitedNodes s) ->
  In v (visitedNodes (advance_n m s))
  /\ map_get v (distances (advance_n m s)) = map_get v (distances s).
Proof.
  revert s. induction m as [|m IH]; intros s H; simpl; auto.
  destruct (step_visited_stable s v H) as [A B].
  destruct (IH _ A) as [C D]. split; congruence.
Qed.

(** C6: along the run from [initializeDijkstra], a node that is in
    [visitedNodes] after [n] calls of [dijkstraNextStep] is in [visitedNodes]
    after any later number [n + m] of calls, and its entry in [distances] is
    the same there.  This holds for every graph; positive weights are not
    needed. *)
Theorem visited_nodes_are_final g start n m v :
  In v (visitedNodes (advance_n n (initializeDijkstra g start))) ->
  In v (visitedNodes (advance_n (n + m) (initializeDijkstra g start)))
  /\ map_get v (distances (advance_n (n + m) (initializeDijkstra g start)))
     = map_get v (distances (advance_n n (initializeDijkstra g start))).
Proof.
  intros H. rewrite advance_n_add. now apply advance_visited_stable.
Qed.

Lemma visited_nodes_are_final_witness :
  In "A" (visitedNodes (advance_n 1 (initializeDijkstra generateDemoGraph "A")))
  /\ In "A" (visitedNodes
               (advance_n (1 + 3) (initializeDijkstra generateDemoGraph "A")))
  /\ map_get "A"
       (distances (advance_n (1 + 3) (initializeDijkstra generateDemoGraph "A")))
     = map_get "A"
         (distances (advance_n 1 (initializeDijkstra generateDemoGraph "A"))).
Proof.
  assert (In "A" (visitedNodes
                    (advance_n 1 (initializeDijkstra generateDemoGraph "A"))))
    as H by (vm_compute; auto).
  split; [exact H|].
  exact (visited_nodes_are_final generateDemoGraph "A" 1 3 "A" H).
Defined.

(* ================================================================= *)
(** ** Terminal steps and trivial paths *)

(** C8: on a step whose [isDone] flag is set or whose [currentNode] is
    [null], [dijkstraNextStep] returns a step with the same distances,
    previous, currentNode, visitedNodes, unvisitedNodes, graph, isDone and
    shortestPath: the whole record is equal to its input. *)
Theorem next_step_terminal_identity s :
  isDone s = true \/ currentNode s = None ->
  dijkstraNextStep s = s.
Proof. apply dijkstraNextStep_idle. Qed.

Lemma next_step_terminal_identity_witness :
  isDone (advance_n 5 (initializeDijkstra generateDemoGraph "A")) = true
  /\ dijkstraNextStep (advance_n 5 (initializeDijkstra generateDemoGraph "A"))
     = advance_n 5 (initializeDijkstra generateDemoGraph "A").
Proof.
  split; [reflexivity|].
  apply (next_step_terminal_identity
           (advance_n 5 (initializeDijkstra generateDemoGraph "A"))).
  left. reflexivity.
Defined.

(** C9: for a path of fewer than two ids, [visualizeShortestPath] returns
    its input graph, nodes, edges and statuses included. *)
Theorem visualize_short_path_identity g path :
  length path < 2 -> visualizeShortestPath g path = g.
Proof.
  intros H. unfold visualizeShortestPath.
  apply Nat.ltb_lt in H. now rewrite H.
Qed.

Lemma visualize_short_path_identity_witness :
  length ["A"] < 2
  /\ visualizeShortestPath generateDemoGraph ["A"] = generateDemoGraph.
Proof.
  split; [simpl; lia|].
  apply (visualize_short_path_identity generateDemoGraph ["A"]).
  simpl. lia.
Defined.

(* ================================================================= *)
(** ** The frontier *)

Section Frontier.
Variables (g : Graph) (start : string).
Hypothesis Hstart : In start (node_ids g).

Lemma init_frontier : frontier_ok g (initializeDijkstra g start).
Proof.
  rewrite initializeDijkstra_eq. unfold frontier_ok. simpl.
  repeat split.
  - intros _. exists start. split; auto. now apply init_unvisited_In.
  - apply init_unvisited_NoDup.
  - intros v. apply init_unvisited_In.
  - unfold node_ids. simpl. rewrite map_map. apply map_ext. reflexivity.
Qed.

Lemma step_frontier s :
  frontier_ok g s -> frontier_ok g (dijkstraNextStep s).
Proof.
  intros F. destruct (active_or_idle s) as [[u A]|I]; [|now rewrite I].
  destruct F as (Fc & Fn & Fs & Fe & Fi).
  unfold frontier_ok. repeat split.
  - intros D'. destruct (next_current_unvisited s u A D')
      as (n & Cn & Un & _). eauto.
  - rewrite (next_unvisited s u A). now apply set_delete_NoDup.
  - rewrite (next_unvisited s u A). intros v H.
    apply set_delete_In in H. apply Fs. tauto.
  - now rewrite (next_edges s u A).
  - now rewrite (next_node_ids s u A).
Qed.

Lemma reachable_frontier s : reachable g start s -> frontier_ok g s.
Proof.
  induction 1 as [|s R IH]; [apply init_frontier | now apply step_frontier].
Qed.
End Frontier.

(* ================================================================= *)
(** ** The visited/unvisited partition *)

Section Partition.
Variables (g : Graph) (start : string).
Hypothesis Hstart : In start (node_ids g).
Hypothesis Hwf : edges_wf g.

Lemma init_partition : partition_ok g (initializeDijkstra g start).
Proof.
  rewrite initializeDijkstra_eq. unfold partition_ok. simpl.
  repeat split.
  - tauto.
  - intros [[]|H]. now apply init_unvisited_In.
  - intros H. right. now apply init_unvisited_In.
  - apply init_distances_keys.
  - apply init_distances_keys.
  - apply init_previous_keys.
  - apply init_previous_keys.
Qed.

Lemma neighbor_is_node s u k :
  edges (graph s) = edges g ->
  In k (map fst (or_empty (map_get u (createAdjacencyList (graph s))))) ->
  In k (node_ids g).
Proof.
  intros He H. apply in_map_iff in H. destruct H as ([k' w] & <- & H).
  apply createAdjacencyList_In in H. destruct H as (e & I & _ & C).
  rewrite He in I. destruct (Hwf e I) as [A B]. simpl.
  destruct C as [[_ <-]|[_ <-]]; auto.
Qed.

Lemma step_partition s :
  frontier_ok g s -> partition_ok g s ->
  partition_ok g (dijkstraNextStep s).
Proof.
  intros F P. destruct (active_or_idle s) as [[u A]|I];
    [|now rewrite I].
  destruct P as (Pd & Pu & Pk & Pp).
  destruct F as (Fc & Fn & Fs & Fe & Fi).
  destruct A as (D & C & N).
  destruct (Fc D) as (u' & C' & Uu). rewrite C in C'. inversion C'; subst u'.
  assert (active s u) as A by (repeat split; auto).
  pose proof (relax_fold_keys (set_add u (visitedNodes s)) u
                (or_zero (map_get u (distances s)))
                (or_empty (map_get u (createAdjacencyList (graph s))))
                (distances s, previous s)) as K.
  unfold partition_ok.
  rewrite (next_visited s u A), (next_unvisited s u A),
    (next_distances s u A), (next_previous s u A).
  repeat split.
  - intros v [V U]. apply set_add_In in V. apply set_delete_In in U.
    destruct U as [U Nu]. destruct V as [V|V]; [contradiction|].
    apply (Pd v). auto.
  - intros [V|U].
    + apply set_add_In in V. destruct V as [->|V]; auto.
      apply Pu. auto.
    + apply set_delete_In in U. apply Pu. tauto.
  - intros H. apply Pu in H.
    destruct (string_dec v u) as [->|Nv].
    + left. apply set_add_In. auto.
    + destruct H as [H|H].
      * left. apply set_add_In. auto.
      * right. apply set_delete_In. auto.
  - intros H. apply (K v) in H. simpl in H. destruct H as [H|H].
    + now apply Pk.
    + eapply neighbor_is_node; eauto.
  - intros H. apply (K v). simpl. now apply Pk.
  - intros H. apply (K v) in H. simpl in H. destruct H as [H|H].
    + now apply Pp.
    + eapply neighbor_is_node; eauto.
  - intros H. apply (K v). simpl. now apply Pp.
Qed.

Lemma reachable_partition s :
  reachable g start s -> partition_ok g s.
Proof.
  induction 1 as [|s R IH].
  - apply init_partition.
  - apply step_partition; auto. now apply (reachable_frontier g start).
Qed.
End Partition.

(** C10: when the start id names a node of the graph and every edge joins
    nodes of the graph, every step reachable from [initializeDijkstra] by
    [dijkstraNextStep] has disjoint [visitedNodes] and [unvisitedNodes]
    whose union is the set of node ids, and both [distances] and
    [previous] are defined on exactly the node ids. *)
Theorem reachable_partition_ok g start s :
  In start (node_ids g) ->
  edges_wf g ->
  reachable g start s ->
  partition_ok g s.
Proof.
  intros Hs Hw R. now apply (reachable_partition g start Hs Hw s R).
Qed.

Lemma generateDemoGraph_wf : edges_wf generateDemoGraph.
Proof.
  intros e H. simpl in H.
  repeat (destruct H as [<-|H]; [simpl; tauto|]). destruct H.
Defined.

Lemma reachable_partition_ok_witness :
  In "A" (node_ids generateDemoGraph)
  /\ edges_wf generateDemoGraph
  /\ reachable generateDemoGraph "A"
       (advance_n 3 (initializeDijkstra generateDemoGraph "A"))
  /\ partition_ok generateDemoGraph
       (advance_n 3 (initializeDijkstra generateDemoGraph "A")).
Proof.
  assert (In "A" (node_ids generateDemoGraph)) as Hs by (simpl; auto).
  pose proof (reachable_advance_n generateDemoGraph "A" 3) as R.
  split; [exact Hs|].
  split; [exact generateDemoGraph_wf|].
  split; [exact R|].
  exact (reachable_partition_ok generateDemoGraph "A" _ Hs
           generateDemoGraph_wf R).
Defined.

(* ================================================================= *)
(** ** Termination of the main loop *)

Lemma run_loop_stuck fuel s acc :
  isDone s = false -> dijkstraNextStep s = s -> run_loop fuel s acc = None.
Proof.
  intros D I. revert acc. induction fuel as [|f IH]; intros acc; simpl;
    rewrite D; auto.
  rewrite I. apply IH.
Qed.

Lemma run_loop_done fuel n s acc :
  isDone (advance_n n s) = true -> n <= fuel ->
  exists acc', run_loop fuel s acc = Some (advance_n n s, acc').
Proof.
  revert n s acc. induction fuel as [|f IH]; intros n s acc D L.
  - assert (n = 0) as -> by lia. simpl in *. rewrite D. eauto.
  - simpl. destruct (isDone s) eqn:Ds.
    + rewrite advance_n_done by assumption. eauto.
    + destruct n as [|n]; [simpl in D; congruence|].
      simpl in D. simpl. apply IH; auto. lia.
Qed.

Lemma run_loop_more fuel fuel' s acc r :
  run_loop fuel s acc = Some r -> fuel <= fuel' ->
  run_loop fuel' s acc = Some r.
Proof.
  revert fuel' s acc. induction fuel as [|f IH]; intros fuel' s acc H L.
  - simpl in H. destruct (isDone s) eqn:D; [|discriminate].
    destruct fuel'; simpl; now rewrite D.
  - simpl in H. destruct (isDone s) eqn:D.
    + destruct fuel'; simpl; now rewrite D.
    + destruct fuel' as [|f']; [lia|]. simpl. rewrite D.
      apply IH; auto. lia.
Qed.

Lemma run_loop_result fuel s acc r :
  run_loop fuel s acc = Some r ->
  isDone (fst r) = true /\ exists n, n <= fuel /\ fst r = advance_n n s.
Proof.
  revert s acc. induction fuel as [|f IH]; intros s acc H; simpl in H.
  - destruct (isDone s) eqn:D; [|discriminate]. inversion H; subst. simpl.
    split; auto. exists 0. auto.
  - destruct (isDone s) eqn:D.
    + inversion H; subst. simpl. split; auto. exists 0. split; [lia|auto].
    + destruct (IH _ _ H) as (A & n & L & E). split; auto.
      exists (S n). split; [lia|]. exact E.
Qed.

Lemma init_unvisited_length g : length (init_unvisited g) <= length (nodes g).
Proof.
  unfold init_unvisited.
  assert (forall (l : list Node) us,
             length (fold_left (fun us node => set_add (id node) us) l us)
             <= length us + length l) as H.
  { induction l as [|n r IH]; intros us; simpl; [lia|].
    specialize (IH (set_add (id n) us)).
    pose proof (set_add_length (id n) us). lia. }
  apply (H (nodes g) []).
Qed.

Section Termination.
Variables (g : Graph) (start : string).
Hypothesis Hstart : In start (node_ids g).
Hypothesis Hids : forall k, In k (node_ids g) -> k <> "".

(** A reachable step that is not done is active: its current node is
    unvisited, hence a node id, hence a non-empty string. *)
Lemma reachable_active s :
  reachable g start s -> isDone s = false ->
  exists u, active s u /\ In u (unvisitedNodes s).
Proof.
  intros R D. destruct (reachable_frontier g start Hstart s R)
    as (Fc & _ & Fs & _).
  destruct (Fc D) as (u & C & U). exists u. split; auto.
  repeat split; auto.
Qed.

(** Each call on a step that is not done takes exactly the current node
    out of the unvisited set. *)
Lemma step_removes_one s :
  reachable g start s -> isDone s = false ->
  exists u, currentNode s = Some u
            /\ In u (unvisitedNodes s)
            /\ ~ In u (unvisitedNodes (dijkstraNextStep s))
            /\ (forall v, v <> u ->
                  (In v (unvisitedNodes (dijkstraNextStep s))
                   <-> In v (unvisitedNodes s)))
            /\ S (length (unvisitedNodes (dijkstraNextStep s)))
               = length (unvisitedNodes s).
Proof.
  intros R D. destruct (reachable_active s R D) as (u & A & U).
  destruct (reachable_frontier g start Hstart s R) as (_ & Fn & _).
  exists u. rewrite (next_unvisited s u A).
  split; [apply A|]. split; [exact U|]. split; [|split].
  - intros H. apply set_delete_In in H. tauto.
  - intros v N. rewrite set_delete_In. tauto.
  - now apply set_delete_length.
Qed.

Lemma unvisited_countdown n :
  let s := advance_n n (initializeDijkstra g start) in
  isDone s = true
  \/ length (unvisitedNodes s) + n = length (init_unvisited g).
Proof.
  induction n as [|n IH]; simpl.
  - right. rewrite initializeDijkstra_eq. simpl. lia.
  - change (advance_n n (dijkstraNextStep (initializeDijkstra g start)))
      with (advance_n (S n) (initializeDijkstra g start)).
    rewrite advance_n_S. simpl in IH.
    set (s := advance_n n (initializeDijkstra g start)) in *.
    destruct (isDone s) eqn:D.
    + left. rewrite dijkstraNextStep_idle; auto.
    + destruct IH as [IH|IH]; [congruence|]. right.
      destruct (step_removes_one s (reachable_advance_n g start n) D)
        as (u & _ & _ & _ & _ & L). lia.
Qed.

Lemma done_after_all_nodes :
  isDone (advance_n (length (nodes g)) (initializeDijkstra g start)) = true.
Proof.
  assert (isDone (advance_n (length (init_unvisited g))
                    (initializeDijkstra g start)) = true) as H.
  { destruct (unvisited_countdown (length (init_unvisited g))) as [H|H];
      auto.
    set (s := advance_n _ _) in *.
    destruct (isDone s) eqn:D; auto.
    destruct (reachable_active s (reachable_advance_n g start _) D)
      as (u & _ & U).
    destruct (unvisitedNodes s); [destruct U | simpl in H; lia]. }
  pose proof (init_unvisited_length g) as L.
  replace (length (nodes g))
    with (length (init_unvisited g)
          + (length (nodes g) - length (init_unvisited g))) by lia.
  rewrite advance_n_add. now rewrite advance_n_done.
Qed.
End Termination.

(** For graphs whose node ids are all non-empty the main loop ends: every
    call on an unfinished step takes exactly its current node out of
    [unvisitedNodes], and after as many calls as there are nodes the step
    is done. *)
Lemma run_terminates_nonempty_ids g start :
  In start (node_ids g) ->
  (forall k, In k (node_ids g) -> k <> "") ->
  (forall s, reachable g start s -> isDone s = false ->
     exists u, currentNode s = Some u
               /\ In u (unvisitedNodes s)
               /\ ~ In u (unvisitedNodes (dijkstraNextStep s))
               /\ (forall v, v <> u ->
                     (In v (unvisitedNodes (dijkstraNextStep s))
                      <-> In v (unvisitedNodes s)))
               /\ S (length (unvisitedNodes (dijkstraNextStep s)))
                  = length (unvisitedNodes s))
  /\ isDone (advance_n (length (nodes g)) (initializeDijkstra g start)) = true.
Proof.
  intros Hs Hi. split.
  - intros s. now apply step_removes_one.
  - now apply done_after_all_nodes.
Qed.

(** C7 fails on a node whose id is the empty string: the guard
    [!currentStep.currentNode] takes the current node [""] for [null] and
    returns the step as it is, with [isDone] still false.  On
    [empty_id_graph] from ["A"] the step is never done, whatever the
    number of calls, and the loop of [runDijkstraAlgorithm] has no result
    for any fuel. *)
Theorem empty_id_run_never_done :
  (forall n,
     isDone (advance_n n (initializeDijkstra empty_id_graph "A")) = false)
  /\ (forall n,
        unvisitedNodes
          (advance_n (S n) (initializeDijkstra empty_id_graph "A")) = [""])
  /\ (forall fuel endNodeId,
        runDijkstraAlgorithm fuel empty_id_graph "A" endNodeId = None).
Proof.
  set (s0 := initializeDijkstra empty_id_graph "A").
  set (s1 := dijkstraNextStep s0).
  assert (currentNode s1 = Some "") as C by reflexivity.
  assert (forall n, advance_n n s1 = s1) as Fix.
  { induction n as [|n IH]; [reflexivity|].
    change (advance_n (S n) s1) with (advance_n n (dijkstraNextStep s1)).
    rewrite (dijkstraNextStep_empty_id s1 C). exact IH. }
  split; [|split].
  - intros [|n]; [reflexivity|].
    change (advance_n (S n) s0) with (advance_n n s1). now rewrite Fix.
  - intros n. change (advance_n (S n) s0) with (advance_n n s1).
    now rewrite Fix.
  - intros fuel e. unfold runDijkstraAlgorithm. fold s0.
    destruct fuel as [|f]; [reflexivity|].
    change (run_loop (S f) s0 [s0]) with (run_loop f s1 ([s0] ++ [s1])).
    rewrite (run_loop_stuck f s1 ([s0] ++ [s1]) eq_refl
               (dijkstraNextStep_empty_id s1 C)).
    reflexivity.
Qed.

(* ================================================================= *)
(** ** What relaxation can write *)

#[local] Arguments relax : simpl never.

Section RelaxCases.
Variables (visited : list string) (u : string) (du : num).

Lemma relax_cases acc nb v :
  (map_get v (fst (relax visited u du acc nb)) = map_get v (fst acc)
   /\ map_get v (snd (relax visited u du acc nb)) = map_get v (snd acc))
  \/ (~ In v visited /\ v = fst nb
      /\ num_ltb (num_add du (snd nb)) Infinity = true
      /\ map_get v (fst (relax visited u du acc nb))
         = Some (num_add du (snd nb))
      /\ map_get v (snd (relax visited u du acc nb)) = Some (Some u)).
Proof.
  destruct (string_dec v (fst nb)) as [E|N];
    [|left; apply relax_get; auto].
  destruct nb as [n w]. simpl in E. subst n. unfold relax. simpl.
  destruct (set_has v visited) eqn:Hv; [auto|].
  destruct (num_ltb _ _) eqn:L; [|auto].
  right. simpl. rewrite !map_get_set_same.
  apply set_has_false in Hv. repeat split; auto.
  eapply num_ltb_inf_r; eauto.
Qed.

Lemma relax_fold_cases nbs acc v :
  (map_get v (fst (fold_left (relax visited u du) nbs acc))
   = map_get v (fst acc)
   /\ map_get v (snd (fold_left (relax visited u du) nbs acc))
      = map_get v (snd acc))
  \/ (~ In v visited
      /\ exists w, In (v, w) nbs
         /\ num_ltb (num_add du w) Infinity = true
         /\ map_get v (fst (fold_left (relax visited u du) nbs acc))
            = Some (num_add du w)
         /\ map_get v (snd (fold_left (relax visited u du) nbs acc))
            = Some (Some u)).
Proof.
  revert acc. induction nbs as [|nb r IH]; intros acc; simpl; [auto|].
  destruct (IH (relax visited u du acc nb))
    as [[A B]|(Nv & w & I & F & A & B)].
  - destruct (relax_cases acc nb v) as [[A' B']|(Nv & E & F & A' & B')].
    + left. split; congruence.
    + right. split; auto. exists (snd nb). split.
      * left. destruct nb; simpl in *; congruence.
      * repeat split; auto; congruence.
  - right. split; auto. exists w. repeat split; auto.
Qed.

(** When every connection to [v] carries the same weight [w], the whole
    scan treats [v] as a single relaxation does. *)
Lemma relax_entry_idem cand old :
  relax_entry u cand (relax_entry u cand old) = relax_entry u cand old.
Proof.
  unfold relax_entry. destruct (num_ltb cand (or_infinity (fst old))) eqn:L;
    simpl; [|now rewrite L].
  destruct (num_ltb cand (if num_truthy cand then cand else Infinity));
    reflexivity.
Qed.

Lemma relax_on_entry acc v w :
  ~ In v visited ->
  (map_get v (fst (relax visited u du acc (v, w))),
   map_get v (snd (relax visited u du acc (v, w))))
  = relax_entry u (num_add du w)
      (map_get v (fst acc), map_get v (snd acc)).
Proof.
  intros Nv. apply set_has_false in Nv. unfold relax, relax_entry.
  rewrite Nv. simpl. destruct (num_ltb _ _); auto.
  simpl. now rewrite !map_get_set_same.
Qed.

Lemma relax_fold_uniform nbs acc v w :
  ~ In v visited ->
  (forall w', In (v, w') nbs -> w' = w) ->
  In v (map fst nbs) ->
  (map_get v (fst (fold_left (relax visited u du) nbs acc)),
   map_get v (snd (fold_left (relax visited u du) nbs acc)))
  = relax_entry u (num_add du w)
      (map_get v (fst acc), map_get v (snd acc)).
Proof.
  intros Nv. revert acc.
  induction nbs as [|[n w0] r IH]; intros acc U I; simpl in *; [tauto|].
  destruct (in_dec string_dec v (map fst r)) as [Ir|Ir].
  - rewrite IH; auto.
    destruct (string_dec n v) as [->|Nn].
    + rewrite (U w0) by auto. rewrite relax_on_entry by assumption.
      apply relax_entry_idem.
    + destruct (relax_get visited u du acc (n, w0) v) as [A B];
        [right; simpl; congruence|].
      now rewrite A, B.
  - destruct I as [->|I]; [|contradiction].
    destruct (relax_fold_get visited u du r
                (relax visited u du acc (v, w0)) v) as [A B]; [auto|].
    rewrite A, B, (U w0) by auto. now apply relax_on_entry.
Qed.
End RelaxCases.

(* ================================================================= *)
(** ** Ranks in the visited list *)

Lemma rank_le k s : rank k s <= length s.
Proof.
  induction s as [|a r IH]; simpl; [lia|]. destruct (String.eqb a k); lia.
Qed.

Lemma rank_In k s : In k s <-> rank k s < length s.
Proof.
  induction s as [|a r IH]; simpl.
  - split; [tauto|lia].
  - str_cases a k.
    + split; [lia|auto].
    + rewrite IH. split; [intros [?|?]; [contradiction|lia] | right; lia].
Qed.

Lemma rank_app_in k s t : In k s -> rank k (s ++ t) = rank k s.
Proof.
  induction s as [|a r IH]; simpl; [tauto|].
  intros H. str_cases a k; auto.
  destruct H; [contradiction|]. f_equal. auto.
Qed.

Lemma rank_app_out k s t :
  ~ In k s -> rank k (s ++ t) = length s + rank k t.
Proof.
  induction s as [|a r IH]; simpl; auto.
  intros H. str_cases a k; [tauto|]. f_equal. apply IH. tauto.
Qed.

Lemma rank_set_add_in k u s :
  In k s -> rank k (set_add u s) = rank k s.
Proof.
  intros H. unfold set_add. destruct (set_has u s); auto.
  now apply rank_app_in.
Qed.

Lemma rank_set_add_ge k u s : rank k s <= rank k (set_add u s).
Proof.
  unfold set_add. destruct (set_has u s); auto.
  destruct (in_dec string_dec k s) as [H|H].
  - now rewrite rank_app_in.
  - rewrite rank_app_out by assumption.
    pose proof (rank_le k s). lia.
Qed.

Lemma rank_set_add_self u s : rank u (set_add u s) < length (set_add u s).
Proof. apply rank_In, set_add_In. auto. Qed.

Lemma rank_out k s : ~ In k s -> rank k s = length s.
Proof.
  intros H. pose proof (rank_le k s). rewrite rank_In in H. lia.
Qed.

Lemma init_prev_ranked g start : prev_ranked (initializeDijkstra g start).
Proof.
  rewrite initializeDijkstra_eq. intros v u H. simpl in H.
  now apply init_previous_null in H.
Qed.

Lemma step_prev_ranked s :
  prev_ranked s -> prev_ranked (dijkstraNextStep s).
Proof.
  intros P. destruct (active_or_idle s) as [[u A]|I]; [|now rewrite I].
  intros v p H. rewrite (next_visited s u A).
  rewrite (next_previous s u A) in H. unfold relax_all in H.
  match type of H with
  | map_get v (snd (fold_left (relax ?vis ?c ?d) ?nbs ?acc)) = _ =>
      destruct (relax_fold_cases vis c d nbs acc v)
        as [[_ B]|(Nv & w & _ & _ & _ & B)]
  end.
  - rewrite B in H. simpl in H. specialize (P v p H).
    assert (In p (visitedNodes s)) as Ip.
    { apply rank_In. pose proof (rank_le v (visitedNodes s)). lia. }
    rewrite rank_set_add_in by assumption.
    pose proof (rank_set_add_ge v u (visitedNodes s)). lia.
  - rewrite B in H. inversion H; subst p.
    rewrite (rank_out v _ Nv). apply rank_set_add_self.
Qed.

Lemma reachable_prev_ranked g start s :
  reachable g start s -> prev_ranked s.
Proof.
  induction 1; [apply init_prev_ranked | now apply step_prev_ranked].
Qed.

Lemma visited_length_bound g start n :
  length (visitedNodes (advance_n n (initializeDijkstra g start))) <= n.
Proof.
  induction n as [|n IH].
  - rewrite initializeDijkstra_eq. simpl. lia.
  - rewrite advance_n_S.
    destruct (active_or_idle (advance_n n (initializeDijkstra g start)))
      as [[u A]|I].
    + rewrite (next_visited _ u A).
      pose proof (set_add_length u
                    (visitedNodes (advance_n n (initializeDijkstra g start)))).
      lia.
    + rewrite I. lia.
Qed.

(** The backward walk ends: every hop lowers the rank. *)
Lemma walk_total visited ps :
  (forall v u, map_get v ps = Some (Some u) ->
               rank u visited < rank v visited) ->
  forall fuel current path,
    walk_measure visited current <= fuel ->
    exists p, walk fuel ps current path = Some p.
Proof.
  intros R. induction fuel as [|f IH]; intros current path L.
  - destruct current as [k|]; simpl in L; [lia|]. simpl. eauto.
  - destruct current as [k|]; [|simpl; eauto].
    simpl. destruct (str_truthy k); [|eauto].
    apply IH. destruct (map_get k ps) as [[p|]|] eqn:G; simpl; try lia.
    destruct (str_truthy p); simpl; [|lia].
    specialize (R k p G). simpl in L. lia.
Qed.

(* ================================================================= *)
(** ** Finite distances follow edges *)

Lemma contributes_joins e u v w : contributes e u v w -> joins e u v.
Proof. intros (_ & [[A B]|[A B]]); [left|right]; auto. Qed.

Section Connectivity.
Variables (g : Graph) (start : string).

Lemma init_conn_ok : conn_ok g start (initializeDijkstra g start).
Proof.
  rewrite initializeDijkstra_eq. unfold conn_ok. simpl. repeat split.
  - intros v z H.
    destruct (in_dec string_dec v (node_ids g)) as [I|I].
    + rewrite init_distances_get in H by assumption.
      str_cases v start; [subst; constructor | discriminate].
    + rewrite init_distances_get_out in H by assumption. discriminate.
  - intros v u H. now apply init_previous_null in H.
  - intros u H. inversion H. constructor.
Qed.

Lemma step_conn_ok s :
  edges (graph s) = edges g ->
  conn_ok g start s -> conn_ok g start (dijkstraNextStep s).
Proof.
  intros He C. destruct (active_or_idle s) as [[u A]|I]; [|now rewrite I].
  destruct C as (Cd & Cp & Cc).
  assert (connected g start u) as Cu by (apply Cc, A).
  assert (forall v w,
             In (v, w) (or_empty (map_get u (createAdjacencyList (graph s))))
             -> connected g start v) as Nb.
  { intros v w H. apply createAdjacencyList_In in H.
    destruct H as (e & I & Ce). rewrite He in I.
    eapply conn_step; eauto using contributes_joins. }
  assert (forall v z, map_get v (distances (dijkstraNextStep s))
                      = Some (Fin z) -> connected g start v) as Cd'.
  { intros v z H. rewrite (next_distances s u A) in H.
    unfold relax_all in H.
    match type of H with
    | map_get v (fst (fold_left (relax ?vis ?c ?d) ?nbs ?acc)) = _ =>
        destruct (relax_fold_cases vis c d nbs acc v)
          as [[B _]|(_ & w & I & _)]
    end.
    - rewrite B in H. eapply Cd; eauto.
    - eapply Nb; eauto. }
  repeat split; auto.
  - intros v p H. rewrite (next_previous s u A) in H.
    unfold relax_all in H.
    match type of H with
    | map_get v (snd (fold_left (relax ?vis ?c ?d) ?nbs ?acc)) = _ =>
        destruct (relax_fold_cases vis c d nbs acc v)
          as [[_ B]|(_ & w & I & _)]
    end.
    + rewrite B in H. eapply Cp; eauto.
    + eapply Nb; eauto.
  - intros n Cn.
    destruct (isDone (dijkstraNextStep s)) eqn:D.
    + rewrite (next_currentNode s u A), D in Cn. discriminate.
    + destruct (next_current_unvisited s u A D)
        as (n' & Cn' & _ & z & G & _).
      rewrite Cn in Cn'. inversion Cn'; subst n'. eapply Cd'; eauto.
Qed.

Lemma reachable_conn_ok s : reachable g start s -> conn_ok g start s.
Proof.
  induction 1 as [|s R IH]; [apply init_conn_ok|].
  apply step_conn_ok; auto. now apply (reachable_graph g start).
Qed.
End Connectivity.

(* ================================================================= *)
(** ** Positive weights *)

Section Positive.
Variables (g : Graph) (start : string).
Hypothesis Hpos : forall e, In e (edges g) -> (0 < weight e)%Z.

Lemma init_pos_ok : pos_ok start (initializeDijkstra g start).
Proof.
  rewrite initializeDijkstra_eq. unfold pos_ok. simpl. split; auto.
  intros v z H.
  destruct (in_dec string_dec v (node_ids g)) as [I|I].
  - rewrite init_distances_get in H by assumption.
    str_cases v start; inversion H. auto.
  - rewrite init_distances_get_out in H by assumption. discriminate.
Qed.

Lemma or_zero_nonneg s o :
  (forall z, o = Some (Fin z) -> (0 < z)%Z \/ (s = start /\ z = 0%Z)) ->
  forall z, or_zero o = Fin z -> (0 <= z)%Z.
Proof.
  intros H z E. destruct o as [[z'|]|]; simpl in E.
  - destruct (Z.eqb_spec z' 0); simpl in E; inversion E; subst; try lia.
    destruct (H z eq_refl) as [?|[_ ?]]; lia.
  - discriminate.
  - inversion E. lia.
Qed.

Lemma step_pos_ok s :
  edges (graph s) = edges g ->
  pos_ok start s -> pos_ok start (dijkstraNextStep s).
Proof.
  intros He P. destruct (active_or_idle s) as [[u A]|I]; [|now rewrite I].
  destruct P as (Pd & Pc). split.
  - intros v z H. rewrite (next_distances s u A) in H.
    unfold relax_all in H.
    match type of H with
    | map_get v (fst (fold_left (relax ?vis ?c ?d) ?nbs ?acc)) = _ =>
        destruct (relax_fold_cases vis c d nbs acc v)
          as [[B _]|(_ & w & I & _ & B & _)]
    end.
    + rewrite B in H. now apply Pd.
    + rewrite B in H. left.
      apply createAdjacencyList_In in I. destruct I as (e & I & W & _).
      rewrite He in I. apply Hpos in I. rewrite W in I.
      destruct (or_zero (map_get u (distances s))) as [zu|] eqn:Z;
        simpl in H; [|discriminate].
      inversion H; subst z.
      pose proof (or_zero_nonneg u _ (Pd u) zu Z). lia.
  - rewrite (next_visited s u A). right. apply set_add_In.
    destruct Pc as [Pc|Pc]; [|auto].
    destruct A as (_ & C & _). rewrite C in Pc. inversion Pc. auto.
Qed.

Lemma reachable_pos_ok s : reachable g start s -> pos_ok start s.
Proof.
  induction 1 as [|s R IH]; [apply init_pos_ok|].
  apply step_pos_ok; auto. now apply (reachable_graph g start).
Qed.
End Positive.

Lemma relaxation_on_other_node g start s u v e du dv :
  (forall e', In e' (edges g) -> (0 < weight e')%Z) ->
  reachable g start s ->
  active s u ->
  In e (edges g) -> joins e u v ->
  (forall e', In e' (edges g) -> joins e' u v -> weight e' = weight e) ->
  ~ In v (visitedNodes s) -> v <> u ->
  map_get u (distances s) = Some du ->
  map_get v (distances s) = Some dv ->
  (num_ltb (num_add du (weight e)) dv = true ->
   map_get v (distances (dijkstraNextStep s))
   = Some (num_add du (weight e))
   /\ map_get v (previous (dijkstraNextStep s)) = Some (Some u))
  /\ (num_ltb (num_add du (weight e)) dv = false ->
      map_get v (distances (dijkstraNextStep s)) = Some dv
      /\ map_get v (previous (dijkstraNextStep s))
         = map_get v (previous s)).
Proof.
  intros Hpos R A Ie J U Nv Nu Gu Gv.
  destruct (reachable_graph g start s R) as [He _].
  destruct (reachable_pos_ok g start Hpos s R) as [Pd Pc].
  assert (or_zero (map_get u (distances s)) = du) as Zu.
  { rewrite Gu. simpl. destruct du as [z|]; simpl; auto.
    destruct (Z.eqb_spec z 0); simpl; congruence. }
  assert (or_infinity (Some dv) = dv) as Zv.
  { simpl. destruct dv as [z|]; simpl; auto.
    destruct (Z.eqb_spec z 0); simpl; auto. subst z. exfalso.
    destruct (Pd v 0%Z Gv) as [?|[-> _]]; [lia|].
    destruct Pc as [Pc|Pc]; [|contradiction].
    destruct A as (_ & C & _). rewrite C in Pc. inversion Pc. congruence. }
  assert (~ In v (set_add u (visitedNodes s))) as Nv'.
  { rewrite set_add_In. tauto. }
  pose proof (relax_fold_uniform (set_add u (visitedNodes s)) u du
                (or_empty (map_get u (createAdjacencyList (graph s))))
                (distances s, previous s) v (weight e) Nv') as F.
  rewrite (next_distances s u A), (next_previous s u A).
  unfold relax_all. rewrite Zu.
  assert (contributes e u v (weight e)) as Ce.
  { split; auto. destruct J as [[? ?]|[? ?]]; auto. }
  rewrite <- He in Ie.
  lapply F; [clear F; intros F|].
  - lapply F; [clear F; intros F|].
    + simpl in F. unfold relax_entry in F. simpl fst in F. rewrite Gv in F.
      rewrite Zv in F. split; intros L; rewrite L in F;
        inversion F as [[F1 F2]]; rewrite ?F1, ?F2; auto.
    + apply in_map_iff. exists (v, weight e). split; auto.
      apply createAdjacencyList_In. eauto.
  - intros w' H. apply createAdjacencyList_In in H.
    destruct H as (e' & I' & W' & J'). rewrite He in I'.
    rewrite <- W'. apply U; auto.
    destruct J' as [[? ?]|[? ?]]; [left|right]; auto.
Qed.


(** C5: on a graph with positive weights, take a reachable step that
    [dijkstraNextStep] processes with current node [u], and a node [v] not
    yet visited, joined to [u] by an edge [e] in either direction, every
    edge between the two carrying the weight of [e].  With [du] and [dv]
    the entries of [u] and [v] in [distances], after the call [distances]
    maps [v] to [du + weight e] and [previous] maps [v] to [u] exactly when
    [du + weight e < dv]; otherwise, equality included, both entries of [v]
    are as before. *)
Theorem relaxation_strict_improvement g start s u v e du dv :
  (forall e', In e' (edges g) -> (0 < weight e')%Z) ->
  reachable g start s ->
  active s u ->
  In e (edges g) -> joins e u v ->
  (forall e', In e' (edges g) -> joins e' u v -> weight e' = weight e) ->
  ~ In v (visitedNodes s) ->
  map_get u (distances s) = Some du ->
  map_get v (distances s) = Some dv ->
  (num_ltb (num_add du (weight e)) dv = true ->
   map_get v (distances (dijkstraNextStep s))
   = Some (num_add du (weight e))
   /\ map_get v (previous (dijkstraNextStep s)) = Some (Some u))
  /\ (num_ltb (num_add du (weight e)) dv = false ->
      map_get v (distances (dijkstraNextStep s)) = Some dv
      /\ map_get v (previous (dijkstraNextStep s))
         = map_get v (previous s)).
Proof.
  intros Hpos R A Ie J U Nv Gu Gv.
  destruct (string_dec v u) as [->|Nu];
    [|now apply (relaxation_on_other_node g start s u v e du dv)].
  assert (du = dv) as <- by congruence.
  pose proof (Hpos e Ie) as W.
  split.
  - intros L. exfalso. destruct du as [z|]; simpl in L; [|discriminate].
    apply Z.ltb_lt in L. lia.
  - intros _. rewrite (next_distances s u A), (next_previous s u A).
    unfold relax_all.
    match goal with
    | |- context [fold_left (relax ?vis ?c ?d) ?nbs ?acc] =>
        destruct (relax_fold_get vis c d nbs acc u) as [B C]
    end.
    + left. apply set_add_In. auto.
    + rewrite B, C. simpl. auto.
Qed.

Lemma relaxation_strict_improvement_witness :
  num_ltb (num_add (Fin 0) 4) Infinity = true
  /\ map_get "B"
       (distances (dijkstraNextStep (initializeDijkstra generateDemoGraph "A")))
     = Some (Fin 4)
  /\ map_get "B"
       (previous (dijkstraNextStep (initializeDijkstra generateDemoGraph "A")))
     = Some (Some "A").
Proof.
  split; [reflexivity|].
  assert (forall e', In e' (edges generateDemoGraph) -> (0 < weight e')%Z)
    as Hpos.
  { intros e' H. simpl in H.
    repeat (destruct H as [<-|H]; [simpl; lia|]). destruct H. }
  assert (forall e', In e' (edges generateDemoGraph) ->
                     joins e' "A" "B" ->
                     weight e' = weight (demo_edge "A-B" "A" "B" 4)) as Hu.
  { intros e' H J. simpl in H.
    repeat (destruct H as [<-|H];
            [try reflexivity;
             destruct J as [[J1 J2]|[J1 J2]]; simpl in J1, J2; discriminate|]).
    destruct H. }
  assert (active (initializeDijkstra generateDemoGraph "A") "A") as Ha.
  { repeat split; discriminate. }
  assert (joins (demo_edge "A-B" "A" "B" 4) "A" "B") as Hj.
  { left. split; reflexivity. }
  assert (~ In "B" (visitedNodes (initializeDijkstra generateDemoGraph "A")))
    as Hv by (simpl; tauto).
  destruct (relaxation_strict_improvement generateDemoGraph "A"
              (initializeDijkstra generateDemoGraph "A") "A" "B"
              (demo_edge "A-B" "A" "B" 4) (Fin 0) Infinity
              Hpos (reach_init _ _) Ha (or_introl eq_refl) Hj Hu Hv
              eq_refl eq_refl) as [T _].
  exact (T eq_refl).
Defined.

(* ================================================================= *)
(** ** The first key of [previous] *)

Lemma map_set_hd {V} k (v : V) m :
  m <> [] -> hd_error (map_keys (map_set k v m)) = hd_error (map_keys m).
Proof.
  destruct m as [|[k' v'] r]; [congruence|]. intros _. simpl.
  destruct (String.eqb k' k); reflexivity.
Qed.

Lemma map_set_nonempty {V} k (v : V) m : map_set k v m <> [].
Proof.
  destruct m as [|[k' v'] r]; simpl; [discriminate|].
  destruct (String.eqb k' k); discriminate.
Qed.

Lemma init_previous_hd g :
  hd_error (map_keys (init_previous g)) = hd_error (node_ids g)
  /\ (nodes g <> [] -> init_previous g <> []).
Proof.
  unfold init_previous, node_ids. destruct (nodes g) as [|n r]; simpl.
  - split; [reflexivity | congruence].
  - assert (forall (l : list Node) (m : list (string * option string)),
               m <> [] ->
               hd_error (map_keys
                           (fold_left (fun ps node => map_set (id node) None ps)
                              l m))
               = hd_error (map_keys m)
               /\ fold_left (fun ps node => map_set (id node) None ps) l m
                  <> []) as H.
    { induction l as [|a l IH]; intros m Hm; simpl; [auto|].
      destruct (IH (map_set (id a) None m) (map_set_nonempty _ _ _))
        as [A B].
      split; auto. rewrite A. now apply map_set_hd. }
    destruct (H r [(id n, None)]) as [A B]; [discriminate|].
    split; auto.
Qed.

Lemma relax_fold_hd visited u du nbs acc :
  snd acc <> [] ->
  hd_error (map_keys (snd (fold_left (relax visited u du) nbs acc)))
  = hd_error (map_keys (snd acc))
  /\ snd (fold_left (relax visited u du) nbs acc) <> [].
Proof.
  revert acc. induction nbs as [|[n w] r IH]; intros acc H; simpl; [auto|].
  assert (hd_error (map_keys (snd (relax visited u du acc (n, w))))
          = hd_error (map_keys (snd acc))
          /\ snd (relax visited u du acc (n, w)) <> []) as [A B].
  { unfold relax. destruct (set_has n visited); [auto|].
    destruct (num_ltb _ _); [|auto]. simpl.
    split; [now apply map_set_hd | apply map_set_nonempty]. }
  destruct (IH _ B) as [C D]. split; auto. congruence.
Qed.

Lemma reachable_first_key g start s :
  In start (node_ids g) ->
  reachable g start s ->
  hd_error (map_keys (previous s)) = hd_error (node_ids g)
  /\ previous s <> [].
Proof.
  intros Hs. assert (nodes g <> []) as Hn.
  { unfold node_ids in Hs. destruct (nodes g); [destruct Hs | discriminate]. }
  induction 1 as [|s R [IH1 IH2]].
  - rewrite initializeDijkstra_eq. simpl.
    destruct (init_previous_hd g) as [A B]. auto.
  - destruct (active_or_idle s) as [[u A]|I]; [|now rewrite I].
    rewrite (next_previous s u A). unfold relax_all.
    match goal with
    | |- context [fold_left (relax ?vis ?c ?d) ?nbs ?acc] =>
        destruct (relax_fold_hd vis c d nbs acc IH2) as [B C]
    end.
    split; auto. simpl in B. congruence.
Qed.

(* ================================================================= *)
(** ** [constructPath] *)

Lemma constructPath_total s fuel endNodeId :
  prev_ranked s -> length (visitedNodes s) < fuel ->
  exists sp, constructPath fuel endNodeId (previous s) = Some sp.
Proof.
  intros P L. unfold constructPath.
  destruct (_ || _); [eauto|].
  destruct (walk_total (visitedNodes s) (previous s) P fuel
              (Some endNodeId) []) as [p W].
  - simpl. pose proof (rank_le endNodeId (visitedNodes s)). lia.
  - rewrite W. simpl. eauto.
Qed.

Lemma constructPath_null fuel endNodeId ps :
  (forall u, map_get endNodeId ps <> Some (Some u)) ->
  hd_error (map_keys ps) <> Some endNodeId ->
  constructPath fuel endNodeId ps = Some None.
Proof.
  intros N H. unfold constructPath, map_has.
  destruct (map_get endNodeId ps) as [[u|]|] eqn:G.
  - now destruct (N u).
  - simpl. destruct (map_keys ps) as [|k r]; simpl in *; [reflexivity|].
    str_cases endNodeId k; [congruence | reflexivity].
  - reflexivity.
Qed.

Lemma run_loop_last fuel s pre c ss :
  run_loop fuel s (pre ++ [s]) = Some (c, ss) ->
  exists pre', ss = pre' ++ [c].
Proof.
  revert s pre. induction fuel as [|f IH]; intros s pre H; simpl in H.
  - destruct (isDone s); inversion H; subst. eauto.
  - destruct (isDone s).
    + inversion H; subst. eauto.
    + apply (IH _ (pre ++ [s])) in H. exact H.
Qed.

Lemma set_last_path_app pre l g p :
  set_last_path (pre ++ [l]) g p
  = pre ++ [mkStep (distances l) (previous l) (currentNode l)
              (visitedNodes l) (unvisitedNodes l) g (isDone l) (Some p)].
Proof.
  unfold set_last_path. rewrite rev_app_distr. simpl.
  now rewrite rev_involutive.
Qed.

Lemma reachable_distance_keys g start s k :
  reachable g start s -> In k (node_ids g) ->
  In k (map_keys (distances s)).
Proof.
  intros R I. induction R as [|s R IH].
  - rewrite initializeDijkstra_eq. simpl. now apply init_distances_keys.
  - destruct (active_or_idle s) as [[u A]|Id]; [|now rewrite Id].
    rewrite (next_distances s u A). unfold relax_all.
    now apply relax_fold_keys.
Qed.

(* ================================================================= *)
(** ** The result of the full run *)

Section RunResult.
Variables (g : Graph) (start endNodeId : string) (fuel : nat).
Hypothesis Hstart : In start (node_ids g).
Hypothesis Hids : forall k, In k (node_ids g) -> k <> "".
Hypothesis Hfuel : length (nodes g) < fuel.

Let terminal := advance_n (length (nodes g)) (initializeDijkstra g start).

Lemma run_returns :
  exists r sp pre,
    runDijkstraAlgorithm fuel g start endNodeId = Some r
    /\ constructPath fuel endNodeId (previous terminal) = Some sp
    /\ res_shortestPath r = sp
    /\ success r = match sp with Some _ => true | None => false end
    /\ shortestDistance r
       = or_null (map_get endNodeId (distances terminal))
    /\ exists l, steps r = pre ++ [l] /\ distances l = distances terminal.
Proof.
  pose proof (done_after_all_nodes g start Hstart Hids) as D.
  fold terminal in D.
  destruct (run_loop_done fuel (length (nodes g))
              (initializeDijkstra g start)
              [initializeDijkstra g start] D) as [ss L]; [lia|].
  fold terminal in L.
  destruct (run_loop_last fuel _ [] _ _ L) as [pre Ess].
  assert (reachable g start terminal) as R
      by apply reachable_advance_n.
  destruct (constructPath_total terminal fuel endNodeId
              (reachable_prev_ranked g start _ R)) as [sp C].
  { pose proof (visited_length_bound g start (length (nodes g))).
    fold terminal in H. lia. }
  unfold runDijkstraAlgorithm. rewrite L, C.
  destruct sp as [p|].
  - destruct (Nat.ltb 0 (length p)) eqn:Lp.
    + eexists. exists (Some p), pre. split; [reflexivity|]. simpl.
      repeat split; auto. rewrite Ess, set_last_path_app. eauto.
    + eexists. exists (Some p), pre. split; [reflexivity|]. simpl.
      repeat split; auto. rewrite Ess. eauto.
  - eexists. exists None, pre. split; [reflexivity|]. simpl.
    repeat split; auto. rewrite Ess. eauto.
Qed.
End RunResult.

(** C3 as the code has it: for a graph whose node ids are non-empty, a
    start id that names a node and fuel above the number of nodes, the run
    returns a Result whose last step carries the terminal distances, and
    [shortestDistance] is the terminal entry of the end id whenever that
    entry is not [0], [Infinity] included, and [null] when there is no
    entry.  When no path joins start and end and the end id is not the
    first node of the graph, [success] is false and [shortestPath] is
    [null]; [shortestDistance] is then never finite, and it is [Infinity]
    when the end id names a node. *)
Theorem run_result_reports_terminal_distance g start endNodeId fuel :
  In start (node_ids g) ->
  (forall k, In k (node_ids g) -> k <> "") ->
  length (nodes g) < fuel ->
  exists r pre l,
    runDijkstraAlgorithm fuel g start endNodeId = Some r
    /\ steps r = pre ++ [l]
    /\ isDone l = true
    /\ (forall d, map_get endNodeId (distances l) = Some d ->
                  d <> Fin 0 -> shortestDistance r = Some d)
    /\ (map_get endNodeId (distances l) = None ->
        shortestDistance r = None)
    /\ (~ connected g start endNodeId ->
        hd_error (node_ids g) <> Some endNodeId ->
        success r = false
        /\ res_shortestPath r = None
        /\ (forall z, shortestDistance r <> Some (Fin z))
        /\ (In endNodeId (node_ids g) ->
            shortestDistance r = Some Infinity)).
Proof.
  intros Hs Hi Hf.
  destruct (run_returns g start endNodeId fuel Hs Hi Hf)
    as (r & sp & pre & Hr & Hc & Hp & Hsucc & Hd & l & Hl & Hdl).
  set (T := advance_n (length (nodes g)) (initializeDijkstra g start)) in *.
  assert (reachable g start T) as R by apply reachable_advance_n.
  exists r, pre, l. split; [exact Hr|]. split; [exact Hl|].
  assert (isDone l = true) as Dl.
  { pose proof (done_after_all_nodes g start Hs Hi) as D. fold T in D.
    unfold runDijkstraAlgorithm in Hr.
    destruct (run_loop_done fuel (length (nodes g))
                (initializeDijkstra g start)
                [initializeDijkstra g start] D) as [ss L]; [lia|].
    fold T in L. rewrite L, Hc in Hr.
    destruct (run_loop_last fuel _ [] _ _ L) as [pre' Ess].
    inversion Hr as [Er]. rewrite <- Er in Hl. simpl in Hl.
    assert (forall a b (c d : DijkstraStep),
               a ++ [c] = b ++ [d] -> c = d) as Last.
    { intros a b c d E. apply app_inj_tail in E. tauto. }
    destruct sp as [p|].
    - destruct (Nat.ltb 0 (length p)).
      + rewrite Ess, set_last_path_app in Hl. apply Last in Hl.
        rewrite <- Hl. exact D.
      + rewrite Ess in Hl. apply Last in Hl. now rewrite <- Hl.
    - rewrite Ess in Hl. apply Last in Hl. now rewrite <- Hl. }
  split; [exact Dl|]. rewrite Hdl, Hd.
  split; [|split].
  - intros d G N. rewrite G. simpl. destruct d as [z|]; simpl; auto.
    destruct (Z.eqb_spec z 0); simpl; congruence.
  - intros G. now rewrite G.
  - intros Nc Nf.
    destruct (reachable_conn_ok g start T R) as (Cd & Cp & _).
    destruct (reachable_first_key g start T Hs R) as [Fk _].
    assert (constructPath fuel endNodeId (previous T) = Some None) as Cn.
    { apply constructPath_null.
      - intros u G. apply Nc. eapply Cp; eauto.
      - now rewrite Fk. }
    assert (sp = None) as Esp by congruence.
    rewrite Hsucc, Hp, Esp. repeat split; auto.
    + intros z G.
      destruct (map_get endNodeId (distances T)) as [[z'|]|] eqn:E;
        simpl in G; try discriminate.
      apply Nc. eapply Cd; eauto.
    + intros I. pose proof (reachable_distance_keys g start T _ R I) as K.
      apply map_get_in_keys in K.
      destruct (map_get endNodeId (distances T)) as [[z'|]|] eqn:E.
      * exfalso. apply Nc. eapply Cd; eauto.
      * reflexivity.
      * congruence.
Qed.

Lemma isolated_graph_reach v :
  connected isolated_graph "A" v -> v = "A" \/ v = "B".
Proof.
  induction 1 as [|v w e C IH I J]; [auto|].
  simpl in I. destruct I as [<-|[]].
  destruct J as [[J1 J2]|[J1 J2]]; simpl in *; subst; auto.
Qed.

Lemma isolated_graph_C_unreachable : ~ connected isolated_graph "A" "C".
Proof.
  intros H. apply isolated_graph_reach in H.
  destruct H as [H|H]; discriminate.
Qed.

Lemma run_result_reports_terminal_distance_witness :
  exists r pre l,
    runDijkstraAlgorithm 4 isolated_graph "A" "C" = Some r
    /\ steps r = pre ++ [l]
    /\ isDone l = true
    /\ (forall d, map_get "C" (distances l) = Some d ->
                  d <> Fin 0 -> shortestDistance r = Some d)
    /\ (map_get "C" (distances l) = None -> shortestDistance r = None)
    /\ (~ connected isolated_graph "A" "C" ->
        hd_error (node_ids isolated_graph) <> Some "C" ->
        success r = false
        /\ res_shortestPath r = None
        /\ (forall z, shortestDistance r <> Some (Fin z))
        /\ (In "C" (node_ids isolated_graph) ->
            shortestDistance r = Some Infinity)).
Proof.
  apply (run_result_reports_terminal_distance isolated_graph "A" "C" 4).
  - simpl. auto.
  - intros k H. simpl in H.
    repeat (destruct H as [<-|H]; [discriminate|]). destruct H.
  - simpl. lia.
Defined.

(** C3 as stated fails: the isolated node ["C"] cannot be reached from
    ["A"], and the Result carries [Infinity], not [null], as
    [shortestDistance]. *)
Lemma unreachable_end_distance_is_infinity :
  ~ connected isolated_graph "A" "C"
  /\ option_map outcome (runDijkstraAlgorithm 4 isolated_graph "A" "C")
     = Some (false, None, Some Infinity)
  /\ option_map shortestDistance
       (runDijkstraAlgorithm 4 isolated_graph "A" "C")
     <> Some None.
Proof.
  split; [exact isolated_graph_C_unreachable|].
  split; [reflexivity | discriminate].
Qed.

(** The test of [constructPath] against the first key of [previous] also
    lets an unreachable first node through: from ["A"] to the isolated
    ["X"] the Result reports success with the path [["X"]]. *)
Lemma unreachable_first_node_reported :
  option_map outcome (runDijkstraAlgorithm 4 isolated_first_graph "A" "X")
  = Some (true, Some ["X"], Some Infinity).
Proof. reflexivity. Qed.

(* ================================================================= *)
(** ** More fuel, same result *)

Lemma walk_more fuel fuel' ps current path p :
  walk fuel ps current path = Some p -> fuel <= fuel' ->
  walk fuel' ps current path = Some p.
Proof.
  revert fuel' current path.
  induction fuel as [|f IH]; intros fuel' current path H L.
  - simpl in H. destruct (ostr_truthy current) eqn:T; [discriminate|].
    destruct fuel'; simpl; now rewrite T.
  - simpl in H. destruct (ostr_truthy current) eqn:T.
    + destruct current as [c|]; [|discriminate].
      destruct fuel' as [|f']; [lia|]. simpl in T |- *. rewrite T.
      apply IH; auto. lia.
    + destruct fuel'; simpl; now rewrite T.
Qed.

Lemma constructPath_more fuel fuel' e ps sp :
  constructPath fuel e ps = Some sp -> fuel <= fuel' ->
  constructPath fuel' e ps = Some sp.
Proof.
  unfold constructPath. destruct (_ || _); auto.
  destruct (walk fuel ps (Some e) []) as [p|] eqn:W; [|discriminate].
  intros H L. now rewrite (walk_more _ _ _ _ _ _ W L).
Qed.

Lemma runDijkstraAlgorithm_more fuel fuel' g start e r :
  runDijkstraAlgorithm fuel g start e = Some r -> fuel <= fuel' ->
  runDijkstraAlgorithm fuel' g start e = Some r.
Proof.
  unfold runDijkstraAlgorithm. intros H L.
  destruct (run_loop fuel _ _) as [[c ss]|] eqn:E; [|discriminate].
  rewrite (run_loop_more _ _ _ _ _ E L).
  destruct (constructPath fuel e (previous c)) as [sp|] eqn:C;
    [|discriminate].
  now rewrite (constructPath_more _ _ _ _ _ C L).
Qed.

Lemma runDijkstraAlgorithm_fuel_irrelevant f1 f2 g start e r1 r2 :
  runDijkstraAlgorithm f1 g start e = Some r1 ->
  runDijkstraAlgorithm f2 g start e = Some r2 ->
  r1 = r2.
Proof.
  intros H1 H2.
  apply (runDijkstraAlgorithm_more _ (Nat.max f1 f2)) in H1; [|lia].
  apply (runDijkstraAlgorithm_more _ (Nat.max f1 f2)) in H2; [|lia].
  congruence.
Qed.

(* ================================================================= *)
(** ** The demo graph *)

Lemma demo_outcome_A_to_E :
  option_map outcome (runDijkstraAlgorithm 5 generateDemoGraph "A" "E")
  = Some (true, Some ["A"; "D"; "C"; "E"], Some (Fin 10)).
Proof. reflexivity. Qed.

(** C1 as the code has it: on the demo graph from ["A"] to ["E"], any
    fuel of at least 5 gives a successful Result with path A, D, C, E and
    distance 3 + 1 + 6 = 10. *)
Theorem demo_run_A_to_E fuel :
  5 <= fuel ->
  exists r,
    runDijkstraAlgorithm fuel generateDemoGraph "A" "E" = Some r
    /\ success r = true
    /\ res_shortestPath r = Some ["A"; "D"; "C"; "E"]
    /\ shortestDistance r = Some (Fin 10).
Proof.
  intros L. pose proof demo_outcome_A_to_E as O.
  destruct (runDijkstraAlgorithm 5 generateDemoGraph "A" "E") as [r|] eqn:E;
    [|discriminate].
  exists r. split.
  - now apply (runDijkstraAlgorithm_more 5).
  - unfold outcome in O. simpl in O. inversion O. auto.
Qed.

Lemma demo_run_A_to_E_witness :
  exists r,
    runDijkstraAlgorithm 7 generateDemoGraph "A" "E" = Some r
    /\ success r = true
    /\ res_shortestPath r = Some ["A"; "D"; "C"; "E"]
    /\ shortestDistance r = Some (Fin 10).
Proof.
  apply (demo_run_A_to_E 7). lia.
Defined.

(** C1 as stated fails: no fuel makes the run from ["A"] to ["E"] report
    the distance 8. *)
Lemma demo_distance_is_not_8 :
  ~ (exists fuel r,
        runDijkstraAlgorithm fuel generateDemoGraph "A" "E" = Some r
        /\ shortestDistance r = Some (Fin 8)).
Proof.
  intros (fuel & r & H & D). pose proof demo_outcome_A_to_E as O.
  destruct (runDijkstraAlgorithm 5 generateDemoGraph "A" "E") as [r'|] eqn:E;
    [|discriminate].
  rewrite (runDijkstraAlgorithm_fuel_irrelevant _ _ _ _ _ _ _ H E) in D.
  unfold outcome in O. simpl in O. inversion O. congruence.
Qed.

(** C2 fails on the code.  From ["B"] to ["B"] on the demo graph
    [constructPath] compares the end id with the first key of [previous],
    which is ["A"] and not the start id, and returns [null]; and
    [distances.get(endNodeId) || null] turns the distance [0] into [null].
    From ["A"] to ["A"] the path is [["A"]], the distance again [null]. *)
Theorem same_start_and_end_on_demo :
  option_map outcome (runDijkstraAlgorithm 5 generateDemoGraph "B" "B")
  = Some (false, None, None)
  /\ option_map outcome (runDijkstraAlgorithm 5 generateDemoGraph "A" "A")
     = Some (true, Some ["A"], None).
Proof. split; reflexivity. Qed.

(* ================================================================= *)
(** ** The initial step *)

Lemma init_nodes_nth g start i n :
  nth_error (nodes g) i = Some n ->
  nth_error (nodes (graph (initializeDijkstra g start))) i
  = Some (with_status n (Some (init_status start n))).
Proof.
  intros H. rewrite initializeDijkstra_eq. simpl.
  rewrite nth_error_map, H. reflexivity.
Qed.

(** C4 as the code has it: for a start id that names a node,
    [initializeDijkstra] gives the start node the distance [0] and every
    other node [Infinity], no predecessor to any node, all node ids and
    nothing else as [unvisitedNodes], nothing visited, the start id as
    [currentNode], [isDone] false and no path.  The graph copy keeps the
    edges, and node by node the id, position and label; the status is
    [start] for the start node, [end] for another node that had [end], and
    [default] for every other node, whatever its status was. *)
Theorem initializeDijkstra_spec g start :
  In start (node_ids g) ->
  let s := initializeDijkstra g start in
  map_get start (distances s) = Some (Fin 0)
  /\ (forall v, In v (node_ids g) -> v <> start ->
                map_get v (distances s) = Some Infinity)
  /\ (forall v, In v (node_ids g) -> map_get v (previous s) = Some None)
  /\ (forall v, In v (map_keys (distances s)) <-> In v (node_ids g))
  /\ (forall v, In v (map_keys (previous s)) <-> In v (node_ids g))
  /\ (forall v, In v (unvisitedNodes s) <-> In v (node_ids g))
  /\ NoDup (unvisitedNodes s)
  /\ visitedNodes s = []
  /\ currentNode s = Some start
  /\ isDone s = false
  /\ shortestPath s = None
  /\ edges (graph s) = edges g
  /\ length (nodes (graph s)) = length (nodes g)
  /\ (forall i n, nth_error (nodes g) i = Some n ->
        exists n', nth_error (nodes (graph s)) i = Some n'
          /\ id n' = id n /\ x n' = x n /\ y n' = y n /\ label n' = label n
          /\ (id n = start -> status n' = Some st_start)
          /\ (id n <> start -> status n = Some st_end ->
              status n' = Some st_end)
          /\ (id n <> start -> status n <> Some st_end ->
              status n' = Some st_default)).
Proof.
  intros Hs s. subst s.
  repeat match goal with |- _ /\ _ => split end.
  - rewrite initializeDijkstra_eq. simpl.
    rewrite init_distances_get by assumption. now rewrite String.eqb_refl.
  - intros v I N. rewrite initializeDijkstra_eq. simpl.
    rewrite init_distances_get by assumption.
    apply String.eqb_neq in N. now rewrite N.
  - intros v I. rewrite initializeDijkstra_eq. simpl.
    now apply init_previous_get.
  - intros v. rewrite initializeDijkstra_eq. apply init_distances_keys.
  - intros v. rewrite initializeDijkstra_eq. apply init_previous_keys.
  - intros v. rewrite initializeDijkstra_eq. apply init_unvisited_In.
  - rewrite initializeDijkstra_eq. apply init_unvisited_NoDup.
  - now rewrite initializeDijkstra_eq.
  - now rewrite initializeDijkstra_eq.
  - now rewrite initializeDijkstra_eq.
  - now rewrite initializeDijkstra_eq.
  - now rewrite initializeDijkstra_eq.
  - rewrite initializeDijkstra_eq. simpl. apply length_map.
  - intros i n H. eexists. split; [exact (init_nodes_nth g start i n H)|].
    simpl. unfold init_status. repeat split; auto.
    + intros E. apply String.eqb_eq in E. now rewrite E.
    + intros N E. apply String.eqb_neq in N. now rewrite N, E.
    + intros N E. apply String.eqb_neq in N. rewrite N.
      destruct (status n) as [[]|]; simpl; auto. congruence.
Qed.

Lemma initializeDijkstra_spec_witness :
  let s := initializeDijkstra stale_start_graph "A" in
  map_get "A" (distances s) = Some (Fin 0)
  /\ (forall v, In v (node_ids stale_start_graph) -> v <> "A" ->
                map_get v (distances s) = Some Infinity)
  /\ (forall v, In v (node_ids stale_start_graph) ->
                map_get v (previous s) = Some None)
  /\ (forall v, In v (map_keys (distances s))
                <-> In v (node_ids stale_start_graph))
  /\ (forall v, In v (map_keys (previous s))
                <-> In v (node_ids stale_start_graph))
  /\ (forall v, In v (unvisitedNodes s) <-> In v (node_ids stale_start_graph))
  /\ NoDup (unvisitedNodes s)
  /\ visitedNodes s = []
  /\ currentNode s = Some "A"
  /\ isDone s = false
  /\ shortestPath s = None
  /\ edges (graph s) = edges stale_start_graph
  /\ length (nodes (graph s)) = length (nodes stale_start_graph)
  /\ (forall i n, nth_error (nodes stale_start_graph) i = Some n ->
        exists n', nth_error (nodes (graph s)) i = Some n'
          /\ id n' = id n /\ x n' = x n /\ y n' = y n /\ label n' = label n
          /\ (id n = "A" -> status n' = Some st_start)
          /\ (id n <> "A" -> status n = Some st_end ->
              status n' = Some st_end)
          /\ (id n <> "A" -> status n <> Some st_end ->
              status n' = Some st_default)).
Proof.
  apply (initializeDijkstra_spec stale_start_graph "A").
  simpl. auto.
Defined.

(** C4 as stated fails: [resetGraphStatus] leaves [stale_start_graph] as
    it is, and [initializeDijkstra] from ["A"] does not leave the status
    of ["B"] unchanged: it was [start] and becomes [default]. *)
Lemma init_resets_other_statuses :
  resetGraphStatus stale_start_graph = stale_start_graph
  /\ option_map status (nth_error (nodes stale_start_graph) 1)
     = Some (Some st_start)
  /\ option_map status
       (nth_error
          (nodes (graph (initializeDijkstra stale_start_graph "A"))) 1)
     = Some (Some st_default)
  /\ ~ (forall i,
          option_map status
            (nth_error
               (nodes (graph (initializeDijkstra stale_start_graph "A"))) i)
          = option_map status (nth_error (nodes stale_start_graph) i)
          \/ option_map id (nth_error (nodes stale_start_graph) i)
             = Some "A").
Proof.
  repeat split; try reflexivity.
  intros H. destruct (H 1) as [E|E]; discriminate.
Qed.

(* ================================================================= *)
(** ** The order on numbers *)

Lemma num_leb_refl a : num_leb a a = true.
Proof. destruct a; unfold num_leb; simpl; auto. now rewrite Z.ltb_irrefl. Qed.

Lemma num_leb_trans a b c :
  num_leb a b = true -> num_leb b c = true -> num_leb a c = true.
Proof.
  unfold num_leb. destruct a, b, c; simpl; auto; try discriminate.
  rewrite !negb_true_iff, !Z.ltb_ge. lia.
Qed.

Lemma num_ltb_leb a b : num_ltb a b = true -> num_leb a b = true.
Proof.
  unfold num_leb. destruct a, b; simpl; auto; try discriminate.
  rewrite negb_true_iff, Z.ltb_lt, Z.ltb_ge. lia.
Qed.

Lemma num_leb_fin a b : num_leb (Fin a) (Fin b) = true <-> (a <= b)%Z.
Proof. unfold num_leb. simpl. rewrite negb_true_iff, Z.ltb_ge. tauto. Qed.

Lemma num_leb_inf_l b : num_leb Infinity b = true -> b = Infinity.
Proof. destruct b; unfold num_leb; simpl; [discriminate|auto]. Qed.

Lemma num_leb_inf_r a : num_leb a Infinity = true.
Proof. destruct a; reflexivity. Qed.

Lemma num_leb_fin_l a z :
  num_leb a (Fin z) = true -> exists y, a = Fin y /\ (y <= z)%Z.
Proof.
  destruct a as [y|]; [|discriminate]. rewrite num_leb_fin. eauto.
Qed.

Lemma or_infinity_truthy n :
  n <> Fin 0 -> or_infinity (Some n) = n.
Proof.
  intros H. destruct n as [z|]; simpl; auto.
  destruct (Z.eqb_spec z 0); simpl; congruence.
Qed.

(* ================================================================= *)
(** ** Relaxation from a finite distance along positive weights *)

Section RelaxPositive.
Variables (visited : list string) (u : string) (zu : Z).
Hypothesis Hzu : (0 <= zu)%Z.

Lemma relax_change acc nb v :
  (0 < snd nb)%Z ->
  (map_get v (fst (relax visited u (Fin zu) acc nb)) = map_get v (fst acc)
   /\ map_get v (snd (relax visited u (Fin zu) acc nb))
      = map_get v (snd acc))
  \/ (~ In v visited /\ v = fst nb
      /\ map_get v (fst (relax visited u (Fin zu) acc nb))
         = Some (Fin (zu + snd nb))
      /\ map_get v (snd (relax visited u (Fin zu) acc nb)) = Some (Some u)
      /\ num_ltb (Fin (zu + snd nb)) (or_infinity (map_get v (fst acc)))
         = true).
Proof.
  intros W. destruct (string_dec v (fst nb)) as [E|N];
    [|left; apply relax_get; auto].
  destruct nb as [n w]. simpl in E, W. subst n. unfold relax.
  cbn [fst snd num_add].
  destruct (set_has v visited) eqn:Hv; [auto|].
  destruct (num_ltb (Fin (zu + w)) (or_infinity (map_get v (fst acc))))
    eqn:L; [|auto].
  right. cbn [fst snd]. rewrite !map_get_set_same.
  apply set_has_false in Hv. repeat split; auto.
Qed.

Lemma relax_fold_change nbs acc v :
  (forall n w, In (n, w) nbs -> (0 < w)%Z) ->
  (map_get v (fst (fold_left (relax visited u (Fin zu)) nbs acc))
   = map_get v (fst acc)
   /\ map_get v (snd (fold_left (relax visited u (Fin zu)) nbs acc))
      = map_get v (snd acc))
  \/ (~ In v visited
      /\ exists w, In (v, w) nbs
         /\ map_get v (fst (fold_left (relax visited u (Fin zu)) nbs acc))
            = Some (Fin (zu + w))
         /\ map_get v (snd (fold_left (relax visited u (Fin zu)) nbs acc))
            = Some (Some u)
         /\ num_ltb (Fin (zu + w)) (or_infinity (map_get v (fst acc)))
            = true).
Proof.
  revert acc. induction nbs as [|[n w0] r IH]; intros acc W; simpl; [auto|].
  assert (0 < w0)%Z as W0 by (apply (W n); now left).
  assert (forall n w, In (n, w) r -> (0 < w)%Z) as Wr
      by (intros n' w' H; apply (W n'); now right).
  destruct (relax_change acc (n, w0) v W0)
    as [[A0 B0]|(Nv & E & A0 & B0 & L0)];
    destruct (IH (relax visited u (Fin zu) acc (n, w0)) Wr)
      as [[A B]|(Nv' & w & I & A & B & L)].
  - left. split; congruence.
  - right. split; auto. exists w. rewrite A0 in L. repeat split; auto.
  - right. split; auto. simpl in E. subst n. exists w0.
    split; [now left|]. simpl in A0, B0, L0.
    split; [congruence|]. split; [congruence|exact L0].
  - right. split; auto. exists w. repeat split; auto.
    rewrite A0 in L. rewrite or_infinity_truthy in L.
    + simpl in *. destruct (or_infinity (map_get v (fst acc)));
        simpl in *; auto.
      apply Z.ltb_lt in L, L0. apply Z.ltb_lt. lia.
    + intros F. inversion F. simpl in *. lia.
Qed.

(** After the scan no connection of the current node can still improve its
    neighbour. *)
Lemma relax_fold_bound nbs acc v w :
  (forall n w', In (n, w') nbs -> (0 < w')%Z) ->
  ~ In v visited -> In (v, w) nbs ->
  num_leb
    (or_infinity
       (map_get v (fst (fold_left (relax visited u (Fin zu)) nbs acc))))
    (Fin (zu + w)) = true.
Proof.
  intros W Nv. revert acc W.
  induction nbs as [|[n w0] r IH]; intros acc W I; simpl in *; [tauto|].
  assert (forall n w, In (n, w) r -> (0 < w)%Z) as Wr
      by (intros n' w' H; apply (W n'); now right).
  destruct I as [I|I]; [|now apply IH].
  inversion I; subst n w0. clear I.
  assert (0 < w)%Z as W0 by (apply (W v); now left).
  assert (num_leb
            (or_infinity
               (map_get v (fst (relax visited u (Fin zu) acc (v, w)))))
            (Fin (zu + w)) = true) as Here.
  { pose proof (relax_on_entry visited u (Fin zu) acc v w Nv) as R.
    apply (f_equal fst) in R. cbn [fst num_add] in R. rewrite R.
    unfold relax_entry. cbn [fst].
    destruct (num_ltb (Fin (zu + w)) (or_infinity (map_get v (fst acc))))
      eqn:L; cbn [fst].
    - rewrite or_infinity_truthy; [apply num_leb_refl|].
      intros F. inversion F. lia.
    - unfold num_leb. now rewrite L. }
  destruct (relax_fold_change r (relax visited u (Fin zu) acc (v, w)) v Wr)
    as [[A _]|(_ & w' & I' & A & _ & L)].
  - now rewrite A.
  - rewrite A. rewrite or_infinity_truthy.
    + eapply num_leb_trans; [apply num_ltb_leb; exact L | exact Here].
    + intros F. inversion F. pose proof (Wr v w' I'). lia.
Qed.
End RelaxPositive.

(** The scan of the unvisited set returns a smallest distance. *)
Lemma pick_fold_min ds l acc x :
  (In x l \/ num_leb (fst acc) (or_infinity (map_get x ds)) = true) ->
  num_leb (fst (fold_left (pick ds) l acc)) (or_infinity (map_get x ds))
  = true.
Proof.
  revert acc. induction l as [|n r IH]; intros acc H; simpl.
  - destruct H as [[]|H]; auto.
  - apply IH. unfold pick.
    destruct (num_ltb (or_infinity (map_get n ds)) (fst acc)) eqn:L; simpl.
    + destruct H as [[->|H]|H]; auto.
      * right. apply num_leb_refl.
      * right. eapply num_leb_trans; [apply num_ltb_leb; eauto | auto].
    + destruct H as [[->|H]|H]; auto.
      right. unfold num_leb. now rewrite L.
Qed.

Lemma select_next_min ds l x :
  In x l ->
  num_leb (fst (select_next ds l)) (or_infinity (map_get x ds)) = true.
Proof. intros H. apply pick_fold_min. auto. Qed.

(* ================================================================= *)
(** ** The distances are shortest-path distances *)

Lemma relax_all_fin s u zu :
  map_get u (distances s) = Some (Fin zu) ->
  relax_all s u
  = fold_left (relax (set_add u (visitedNodes s)) u (Fin zu))
      (or_empty (map_get u (createAdjacencyList (graph s))))
      (distances s, previous s).
Proof.
  intros G. unfold relax_all. rewrite G. simpl.
  destruct (Z.eqb_spec zu 0); simpl; [subst|]; reflexivity.
Qed.

Lemma joins_contributes e u v : joins e u v -> contributes e u v (weight e).
Proof. intros [[A B]|[A B]]; split; auto. Qed.

Section Shortest.
Variables (g : Graph) (start : string).
Hypothesis Hpos : forall e, In e (edges g) -> (0 < weight e)%Z.
Hypothesis Hstart : In start (node_ids g).
Hypothesis Hwf : edges_wf g.
Hypothesis Hids : forall k, In k (node_ids g) -> k <> "".

Lemma init_opt_ok : opt_ok g start (initializeDijkstra g start).
Proof.
  assert (forall v d, map_get v (init_distances g start) = Some d ->
                      (v = start /\ d = Fin 0) \/ d = Infinity) as Cases.
  { intros v d G. destruct (in_dec string_dec v (node_ids g)) as [I|I].
    - rewrite init_distances_get in G by assumption.
      str_cases v start; inversion G; auto.
    - rewrite init_distances_get_out in G by assumption. discriminate. }
  rewrite initializeDijkstra_eq. unfold opt_ok. simpl.
  split; [|split; [|split; [|split; [|split; [|split]]]]].
  - rewrite init_distances_get by assumption. now rewrite String.eqb_refl.
  - intros u [].
  - intros u x zu dx [].
  - intros u e v zu dv [].
  - intros _. exists start, 0%Z. split; [reflexivity|]. split.
    + rewrite init_distances_get by assumption.
      now rewrite String.eqb_refl.
    + intros x dx _ G. destruct (Cases x dx G) as [[_ ->] | ->];
        [apply num_leb_refl | apply num_leb_inf_r].
  - discriminate.
  - intros v z G. destruct (Cases v _ G) as [[-> E]|E]; inversion E.
    constructor.
Qed.

Lemma step_opt_ok s :
  reachable g start s -> opt_ok g start s ->
  opt_ok g start (dijkstraNextStep s).
Proof.
  intros R O.
  destruct (isDone s) eqn:D;
    [rewrite dijkstraNextStep_idle; auto|].
  destruct (reachable_active g start Hstart Hids s R D) as (u & A & Uu).
  pose proof (reach_next g start s R) as R'.
  destruct (reachable_partition g start Hstart Hwf s R)
    as (Pd & Pu & Pk & _).
  destruct (reachable_partition g start Hstart Hwf _ R')
    as (Pd' & Pu' & Pk' & _).
  destruct (reachable_pos_ok g start Hpos s R) as [Qd Qc].
  destruct (reachable_pos_ok g start Hpos _ R') as [Qd' Qc'].
  destruct (reachable_graph g start s R) as [Ge _].
  destruct O as (OH & OA & OB & OC & OE & OF & OS).
  destruct (OE D) as (u0 & zu & C0 & Gu & Min).
  assert (u0 = u) as -> by (destruct A as (_ & C & _); congruence).
  assert (0 <= zu)%Z as Zu
      by (destruct (Qd u zu Gu) as [?|[_ ?]]; lia).
  set (vis' := set_add u (visitedNodes s)).
  set (nbs := or_empty (map_get u (createAdjacencyList (graph s)))).
  assert (forall n w, In (n, w) nbs ->
            exists e, In e (edges g) /\ contributes e u n w) as Nb.
  { intros n w I. apply createAdjacencyList_In in I.
    destruct I as (e & I & C). rewrite Ge in I. eauto. }
  assert (forall n w, In (n, w) nbs -> (0 < w)%Z) as Nw.
  { intros n w I. destruct (Nb n w I) as (e & I' & <- & _). auto. }
  assert (In start vis') as Sv.
  { apply set_add_In. destruct Qc as [Qc|Qc]; [|auto].
    destruct A as (_ & C & _). left. congruence. }
  assert (distances (dijkstraNextStep s)
          = fst (fold_left (relax vis' u (Fin zu)) nbs
                   (distances s, previous s))) as Eds.
  { rewrite (next_distances s u A). now rewrite (relax_all_fin s u zu Gu). }
  assert (forall v, In v vis' ->
            map_get v (distances (dijkstraNextStep s))
            = map_get v (distances s)) as Keep.
  { intros v I. rewrite Eds. apply relax_fold_get. auto. }
  pose proof (fun v => relax_fold_change vis' u zu Zu nbs
                         (distances s, previous s) v Nw) as Ch.
  rewrite <- Eds in Ch. simpl in Ch.
  assert (forall v, In v (visitedNodes (dijkstraNextStep s)) <-> In v vis')
    as Vis by (intros v; now rewrite (next_visited s u A)).
  assert (forall x, In x (unvisitedNodes (dijkstraNextStep s)) ->
            In x (unvisitedNodes s) /\ x <> u /\ ~ In x vis' /\ x <> start)
    as Unv.
  { intros x I. assert (~ In x vis') as Nx.
    { intros V. apply (Pd' x). split; auto. now apply Vis. }
    rewrite (next_unvisited s u A) in I. apply set_delete_In in I.
    repeat split; try tauto. intros ->. contradiction. }
  assert (forall x dx, In x (unvisitedNodes (dijkstraNextStep s)) ->
            map_get x (distances (dijkstraNextStep s)) = Some dx ->
            or_infinity (Some dx) = dx /\ num_leb (Fin zu) dx = true)
    as Fresh.
  { intros x dx I G. destruct (Unv x I) as (Ix & Nu & Nv & Ns). split.
    - apply or_infinity_truthy. intros ->.
      destruct (Qd' x 0%Z G) as [?|[? _]]; [lia|contradiction].
    - destruct (Ch x) as [[E _]|(_ & w & Iw & E & _)].
      + rewrite E in G. eapply Min; eauto.
      + rewrite E in G. inversion G. apply num_leb_fin.
        pose proof (Nw x w Iw). lia. }
  unfold opt_ok.
  split; [|split; [|split; [|split; [|split; [|split]]]]].
  - rewrite Keep by assumption. exact OH.
  - intros v I. apply Vis in I. rewrite Keep by assumption.
    apply set_add_In in I. destruct I as [->|I]; eauto.
  - intros v x zv dx Iv Ix Gv Gx. apply Vis in Iv.
    rewrite Keep in Gv by assumption.
    destruct (Fresh x dx Ix Gx) as [_ Lx].
    eapply num_leb_trans; [|exact Lx].
    apply set_add_In in Iv. destruct Iv as [->|Iv].
    + rewrite Gu in Gv. inversion Gv. apply num_leb_refl.
    + eapply OB; eauto.
  - intros v e x zv dx Iv Ie J Gv Gx. apply Vis in Iv.
    rewrite Keep in Gv by assumption.
    assert (In x (node_ids g)) as Xn.
    { destruct (Hwf e Ie) as [? ?].
      destruct J as [[_ <-]|[<- _]]; auto. }
    pose proof (Hpos e Ie) as We.
    destruct (in_dec string_dec x vis') as [Xv|Xv].
    + rewrite Keep in Gx by assumption.
      apply set_add_In in Iv. destruct Iv as [->|Iv]; [|eapply OC; eauto].
      rewrite Gu in Gv. inversion Gv; subst zv.
      apply set_add_In in Xv. destruct Xv as [->|Xv].
      * rewrite Gu in Gx. inversion Gx. apply num_leb_fin. lia.
      * destruct (OA x Xv) as (zx & Gx'). rewrite Gx' in Gx.
        inversion Gx; subst dx.
        pose proof (OB x u zx (Fin zu) Xv Uu Gx' Gu) as L.
        apply num_leb_fin in L. apply num_leb_fin. lia.
    + assert (In x (unvisitedNodes (dijkstraNextStep s))) as Xu.
      { apply Pu' in Xn. destruct Xn as [Xn|Xn]; auto.
        apply Vis in Xn. contradiction. }
      destruct (Fresh x dx Xu Gx) as [Ex _].
      apply set_add_In in Iv. destruct Iv as [->|Iv].
      * rewrite Gu in Gv. inversion Gv; subst zv.
        rewrite <- Ex, <- Gx, Eds.
        apply relax_fold_bound; auto.
        apply createAdjacencyList_In. exists e. rewrite Ge.
        split; auto. now apply joins_contributes.
      * assert (exists dx0, map_get x (distances s) = Some dx0)
          as (dx0 & Gx0).
        { apply Pk in Xn. apply map_get_in_keys in Xn.
          destruct (map_get x (distances s)); [eauto|congruence]. }
        pose proof (OC v e x zv dx0 Iv Ie J Gv Gx0) as L0.
        destruct (Ch x) as [[E _]|(_ & w & Iw & E & _ & L)].
        -- rewrite E, Gx0 in Gx. inversion Gx; subst. exact L0.
        -- rewrite Gx0 in L. rewrite or_infinity_truthy in L.
           ++ rewrite E in Gx. inversion Gx; subst dx.
              eapply num_leb_trans; [apply num_ltb_leb; exact L|exact L0].
           ++ intros ->. destruct (Unv x Xu) as (_ & _ & _ & Ns).
              destruct (Qd x 0%Z Gx0) as [?|[? _]]; [lia|contradiction].
  - intros D'.
    destruct (next_current_unvisited s u A D')
      as (n & Cn & In' & z & Gn & Nz).
    exists n, z. repeat split; auto.
    intros x dx Ix Gx. destruct (Fresh x dx Ix Gx) as [Ex _].
    rewrite (next_currentNode s u A), D' in Cn.
    destruct (select_next_some _ _ _ Cn) as (_ & _ & Fs).
    rewrite (next_unvisited s u A) in Ix.
    pose proof (select_next_min (fst (relax_all s u)) _ x Ix) as M.
    rewrite Fs, <- (next_distances s u A), Gn, Gx, Ex in M.
    rewrite or_infinity_truthy in M; [exact M|].
    intros F. inversion F. contradiction.
  - intros D' x Ix.
    assert (exists dx, map_get x (distances (dijkstraNextStep s)) = Some dx)
      as (dx & Gx).
    { destruct (Unv x Ix) as (I0 & _).
      destruct (reachable_frontier g start Hstart s R) as (_ & _ & Fs & _).
      apply Fs, Pk', map_get_in_keys in I0.
      destruct (map_get x (distances (dijkstraNextStep s)));
        [eauto|congruence]. }
    destruct (Fresh x dx Ix Gx) as [Ex _].
    rewrite (next_unvisited s u A) in Ix.
    pose proof (select_next_min (fst (relax_all s u)) _ x Ix) as M.
    rewrite <- (next_distances s u A), Gx, Ex in M.
    rewrite (next_isDone s u A) in D'.
    pose proof (select_next_ok (fst (relax_all s u))
                  (set_delete u (unvisitedNodes s))) as Ok.
    unfold pick_ok in Ok.
    assert (fst (select_next (fst (relax_all s u))
                   (set_delete u (unvisitedNodes s))) = Infinity) as Fi.
    { destruct (snd (select_next _ _)); auto.
      destruct (fst (select_next _ _)); simpl in D'; congruence. }
    rewrite <- (next_distances s u A) in Fi. rewrite Fi in M.
    apply num_leb_inf_l in M. now rewrite Gx, M.
  - intros v z G. destruct (Ch v) as [[E _]|(_ & w & Iw & E & _)].
    + rewrite E in G. now apply OS.
    + rewrite E in G. inversion G.
      destruct (Nb v w Iw) as (e & Ie & <- & J).
      eapply route_edge; eauto.
      destruct J as [[? ?]|[? ?]]; [left|right]; auto.
Qed.

Lemma reachable_opt_ok s : reachable g start s -> opt_ok g start s.
Proof.
  induction 1 as [|s R IH]; [apply init_opt_ok | now apply step_opt_ok].
Qed.
End Shortest.

Lemma connected_route g u v : connected g u v <-> exists d, route g u v d.
Proof.
  split.
  - induction 1 as [|v w e C [d IH] I J]; [exists 0%Z; constructor|].
    exists (d + weight e)%Z. eapply route_edge; eauto.
  - intros [d R]. induction R; [constructor|]. eapply conn_step; eauto.
Qed.

Lemma last_default_irrelevant (v : string) rest a b :
  last (v :: rest) a = last (v :: rest) b.
Proof.
  revert v. induction rest as [|c r IH]; intros v; [reflexivity|].
  apply (IH c).
Qed.

Lemma chain_route_from g q dq :
  chain g q dq ->
  forall a u dz, route g a u dz -> hd_error q = Some u ->
                 route g a (last q u) (dz + dq).
Proof.
  induction 1 as [v|u v rest e d0 I J C IH]; intros a x dz R E;
    simpl in E; inversion E; subst.
  - simpl. now rewrite Z.add_0_r.
  - replace (dz + (weight e + d0))%Z with ((dz + weight e) + d0)%Z by lia.
    change (last (x :: v :: rest) x) with (last (v :: rest) x).
    rewrite (last_default_irrelevant v rest x v).
    apply IH; auto. eapply route_edge; eauto.
Qed.

Lemma chain_route g p d :
  chain g p d ->
  forall u, hd_error p = Some u -> route g u (last p u) d.
Proof.
  intros C u E. replace d with (0 + d)%Z by lia.
  apply (chain_route_from g p d C u u 0%Z); auto. constructor.
Qed.

Section ShortestFinal.
Variables (g : Graph) (start : string).
Hypothesis Hpos : forall e, In e (edges g) -> (0 < weight e)%Z.
Hypothesis Hstart : In start (node_ids g).
Hypothesis Hwf : edges_wf g.
Hypothesis Hids : forall k, In k (node_ids g) -> k <> "".

Lemma route_in_graph v d : route g start v d -> In v (node_ids g).
Proof.
  induction 1 as [|v w e d R IH I J]; auto.
  destruct (Hwf e I) as [? ?]. destruct J as [[_ <-]|[<- _]]; auto.
Qed.

Lemma done_lower_bound s :
  reachable g start s -> isDone s = true ->
  forall v d, route g start v d ->
    exists z, map_get v (distances s) = Some (Fin z) /\ (z <= d)%Z
              /\ In v (visitedNodes s).
Proof.
  intros R D.
  destruct (reachable_opt_ok g start Hpos Hstart Hwf Hids s R)
    as (OH & OA & OB & OC & OE & OF & OS).
  destruct (reachable_partition g start Hstart Hwf s R)
    as (Pd & Pu & Pk & _).
  assert (forall v z, In v (node_ids g) ->
            map_get v (distances s) = Some (Fin z) ->
            In v (visitedNodes s)) as Fin_visited.
  { intros v z I G. apply Pu in I. destruct I as [I|I]; auto.
    rewrite (OF D v I) in G. discriminate. }
  induction 1 as [|v w e d Rt IH I J].
  - exists 0%Z. split; auto. split; [lia|]. eapply Fin_visited; eauto.
  - destruct IH as (zv & Gv & Lv & Vv).
    assert (In w (node_ids g)) as Wn.
    { destruct (Hwf e I) as [? ?]. destruct J as [[_ <-]|[<- _]]; auto. }
    assert (exists dw, map_get w (distances s) = Some dw) as (dw & Gw).
    { apply Pk, map_get_in_keys in Wn.
      destruct (map_get w (distances s)); [eauto|congruence]. }
    pose proof (OC v e w zv dw Vv I J Gv Gw) as L.
    apply num_leb_fin_l in L. destruct L as (zw & -> & L).
    exists zw. split; auto. split; [lia|]. eapply Fin_visited; eauto.
Qed.
End ShortestFinal.

(** On a graph with positive weights whose edges join its nodes and whose
    ids are non-empty, in every reachable step a finite entry of
    [distances] is the weight of an actual walk from the start node. *)
Theorem finite_distance_is_a_route g start s v z :
  (forall e, In e (edges g) -> (0 < weight e)%Z) ->
  In start (node_ids g) -> edges_wf g ->
  (forall k, In k (node_ids g) -> k <> "") ->
  reachable g start s ->
  map_get v (distances s) = Some (Fin z) ->
  route g start v z.
Proof.
  intros Hp Hs Hw Hi R G.
  destruct (reachable_opt_ok g start Hp Hs Hw Hi s R)
    as (_ & _ & _ & _ & _ & _ & OS).
  eapply OS; eauto.
Qed.

(** Once the run is done, [distances] holds the shortest-path distances:
    a finite entry is the weight of some walk from the start node and no
    walk is lighter, and a node has a finite entry exactly when it can be
    reached. *)
Theorem done_distances_are_shortest g start s v :
  (forall e, In e (edges g) -> (0 < weight e)%Z) ->
  In start (node_ids g) -> edges_wf g ->
  (forall k, In k (node_ids g) -> k <> "") ->
  reachable g start s -> isDone s = true ->
  (forall z, map_get v (distances s) = Some (Fin z) ->
     route g start v z /\ forall d, route g start v d -> (z <= d)%Z)
  /\ (connected g start v <->
      exists z, map_get v (distances s) = Some (Fin z)).
Proof.
  intros Hp Hs Hw Hi R D.
  destruct (reachable_opt_ok g start Hp Hs Hw Hi s R)
    as (_ & _ & _ & _ & _ & _ & OS).
  split.
  - intros z G. split.
    + eapply OS; eauto.
    + intros d Rt.
      destruct (done_lower_bound g start Hp Hs Hw Hi s R D v d Rt)
        as (z' & G' & L & _).
      rewrite G in G'. inversion G'. lia.
  - split.
    + intros C. apply connected_route in C. destruct C as [d Rt].
      destruct (done_lower_bound g start Hp Hs Hw Hi s R D v d Rt)
        as (z & G & _). eauto.
    + intros [z G]. apply connected_route. exists z.
      eapply OS; eauto.
Qed.

(* ================================================================= *)
(** ** Predecessors and the reconstructed path *)

Section Predecessors.
Variables (g : Graph) (start : string).
Hypothesis Hpos : forall e, In e (edges g) -> (0 < weight e)%Z.
Hypothesis Hstart : In start (node_ids g).
Hypothesis Hwf : edges_wf g.
Hypothesis Hids : forall k, In k (node_ids g) -> k <> "".

(** What one processed step changes: the two entries of a node stay as
    they are, or the node is an unvisited neighbour of the current node
    and gets a strictly smaller distance through it. *)
Lemma step_change s u :
  reachable g start s -> active s u ->
  exists zu, map_get u (distances s) = Some (Fin zu)
    /\ forall v,
        (map_get v (distances (dijkstraNextStep s))
         = map_get v (distances s)
         /\ map_get v (previous (dijkstraNextStep s))
            = map_get v (previous s))
        \/ (~ In v (visitedNodes s) /\ v <> u
            /\ exists e, In e (edges g) /\ joins e u v
               /\ map_get v (distances (dijkstraNextStep s))
                  = Some (Fin (zu + weight e))
               /\ map_get v (previous (dijkstraNextStep s))
                  = Some (Some u)
               /\ num_ltb (Fin (zu + weight e))
                    (or_infinity (map_get v (distances s))) = true).
Proof.
  intros R A.
  destruct (reachable_opt_ok g start Hpos Hstart Hwf Hids s R)
    as (_ & _ & _ & _ & OE & _).
  destruct (OE (proj1 A)) as (u0 & zu & C0 & Gu & _).
  assert (u0 = u) as -> by (destruct A as (_ & C & _); congruence).
  destruct (reachable_pos_ok g start Hpos s R) as [Qd _].
  assert (0 <= zu)%Z as Zu by (destruct (Qd u zu Gu) as [?|[_ ?]]; lia).
  destruct (reachable_graph g start s R) as [Ge _].
  exists zu. split; auto. intros v.
  rewrite (next_distances s u A), (next_previous s u A),
    (relax_all_fin s u zu Gu).
  match goal with
  | |- context [fold_left (relax ?vis _ _) ?nbs ?acc] =>
      destruct (relax_fold_change vis u zu Zu nbs acc v)
        as [[E1 E2]|(Nv & w & Iw & E1 & E2 & L)]
  end.
  - intros n w I. apply createAdjacencyList_In in I.
    destruct I as (e & I & <- & _). rewrite Ge in I. auto.
  - left. auto.
  - right. apply createAdjacencyList_In in Iw.
    destruct Iw as (e & Ie & <- & J). rewrite Ge in Ie.
    rewrite set_add_In in Nv. repeat split; try tauto.
    exists e. repeat split; auto.
    destruct J as [[? ?]|[? ?]]; [left|right]; auto.
Qed.

Lemma init_prev_ok : prev_ok g start (initializeDijkstra g start).
Proof.
  rewrite initializeDijkstra_eq. unfold prev_ok. simpl. split.
  - intros v u H. now apply init_previous_null in H.
  - intros v z G. left.
    destruct (in_dec string_dec v (node_ids g)) as [I|I].
    + rewrite init_distances_get in G by assumption.
      str_cases v start; [auto | discriminate].
    + rewrite init_distances_get_out in G by assumption. discriminate.
Qed.

Lemma step_prev_ok s :
  reachable g start s -> prev_ok g start s ->
  prev_ok g start (dijkstraNextStep s).
Proof.
  intros R [P1 P2].
  destruct (active_or_idle s) as [[u A]|I]; [|now rewrite I].
  destruct (step_change s u R A) as (zu & Gu & Ch).
  assert (forall v, In v (visitedNodes s) \/ v = u ->
            map_get v (distances (dijkstraNextStep s))
            = map_get v (distances s)) as Keep.
  { intros v I. rewrite (next_distances s u A). unfold relax_all.
    apply relax_fold_get. left. apply set_add_In. tauto. }
  split.
  - intros v p G. rewrite (next_visited s u A).
    destruct (Ch v) as [[E1 E2]|(Nv & Nu & e & Ie & J & E1 & E2 & _)].
    + rewrite E2 in G. destruct (P1 v p G) as (Np & Vp & e & zp & X).
      split; auto. split; [apply set_add_In; auto|].
      exists e, zp. rewrite E1, Keep by auto. exact X.
    + rewrite E2 in G. inversion G; subst p.
      split; [apply A|]. split; [apply set_add_In; auto|].
      exists e, zu. rewrite Keep by auto. auto.
  - intros v z G.
    destruct (Ch v) as [[E1 E2]|(_ & _ & e & _ & _ & _ & E2 & _)].
    + rewrite E1 in G. rewrite E2. eauto.
    + right. eauto.
Qed.

Lemma reachable_prev_ok s : reachable g start s -> prev_ok g start s.
Proof.
  induction 1 as [|s R IH]; [apply init_prev_ok | now apply step_prev_ok].
Qed.

(** The backward walk from a node with a finite distance returns a chain
    of edges that starts at the start node and weighs that distance. *)
Lemma walk_chain s :
  reachable g start s ->
  forall fuel c path p zc dp,
    map_get c (distances s) = Some (Fin zc) ->
    c <> "" ->
    chain g (c :: path) dp ->
    walk fuel (previous s) (Some c) path = Some p ->
    exists rest, p = start :: rest
      /\ chain g p (zc + dp)
      /\ last p start = last (c :: path) c.
Proof.
  intros R. destruct (reachable_prev_ok s R) as [P1 P2].
  destruct (reachable_opt_ok g start Hpos Hstart Hwf Hids s R)
    as (OH & _).
  induction fuel as [|f IH]; intros c path p zc dp G N C W.
  - simpl in W. unfold str_truthy in W. apply String.eqb_neq in N.
    rewrite N in W. discriminate.
  - simpl in W. unfold str_truthy in W.
    pose proof N as N'. apply String.eqb_neq in N'. rewrite N' in W.
    simpl in W.
    destruct (map_get c (previous s)) as [[u|]|] eqn:Gp; simpl in W.
    + destruct (P1 c u Gp) as (Nu & _ & e & zu & Ie & J & Gu & Gc).
      unfold str_truthy in W.
      pose proof Nu as Nu'. apply String.eqb_neq in Nu'.
      rewrite Nu' in W. simpl in W.
      rewrite G in Gc. inversion Gc; subst zc.
      destruct (IH u (c :: path) p zu (weight e + dp)%Z Gu Nu
                  (chain_cons g u c path e dp Ie J C) W)
        as (rest & E & Cp & L).
      exists rest. split; auto. split.
      * replace (zu + weight e + dp)%Z with (zu + (weight e + dp))%Z
          by lia. exact Cp.
      * rewrite L.
        change (last (u :: c :: path) u) with (last (c :: path) u).
        apply last_default_irrelevant.
    + assert (walk f (previous s) None (c :: path) = Some (c :: path)) as Wn
          by (destruct f; reflexivity).
      rewrite Wn in W. inversion W; subst p.
      destruct (P2 c zc G) as [->|[u Gu]]; [|congruence].
      rewrite OH in G. inversion G; subst zc.
      exists path. split; [reflexivity|].
      split; [exact C | apply last_default_irrelevant].
    + assert (walk f (previous s) None (c :: path) = Some (c :: path)) as Wn
          by (destruct f; reflexivity).
      rewrite Wn in W. inversion W; subst p.
      destruct (P2 c zc G) as [->|[u Gu]]; [|congruence].
      rewrite OH in G. inversion G; subst zc.
      exists path. split; [reflexivity|].
      split; [exact C | apply last_default_irrelevant].
Qed.
End Predecessors.

(** The full run is correct on well-formed input: for a graph with
    positive weights whose edges join its nodes and whose ids are
    non-empty, a start id that names a node and an end id other than the
    start that can be reached from it, the run succeeds; its path goes from
    the start id to the end id along edges of the graph, the weights of
    those edges add up to [shortestDistance], and no walk from start to end
    is lighter. *)
Theorem run_finds_shortest_path g start endNodeId fuel :
  (forall e, In e (edges g) -> (0 < weight e)%Z) ->
  In start (node_ids g) -> edges_wf g ->
  (forall k, In k (node_ids g) -> k <> "") ->
  length (nodes g) < fuel ->
  connected g start endNodeId -> endNodeId <> start ->
  exists r p z,
    runDijkstraAlgorithm fuel g start endNodeId = Some r
    /\ success r = true
    /\ res_shortestPath r = Some p
    /\ shortestDistance r = Some (Fin z)
    /\ hd_error p = Some start
    /\ last p start = endNodeId
    /\ chain g p z
    /\ (forall d, route g start endNodeId d -> (z <= d)%Z).
Proof.
  intros Hp Hs Hw Hi Hf Hc Hn.
  destruct (run_returns g start endNodeId fuel Hs Hi Hf)
    as (r & sp & pre & Hr & Hcp & Hpath & Hsucc & Hd & _).
  set (T := advance_n (length (nodes g)) (initializeDijkstra g start)) in *.
  assert (reachable g start T) as R by apply reachable_advance_n.
  pose proof (done_after_all_nodes g start Hs Hi) as D. fold T in D.
  assert (exists z, map_get endNodeId (distances T) = Some (Fin z)
                    /\ forall d, route g start endNodeId d -> (z <= d)%Z)
    as (z & G & Min).
  { apply connected_route in Hc. destruct Hc as [d0 Rt0].
    destruct (done_lower_bound g start Hp Hs Hw Hi T R D _ _ Rt0)
      as (z & G & _).
    exists z. split; auto. intros d Rt.
    destruct (done_lower_bound g start Hp Hs Hw Hi T R D _ _ Rt)
      as (z' & G' & L & _).
    rewrite G in G'. inversion G'. lia. }
  destruct (reachable_pos_ok g start Hp T R) as [Qd _].
  assert (z <> 0%Z) as Nz
      by (destruct (Qd _ _ G) as [?|[? _]]; [lia|contradiction]).
  destruct (reachable_prev_ok g start Hp Hs Hw Hi T R) as [P1 P2].
  destruct (P2 _ _ G) as [?|[u Gp]]; [contradiction|].
  assert (endNodeId <> "") as Ne.
  { apply Hi. apply connected_route in Hc. destruct Hc as [d Rt].
    eapply route_in_graph; eauto. }
  unfold constructPath, map_has in Hcp. rewrite Gp in Hcp. simpl in Hcp.
  destruct (walk fuel (previous T) (Some endNodeId) []) as [p|] eqn:W;
    [|discriminate].
  simpl in Hcp. assert (sp = Some p) as Esp by congruence.
  rewrite Esp in Hsucc, Hpath.
  destruct (walk_chain g start Hp Hs Hw Hi T R fuel endNodeId [] p z 0%Z
              G Ne (chain_one g endNodeId) W) as (rest & Ep & Cp & L).
  exists r, p, z. split; [exact Hr|].
  split; [exact Hsucc|]. split; [exact Hpath|].
  split.
  { rewrite Hd, G. simpl. destruct (Z.eqb_spec z 0); [contradiction|].
    reflexivity. }
  split; [now rewrite Ep|]. split; [exact L|].
  split; [|exact Min].
  now rewrite Z.add_0_r in Cp.
Qed.

Lemma generateDemoGraph_positive :
  forall e, In e (edges generateDemoGraph) -> (0 < weight e)%Z.
Proof.
  intros e H. simpl in H.
  repeat (destruct H as [<-|H]; [simpl; lia|]). destruct H.
Defined.

Lemma generateDemoGraph_ids :
  forall k, In k (node_ids generateDemoGraph) -> k <> "".
Proof.
  intros k H. simpl in H.
  repeat (destruct H as [<-|H]; [discriminate|]). destruct H.
Defined.

Lemma generateDemoGraph_A_E : connected generateDemoGraph "A" "E".
Proof.
  apply (conn_step _ _ "D" "E" (demo_edge "D-E" "D" "E" 8)).
  - apply (conn_step _ _ "A" "D" (demo_edge "A-D" "A" "D" 3)).
    + constructor.
    + simpl. auto.
    + left. split; reflexivity.
  - simpl. auto 10.
  - left. split; reflexivity.
Defined.

Lemma run_finds_shortest_path_witness :
  exists r p z,
    runDijkstraAlgorithm 6 generateDemoGraph "A" "E" = Some r
    /\ success r = true
    /\ res_shortestPath r = Some p
    /\ shortestDistance r = Some (Fin z)
    /\ hd_error p = Some "A"
    /\ last p "A" = "E"
    /\ chain generateDemoGraph p z
    /\ (forall d, route generateDemoGraph "A" "E" d -> (z <= d)%Z).
Proof.
  apply (run_finds_shortest_path generateDemoGraph "A" "E" 6
           generateDemoGraph_positive (or_introl eq_refl)
           generateDemoGraph_wf generateDemoGraph_ids).
  - simpl. lia.
  - exact generateDemoGraph_A_E.
  - discriminate.
Defined.

Lemma finite_distance_is_a_route_witness :
  map_get "D"
    (distances (advance_n 1 (initializeDijkstra generateDemoGraph "A")))
  = Some (Fin 3)
  /\ route generateDemoGraph "A" "D" 3.
Proof.
  split; [reflexivity|].
  apply (finite_distance_is_a_route generateDemoGraph "A"
           (advance_n 1 (initializeDijkstra generateDemoGraph "A")) "D" 3
           generateDemoGraph_positive (or_introl eq_refl)
           generateDemoGraph_wf generateDemoGraph_ids
           (reachable_advance_n generateDemoGraph "A" 1)).
  reflexivity.
Defined.

Lemma done_distances_are_shortest_witness :
  isDone (advance_n 5 (initializeDijkstra generateDemoGraph "A")) = true
  /\ (forall z,
        map_get "E"
          (distances (advance_n 5 (initializeDijkstra generateDemoGraph "A")))
        = Some (Fin z) ->
        route generateDemoGraph "A" "E" z
        /\ forall d, route generateDemoGraph "A" "E" d -> (z <= d)%Z)
  /\ (connected generateDemoGraph "A" "E" <->
      exists z,
        map_get "E"
          (distances (advance_n 5 (initializeDijkstra generateDemoGraph "A")))
        = Some (Fin z)).
Proof.
  split; [reflexivity|].
  apply (done_distances_are_shortest generateDemoGraph "A"
           (advance_n 5 (initializeDijkstra generateDemoGraph "A")) "E"
           generateDemoGraph_positive (or_introl eq_refl)
           generateDemoGraph_wf generateDemoGraph_ids
           (reachable_advance_n generateDemoGraph "A" 5)).
  reflexivity.
Defined.

Lemma run_terminates_nonempty_ids_witness :
  (forall s, reachable generateDemoGraph "A" s -> isDone s = false ->
     exists u, currentNode s = Some u
               /\ In u (unvisitedNodes s)
               /\ ~ In u (unvisitedNodes (dijkstraNextStep s))
               /\ (forall v, v <> u ->
                     (In v (unvisitedNodes (dijkstraNextStep s))
                      <-> In v (unvisitedNodes s)))
               /\ S (length (unvisitedNodes (dijkstraNextStep s)))
                  = length (unvisitedNodes s))
  /\ isDone (advance_n (length (nodes generateDemoGraph))
               (initializeDijkstra generateDemoGraph "A")) = true.
Proof.
  apply (run_terminates_nonempty_ids generateDemoGraph "A"
           (or_introl eq_refl) generateDemoGraph_ids).
Defined.

(* ================================================================= *)
(** ** Further invariants of the run *)

Lemma start_settled g start s :
  In start (node_ids g) -> reachable g start s ->
  map_get start (distances s) = Some (Fin 0)
  /\ (currentNode s = Some start \/ In start (visitedNodes s)).
Proof.
  intros Hs. induction 1 as [|s R [IHd IHc]].
  - rewrite initializeDijkstra_eq. simpl. split; auto.
    rewrite init_distances_get by assumption. now rewrite String.eqb_refl.
  - destruct (active_or_idle s) as [[u A]|I]; [|now rewrite I].
    assert (In start (set_add u (visitedNodes s))) as V.
    { apply set_add_In. destruct IHc as [C|V]; auto.
      destruct A as (_ & C' & _). left. congruence. }
    rewrite (next_distances s u A), (next_visited s u A). split; auto.
    unfold relax_all.
    match goal with
    | |- map_get _ (fst (fold_left (relax ?vis ?c ?d) ?nbs ?acc)) = _ =>
        destruct (relax_fold_get vis c d nbs acc start) as [E _]; auto
    end.
    rewrite E. exact IHd.
Qed.

(** The start node keeps the distance [0] in every step of the run, for
    every graph and whatever the weights are. *)
Theorem start_distance_is_zero g start n :
  In start (node_ids g) ->
  map_get start (distances (advance_n n (initializeDijkstra g start)))
  = Some (Fin 0).
Proof.
  intros Hs.
  apply (start_settled g start _ Hs (reachable_advance_n g start n)).
Qed.

Lemma start_distance_is_zero_witness :
  map_get "A"
    (distances (advance_n 4 (initializeDijkstra generateDemoGraph "A")))
  = Some (Fin 0).
Proof.
  apply (start_distance_is_zero generateDemoGraph "A" 4). simpl. auto.
Defined.

(** With positive weights on a well-formed graph a step never raises a
    distance: the entry of a node after [dijkstraNextStep] is at most its
    entry before, and it is strictly smaller whenever it differs. *)
Theorem distances_never_increase g start s v d d' :
  (forall e, In e (edges g) -> (0 < weight e)%Z) ->
  In start (node_ids g) -> edges_wf g ->
  (forall k, In k (node_ids g) -> k <> "") ->
  reachable g start s ->
  map_get v (distances s) = Some d ->
  map_get v (distances (dijkstraNextStep s)) = Some d' ->
  num_leb d' d = true /\ (d' <> d -> num_ltb d' d = true).
Proof.
  intros Hp Hs Hw Hi R G G'.
  destruct (active_or_idle s) as [[u A]|I].
  - destruct (step_change g start Hp Hs Hw Hi s u R A) as (zu & Gu & Ch).
    destruct (Ch v) as [[E _]|(Nv & Nu & e & _ & _ & E & _ & L)].
    + rewrite E, G in G'. inversion G'. split; [apply num_leb_refl|].
      congruence.
    + rewrite E in G'. inversion G'; subst d'. rewrite G in L.
      rewrite or_infinity_truthy in L.
      * split; auto. now apply num_ltb_leb.
      * intros ->. destruct (reachable_pos_ok g start Hp s R) as [Qd Qc].
        destruct (Qd v 0%Z G) as [?|[-> _]]; [lia|].
        destruct Qc as [C|V]; [|contradiction].
        destruct A as (_ & C' & _). congruence.
  - rewrite I, G in G'. inversion G'. split; [apply num_leb_refl|].
    congruence.
Qed.

Lemma distances_never_increase_witness :
  num_leb (Fin 10) (Fin 11) = true
  /\ (Fin 10 <> Fin 11 -> num_ltb (Fin 10) (Fin 11) = true).
Proof.
  apply (distances_never_increase generateDemoGraph "A"
           (advance_n 3 (initializeDijkstra generateDemoGraph "A"))
           "E" (Fin 11) (Fin 10)
           generateDemoGraph_positive (or_introl eq_refl)
           generateDemoGraph_wf generateDemoGraph_ids
           (reachable_advance_n generateDemoGraph "A" 3));
    reflexivity.
Defined.

(** The scan of the unvisited set keeps the first node of smallest
    distance: every node before the chosen one has a strictly larger
    distance, every node after it one that is at least as large, and the
    chosen distance is finite.  Distances are read as the code reads them,
    with [|| Infinity]. *)
Theorem select_next_first_minimum ds l n :
  snd (select_next ds l) = Some n ->
  exists before after,
    l = before ++ n :: after
    /\ fst (select_next ds l) = or_infinity (map_get n ds)
    /\ num_ltb (or_infinity (map_get n ds)) Infinity = true
    /\ (forall x, In x before ->
          num_ltb (or_infinity (map_get n ds))
            (or_infinity (map_get x ds)) = true)
    /\ (forall x, In x after ->
          num_leb (or_infinity (map_get n ds))
            (or_infinity (map_get x ds)) = true).
Proof.
  unfold select_next.
  assert (forall l seen acc n,
            (match snd acc with
             | None => fst acc = Infinity
             | Some m =>
                 exists b a, seen = b ++ m :: a
                   /\ fst acc = or_infinity (map_get m ds)
                   /\ num_ltb (fst acc) Infinity = true
                   /\ (forall x, In x b ->
                         num_ltb (fst acc) (or_infinity (map_get x ds))
                         = true)
                   /\ (forall x, In x a ->
                         num_leb (fst acc) (or_infinity (map_get x ds))
                         = true)
             end) ->
            (forall x, In x seen ->
               num_leb (fst acc) (or_infinity (map_get x ds)) = true) ->
            snd (fold_left (pick ds) l acc) = Some n ->
            exists b a, seen ++ l = b ++ n :: a
              /\ fst (fold_left (pick ds) l acc)
                 = or_infinity (map_get n ds)
              /\ num_ltb (fst (fold_left (pick ds) l acc)) Infinity = true
              /\ (forall x, In x b ->
                    num_ltb (fst (fold_left (pick ds) l acc))
                      (or_infinity (map_get x ds)) = true)
              /\ (forall x, In x a ->
                    num_leb (fst (fold_left (pick ds) l acc))
                      (or_infinity (map_get x ds)) = true)) as H.
  { clear l n. induction l as [|k r IH]; intros seen acc n Inv Low E.
    - simpl in *. rewrite E in Inv. rewrite app_nil_r. exact Inv.
    - simpl in E. simpl fold_left.
      replace (seen ++ k :: r) with ((seen ++ [k]) ++ r)
        by now rewrite <- app_assoc.
      apply IH; auto.
      + unfold pick.
        destruct (num_ltb (or_infinity (map_get k ds)) (fst acc)) eqn:L;
          simpl.
        * exists seen, []. split; [reflexivity|]. split; [reflexivity|].
          split; [eapply num_ltb_inf_r; eauto|]. split.
          -- intros x Ix. specialize (Low x Ix).
             unfold num_leb in Low. apply negb_true_iff in Low.
             destruct (or_infinity (map_get k ds)), (fst acc),
               (or_infinity (map_get x ds)); simpl in *;
               try discriminate; auto.
             apply Z.ltb_lt in L. apply Z.ltb_ge in Low.
             apply Z.ltb_lt. lia.
          -- intros x [].
        * destruct (snd acc) as [m|] eqn:Sm; auto.
          destruct Inv as (b & a & Es & F & Fi & Lb & La).
          exists b, (a ++ [k]). rewrite Es, <- app_assoc. simpl.
          split; [reflexivity|]. split; [exact F|]. split; [exact Fi|].
          split; [exact Lb|].
          intros x Ix. apply in_app_iff in Ix.
          destruct Ix as [Ix|[<-|[]]]; auto.
          unfold num_leb. now rewrite L.
      + unfold pick.
        destruct (num_ltb (or_infinity (map_get k ds)) (fst acc)) eqn:L;
          simpl; intros x Ix; apply in_app_iff in Ix;
          destruct Ix as [Ix|[<-|[]]]; auto.
        * eapply num_leb_trans; [apply num_ltb_leb; exact L | auto].
        * apply num_leb_refl.
        * unfold num_leb. now rewrite L. }
  intros E.
  destruct (H l [] (Infinity, None) n eq_refl
              (fun x (F : In x []) => match F with end) E)
    as (b & a & E1 & E2 & E3 & E4 & E5).
  simpl in E1. exists b, a. rewrite <- E2.
  split; [exact E1|]. split; [reflexivity|]. split; [exact E3|].
  split; [exact E4 | exact E5].
Qed.

Lemma select_next_first_minimum_witness :
  exists before after,
    ["B"; "C"] = before ++ "B" :: after
    /\ fst (select_next [("B", Fin 4); ("C", Fin 4)] ["B"; "C"])
       = or_infinity (map_get "B" [("B", Fin 4); ("C", Fin 4)])
    /\ num_ltb (or_infinity (map_get "B" [("B", Fin 4); ("C", Fin 4)]))
         Infinity = true
    /\ (forall x, In x before ->
          num_ltb (or_infinity (map_get "B" [("B", Fin 4); ("C", Fin 4)]))
            (or_infinity (map_get x [("B", Fin 4); ("C", Fin 4)])) = true)
    /\ (forall x, In x after ->
          num_leb (or_infinity (map_get "B" [("B", Fin 4); ("C", Fin 4)]))
            (or_infinity (map_get x [("B", Fin 4); ("C", Fin 4)])) = true).
Proof.
  apply (select_next_first_minimum [("B", Fin 4); ("C", Fin 4)]
           ["B"; "C"] "B").
  reflexivity.
Defined.

(* ================================================================= *)
(** ** [constructPath] on an arbitrary predecessor map *)

Lemma linked_snoc ps p a b :
  linked ps (p ++ [a]) -> prev_or_null (map_get b ps) = Some a ->
  linked ps ((p ++ [a]) ++ [b]).
Proof.
  intros L E. rewrite <- app_assoc. simpl.
  induction p as [|c r IH]; [simpl; auto|].
  destruct r as [|d r'].
  - simpl in *. destruct L as [L1 _]. auto.
  - change (prev_or_null (map_get d ps) = Some c
            /\ linked ps ((d :: r') ++ [a; b])).
    change (prev_or_null (map_get d ps) = Some c
            /\ linked ps ((d :: r') ++ [a])) in L.
    destruct L as [L1 L2]. split; auto.
Qed.

Lemma prev_or_null_truthy o u : prev_or_null o = Some u -> u <> "".
Proof.
  destruct o as [[s|]|]; simpl; try discriminate.
  unfold str_truthy. str_cases s ""; simpl; [discriminate|].
  intros H. inversion H. congruence.
Qed.

Lemma walk_follows ps fuel c path p :
  c <> "" ->
  walk fuel ps (Some c) path = Some p ->
  exists pre,
    p = pre ++ c :: path
    /\ linked ps (pre ++ [c])
    /\ prev_or_null (map_get (hd c pre) ps) = None.
Proof.
  revert c path. induction fuel as [|f IH]; intros c path N W.
  - simpl in W. unfold str_truthy in W. apply String.eqb_neq in N.
    rewrite N in W. discriminate.
  - simpl in W. unfold str_truthy in W.
    pose proof N as N'. apply String.eqb_neq in N'. rewrite N' in W.
    simpl in W.
    destruct (prev_or_null (map_get c ps)) as [u|] eqn:E.
    + pose proof (prev_or_null_truthy _ _ E) as Nu.
      destruct (IH u (c :: path) Nu W) as (pre & Ep & L & H).
      exists (pre ++ [u]). split; [now rewrite <- app_assoc|].
      split; [now apply linked_snoc|].
      destruct pre; simpl in *; auto.
    + assert (walk f ps None (c :: path) = Some (c :: path)) as Wn
          by (destruct f; reflexivity).
      rewrite Wn in W. inversion W. exists []. simpl. auto.
Qed.

Lemma constructPath_follows_aux fuel endNodeId ps p :
  endNodeId <> "" ->
  constructPath fuel endNodeId ps = Some (Some p) ->
  exists pre, p = pre ++ [endNodeId] /\ linked ps p.
Proof.
  intros N C. unfold constructPath in C.
  destruct (_ || _); [discriminate|].
  destruct (walk fuel ps (Some endNodeId) []) as [q|] eqn:W;
    [|discriminate].
  simpl in C. assert (q = p) as -> by congruence.
  destruct (walk_follows ps fuel endNodeId [] p N W) as (pre & E & L & _).
  exists pre. rewrite E in *. auto.
Qed.

(** When [constructPath] returns a path for a non-empty end id, the end id
    is a key of [previous] and the last element of the path, every element
    is the recorded predecessor of the next one, and the first element has
    no predecessor. *)
Theorem constructPath_follows_previous fuel endNodeId ps p :
  endNodeId <> "" ->
  constructPath fuel endNodeId ps = Some (Some p) ->
  In endNodeId (map_keys ps)
  /\ exists pre,
       p = pre ++ [endNodeId]
       /\ linked ps p
       /\ prev_or_null (map_get (hd endNodeId p) ps) = None.
Proof.
  intros N C. unfold constructPath in C.
  destruct (map_has endNodeId ps) eqn:Hh; simpl in C.
  - split; [now apply map_has_true|].
    destruct (_ && _); [discriminate|].
    destruct (walk fuel ps (Some endNodeId) []) as [q|] eqn:W;
      [|discriminate].
    simpl in C. inversion C; subst q.
    destruct (walk_follows ps fuel endNodeId [] p N W) as (pre & E & L & H).
    exists pre. rewrite E in *. split; auto. split; auto.
    destruct pre; simpl in *; auto.
  - discriminate.
Qed.

Lemma constructPath_follows_previous_witness :
  In "E" (map_keys [("A", None); ("D", Some "A"); ("E", Some "D")])
  /\ exists pre,
       ["A"; "D"; "E"] = pre ++ ["E"]
       /\ linked [("A", None); ("D", Some "A"); ("E", Some "D")]
            ["A"; "D"; "E"]
       /\ prev_or_null
            (map_get (hd "E" ["A"; "D"; "E"])
               [("A", None); ("D", Some "A"); ("E", Some "D")]) = None.
Proof.
  apply (constructPath_follows_previous 3 "E"
           [("A", None); ("D", Some "A"); ("E", Some "D")]).
  - discriminate.
  - reflexivity.
Defined.

(** An end id that is not a key of [previous] gives [null], whatever the
    map holds and without entering the loop. *)
Theorem constructPath_missing_key fuel endNodeId ps :
  ~ In endNodeId (map_keys ps) ->
  constructPath fuel endNodeId ps = Some None.
Proof.
  intros H. unfold constructPath.
  destruct (map_has endNodeId ps) eqn:Hh; [|reflexivity].
  apply map_has_true in Hh. contradiction.
Qed.

Lemma constructPath_missing_key_witness :
  constructPath 0 "Z" [("A", None); ("D", Some "A")] = Some None.
Proof.
  apply (constructPath_missing_key 0 "Z" [("A", None); ("D", Some "A")]).
  simpl. intros [H|[H|[]]]; discriminate.
Defined.

(* ================================================================= *)
(** ** The timeline of steps *)

Lemma trace_shape {A} (f : nat -> A) k :
  f 0 :: map f (seq 1 k) = map f (seq 0 k) ++ [f k].
Proof.
  change (f 0 :: map f (seq 1 k)) with (map f (seq 0 (S k))).
  rewrite seq_S, map_app. reflexivity.
Qed.

Lemma run_loop_trace fuel s acc c ss :
  run_loop fuel s acc = Some (c, ss) ->
  exists k,
    k <= fuel
    /\ c = advance_n k s
    /\ ss = acc ++ map (fun i => advance_n i s) (seq 1 k)
    /\ isDone c = true
    /\ forall i, i < k -> isDone (advance_n i s) = false.
Proof.
  revert s acc. induction fuel as [|f IH]; intros s acc H; simpl in H.
  - destruct (isDone s) eqn:D; [|discriminate]. inversion H; subst.
    exists 0. simpl. rewrite app_nil_r. repeat split; auto. lia.
  - destruct (isDone s) eqn:D.
    + inversion H; subst. exists 0. simpl. rewrite app_nil_r.
      repeat split; auto; lia.
    + destruct (IH _ _ H) as (k & L & Ec & Es & Dc & Nd).
      exists (S k). split; [lia|]. split; [exact Ec|]. split.
      * rewrite Es, <- app_assoc. f_equal. simpl. f_equal.
        rewrite <- (seq_shift k 1), map_map. reflexivity.
      * split; auto. intros [|i] Hi; [exact D|]. apply Nd. lia.
Qed.

Lemma reachable_no_path g start s :
  reachable g start s -> shortestPath s = None.
Proof.
  induction 1 as [|s R IH].
  - now rewrite initializeDijkstra_eq.
  - destruct (active_or_idle s) as [[u A]|I]; [|now rewrite I].
    now rewrite (dijkstraNextStep_active s u A).
Qed.

(** The steps of a Result are the timeline of the run: the initial step
    followed by one step per call of [dijkstraNextStep], at least one and
    at most [fuel] calls; all steps but the last are unfinished and are
    exactly the iterates; the last one is finished and is the last iterate
    except for its graph and path, which carry the highlighted path when
    one was found. *)
Theorem run_steps_are_the_timeline fuel g start endNodeId r :
  runDijkstraAlgorithm fuel g start endNodeId = Some r ->
  exists k l,
    1 <= k <= fuel
    /\ steps r
       = map (fun i => advance_n i (initializeDijkstra g start)) (seq 0 k)
         ++ [l]
    /\ (forall i, i < k ->
          isDone (advance_n i (initializeDijkstra g start)) = false)
    /\ isDone l = true
    /\ distances l = distances (advance_n k (initializeDijkstra g start))
    /\ previous l = previous (advance_n k (initializeDijkstra g start))
    /\ visitedNodes l
       = visitedNodes (advance_n k (initializeDijkstra g start))
    /\ unvisitedNodes l
       = unvisitedNodes (advance_n k (initializeDijkstra g start))
    /\ currentNode l = None
    /\ match res_shortestPath r with
       | Some (a :: q) =>
           shortestPath l = Some (a :: q)
           /\ graph l
              = visualizeShortestPath
                  (graph (advance_n k (initializeDijkstra g start)))
                  (a :: q)
       | _ =>
           shortestPath l = None
           /\ graph l = graph (advance_n k (initializeDijkstra g start))
       end.
Proof.
  unfold runDijkstraAlgorithm. intros H.
  set (s0 := initializeDijkstra g start) in *.
  destruct (run_loop fuel s0 [s0]) as [[c ss]|] eqn:L; [|discriminate].
  destruct (constructPath fuel endNodeId (previous c)) as [sp|] eqn:C;
    [|discriminate].
  destruct (run_loop_trace _ _ _ _ _ L) as (k & Lk & Ec & Es & Dc & Nd).
  assert (1 <= k) as K1.
  { destruct k; [|lia]. simpl in Ec. subst c.
    unfold s0 in Dc. rewrite initializeDijkstra_eq in Dc. discriminate. }
  assert (ss = map (fun i => advance_n i s0) (seq 0 k) ++ [c]) as Ess.
  { rewrite Es, Ec.
    apply (trace_shape (fun i => advance_n i s0) k). }
  assert (currentNode c = None /\ shortestPath c = None) as [Cc Sc].
  { assert (reachable g start c) as Rc
        by (rewrite Ec; apply reachable_advance_n).
    split; [|now apply (reachable_no_path g start)].
    destruct k as [|k']; [lia|]. rewrite Ec, advance_n_S in *.
    destruct (active_or_idle (advance_n k' s0)) as [[u A]|I].
    - rewrite (next_currentNode _ u A). now rewrite Dc.
    - rewrite I in Dc. rewrite (Nd k') in Dc; [discriminate|lia]. }
  inversion H as [Er]. clear H. simpl.
  exists k. rewrite <- Ec.
  destruct sp as [[|a q]|]; simpl.
  - exists c. repeat split; auto; lia.
  - rewrite Ess, set_last_path_app. eexists. split; [lia|].
    split; [reflexivity|]. simpl. repeat split; auto.
  - exists c. repeat split; auto; lia.
Qed.

Lemma run_steps_are_the_timeline_witness :
  exists r k l,
    runDijkstraAlgorithm 5 generateDemoGraph "A" "E" = Some r
    /\ 1 <= k <= 5
    /\ steps r
       = map (fun i => advance_n i (initializeDijkstra generateDemoGraph "A"))
           (seq 0 k) ++ [l]
    /\ isDone l = true.
Proof.
  destruct (runDijkstraAlgorithm 5 generateDemoGraph "A" "E") as [r|] eqn:E;
    [|vm_compute in E; discriminate].
  destruct (run_steps_are_the_timeline 5 generateDemoGraph "A" "E" r E)
    as (k & l & K & S & _ & D & _).
  exists r, k, l. auto.
Defined.

(* ================================================================= *)
(** ** The statuses shown by the graph copy of a step *)

Lemma reachable_disjoint g start s v :
  reachable g start s ->
  ~ (In v (visitedNodes s) /\ In v (unvisitedNodes s)).
Proof.
  induction 1 as [|s R IH].
  - rewrite initializeDijkstra_eq. simpl. tauto.
  - destruct (active_or_idle s) as [[u A]|I]; [|now rewrite I].
    rewrite (next_visited s u A), (next_unvisited s u A).
    rewrite set_add_In, set_delete_In. tauto.
Qed.

Lemma reachable_active_frontier g start s u :
  In start (node_ids g) -> reachable g start s -> active s u ->
  In u (unvisitedNodes s) /\ ~ In u (visitedNodes s).
Proof.
  intros Hs R A.
  destruct (reachable_frontier g start Hs s R) as (Fc & _).
  destruct (Fc (proj1 A)) as (u' & C & U).
  assert (u' = u) as -> by (destruct A as (_ & C' & _); congruence).
  split; auto. intros V. apply (reachable_disjoint g start s u R). auto.
Qed.

Lemma with_status_twice n a b :
  with_status (with_status n a) b = with_status n b.
Proof. reflexivity. Qed.

Lemma init_status_start start n :
  status_is (Some (init_status start n)) st_start = String.eqb (id n) start.
Proof.
  unfold init_status. destruct (String.eqb (id n) start); [reflexivity|].
  destruct (status_is (status n) st_end); reflexivity.
Qed.

Lemma shown_status_not_end start visited n :
  set_has (id n) visited = true ->
  status_is (shown_status start visited n) st_end = false.
Proof.
  intros H. unfold shown_status. rewrite H.
  destruct (String.eqb (id n) (last visited ""));
    [destruct (String.eqb (id n) start)|]; reflexivity.
Qed.

(** In every step of a run from a start id that names a node, the graph
    copy holds the nodes of the input graph, in order, with the same id,
    position and label and the same edges; the status of a node is its
    initial one while its id is unvisited, [visited] once it is visited,
    except for the node visited last, which shows [current], or [start]
    when it is the start node. *)
Theorem step_graph_statuses g start s :
  In start (node_ids g) ->
  reachable g start s ->
  nodes (graph s)
  = map (fun n => with_status n (shown_status start (visitedNodes s) n))
      (nodes g)
  /\ edges (graph s) = edges g.
Proof.
  intros Hs R. split; [|now apply (reachable_graph g start)].
  induction R as [|s R IH].
  - rewrite initializeDijkstra_eq. reflexivity.
  - destruct (active_or_idle s) as [[u A]|I]; [|now rewrite I].
    destruct (reachable_active_frontier g start s u Hs R A) as [Uu Nv].
    rewrite (dijkstraNextStep_active s u A). simpl. rewrite IH, map_map.
    apply map_ext. intros n. unfold mark_node.
    rewrite with_status_twice. f_equal. simpl.
    assert (set_add u (visitedNodes s) = visitedNodes s ++ [u]) as Ev.
    { unfold set_add. apply set_has_false in Nv. now rewrite Nv. }
    assert (last (set_add u (visitedNodes s)) "" = u) as El
        by (rewrite Ev; apply last_last).
    remember (shown_status start (visitedNodes s) n) as old eqn:Eo.
    unfold shown_status. rewrite El.
    str_cases (id n) u.
    + assert (set_has (id n) (set_add u (visitedNodes s)) = true) as ->
          by (apply set_has_In, set_add_In; auto).
      rewrite Eo. unfold shown_status.
      assert (set_has (id n) (visitedNodes s) = false) as ->
          by (apply set_has_false; congruence).
      now rewrite init_status_start.
    + destruct (set_has (id n) (set_add u (visitedNodes s))) eqn:V.
      * rewrite Eo, shown_status_not_end; [reflexivity|].
        apply set_has_In. apply set_has_In, set_add_In in V.
        destruct V; [contradiction|auto].
      * rewrite Eo. unfold shown_status.
        assert (set_has (id n) (visitedNodes s) = false) as ->; auto.
        apply set_has_false. apply set_has_false in V.
        intros F. apply V, set_add_In. auto.
Qed.

Lemma step_graph_statuses_witness :
  nodes (graph (advance_n 2 (initializeDijkstra generateDemoGraph "A")))
  = map (fun n =>
           with_status n
             (shown_status "A"
                (visitedNodes
                   (advance_n 2 (initializeDijkstra generateDemoGraph "A")))
                n))
      (nodes generateDemoGraph)
  /\ edges (graph (advance_n 2 (initializeDijkstra generateDemoGraph "A")))
     = edges generateDemoGraph.
Proof.
  apply (step_graph_statuses generateDemoGraph "A").
  - simpl. auto.
  - apply reachable_advance_n.
Defined.

(* ================================================================= *)
(** ** [visualizeShortestPath] *)

Lemma is_path_edge_joins e p :
  is_path_edge e p = true
  <-> exists l1 a b l2, p = l1 ++ a :: b :: l2 /\ joins e a b.
Proof.
  induction p as [|a r IH]; simpl.
  - split; [discriminate|]. intros (l1 & a & b & l2 & E & _).
    destruct l1; discriminate.
  - destruct r as [|b r'].
    + split; [discriminate|]. intros (l1 & x & y & l2 & E & _).
      destruct l1 as [|? [|? ?]]; discriminate.
    + rewrite !orb_true_iff, !andb_true_iff, !String.eqb_eq, IH. split.
      * intros [[[H1 H2]|[H1 H2]]|(l1 & x & y & l2 & E & J)].
        -- exists [], a, b, r'. split; auto. left. auto.
        -- exists [], a, b, r'. split; auto. right. auto.
        -- exists (a :: l1), x, y, l2. rewrite E. auto.
      * intros (l1 & x & y & l2 & E & J). destruct l1 as [|c l1].
        -- simpl in E. inversion E; subst. left.
           destruct J as [[? ?]|[? ?]]; auto.
        -- simpl in E. inversion E; subst. right.
           exists l1, x, y, l2. auto.
Qed.

Lemma is_path_edge_with_status e st p :
  is_path_edge (with_edge_status e st) p = is_path_edge e p.
Proof.
  induction p as [|a r IH]; [reflexivity|].
  destruct r as [|b r']; [reflexivity|].
  change (is_path_edge (with_edge_status e st) (a :: b :: r'))
    with ((String.eqb (source e) a && String.eqb (target e) b)
          || (String.eqb (source e) b && String.eqb (target e) a)
          || is_path_edge (with_edge_status e st) (b :: r')).
  now rewrite IH.
Qed.

(** [visualizeShortestPath] only rewrites statuses: for every path the
    nodes keep their order, id, position and label, the edges keep their
    order, id, endpoints and weight, and highlighting twice is the same as
    highlighting once. *)
Theorem visualize_keeps_structure g path :
  map (fun n => (id n, x n, y n, label n))
    (nodes (visualizeShortestPath g path))
  = map (fun n => (id n, x n, y n, label n)) (nodes g)
  /\ map (fun e => (edge_id e, source e, target e, weight e))
       (edges (visualizeShortestPath g path))
     = map (fun e => (edge_id e, source e, target e, weight e)) (edges g)
  /\ visualizeShortestPath (visualizeShortestPath g path) path
     = visualizeShortestPath g path.
Proof.
  unfold visualizeShortestPath.
  destruct (Nat.ltb (length path) 2) eqn:L.
  - auto.
  - cbn [nodes edges]. rewrite !map_map.
    split; [apply map_ext; reflexivity|].
    split; [apply map_ext; reflexivity|].
    f_equal; apply map_ext; intros a.
    + unfold with_status. cbn [id x y label status]. f_equal.
      destruct (status a) as [[]|]; simpl;
        destruct (path_includes path (id a)); reflexivity.
    + rewrite is_path_edge_with_status.
      unfold with_edge_status.
      cbn [edge_id source target weight edge_status]. f_equal.
      destruct (is_path_edge a path); reflexivity.
Qed.

(** For a path of at least two ids, a node keeps the status [start] or
    [end]; any other node whose id occurs in the path becomes [path]; the
    remaining nodes keep their status. *)
Theorem visualize_node_statuses g path i n :
  2 <= length path ->
  nth_error (nodes g) i = Some n ->
  exists n',
    nth_error (nodes (visualizeShortestPath g path)) i = Some n'
    /\ id n' = id n
    /\ (status n = Some st_start \/ status n = Some st_end ->
        status n' = status n)
    /\ (status n <> Some st_start -> status n <> Some st_end ->
        In (id n) path -> status n' = Some st_path)
    /\ (~ In (id n) path -> status n' = status n).
Proof.
  intros L H. unfold visualizeShortestPath.
  assert (Nat.ltb (length path) 2 = false) as -> by (apply Nat.ltb_ge; lia).
  simpl. rewrite nth_error_map, H. simpl. eexists. split; [reflexivity|].
  simpl. split; [reflexivity|].
  assert (path_includes path (id n) = true <-> In (id n) path) as Inc.
  { unfold path_includes. rewrite existsb_exists. split.
    - intros (y & I & E). apply String.eqb_eq in E. congruence.
    - intros I. exists (id n). split; auto. apply String.eqb_refl. }
  split; [|split].
  - intros [E|E]; rewrite E; reflexivity.
  - intros N1 N2 I. apply Inc in I. rewrite I.
    destruct (status n) as [[]|]; simpl; congruence.
  - intros N. destruct (path_includes path (id n)) eqn:P.
    + exfalso. apply N, Inc. reflexivity.
    + destruct (_ || _); reflexivity.
Qed.

Lemma visualize_node_statuses_witness :
  exists n',
    nth_error
      (nodes (visualizeShortestPath generateDemoGraph ["A"; "D"; "C"; "E"]))
      3 = Some n'
    /\ id n' = "D"
    /\ (Some st_default = Some st_start \/ Some st_default = Some st_end ->
        status n' = Some st_default)
    /\ (Some st_default <> Some st_start ->
        Some st_default <> Some st_end ->
        In "D" ["A"; "D"; "C"; "E"] -> status n' = Some st_path)
    /\ (~ In "D" ["A"; "D"; "C"; "E"] -> status n' = Some st_default).
Proof.
  apply (visualize_node_statuses generateDemoGraph ["A"; "D"; "C"; "E"] 3
           (demo_node "D" 250 250)).
  - simpl. lia.
  - reflexivity.
Defined.

(** For a path of at least two ids, an edge becomes [path] exactly when it
    joins two neighbouring ids of the path, in either direction; every
    other edge keeps its status. *)
Theorem visualize_edge_statuses g path j e :
  2 <= length path ->
  nth_error (edges g) j = Some e ->
  exists e',
    nth_error (edges (visualizeShortestPath g path)) j = Some e'
    /\ source e' = source e /\ target e' = target e
    /\ weight e' = weight e
    /\ ((exists l1 a b l2, path = l1 ++ a :: b :: l2 /\ joins e a b) ->
        edge_status e' = Some es_path)
    /\ (~ (exists l1 a b l2, path = l1 ++ a :: b :: l2 /\ joins e a b) ->
        edge_status e' = edge_status e).
Proof.
  intros L H. unfold visualizeShortestPath.
  assert (Nat.ltb (length path) 2 = false) as -> by (apply Nat.ltb_ge; lia).
  simpl. rewrite nth_error_map, H. simpl. eexists. split; [reflexivity|].
  simpl. repeat split.
  - intros X. apply is_path_edge_joins in X. now rewrite X.
  - intros X. destruct (is_path_edge e path) eqn:P; auto.
    exfalso. apply X, is_path_edge_joins. exact P.
Qed.

Lemma visualize_edge_statuses_witness :
  exists e',
    nth_error
      (edges (visualizeShortestPath generateDemoGraph ["A"; "D"; "C"; "E"]))
      4 = Some e'
    /\ source e' = "C" /\ target e' = "D" /\ weight e' = 1%Z
    /\ ((exists l1 a b l2,
            ["A"; "D"; "C"; "E"] = l1 ++ a :: b :: l2
            /\ joins (demo_edge "C-D" "C" "D" 1) a b) ->
        edge_status e' = Some es_path)
    /\ (~ (exists l1 a b l2,
              ["A"; "D"; "C"; "E"] = l1 ++ a :: b :: l2
              /\ joins (demo_edge "C-D" "C" "D" 1) a b) ->
        edge_status e' = Some es_default).
Proof.
  apply (visualize_edge_statuses generateDemoGraph ["A"; "D"; "C"; "E"] 4
           (demo_edge "C-D" "C" "D" 1)).
  - simpl. lia.
  - reflexivity.
Defined.

(* ================================================================= *)
(** ** graphUtils.ts: adjacency, reset and edge lookup *)

(** The adjacency list is undirected: [v] with weight [w] is a connection
    of [u] exactly when some edge of weight [w] joins [u] and [v] in either
    direction, hence exactly when [u] with weight [w] is a connection of
    [v]. *)
Theorem adjacency_is_undirected g u v w :
  (In (v, w) (or_empty (map_get u (createAdjacencyList g)))
   <-> exists e, In e (edges g) /\ weight e = w /\ joins e u v)
  /\ (In (v, w) (or_empty (map_get u (createAdjacencyList g)))
      <-> In (u, w) (or_empty (map_get v (createAdjacencyList g)))).
Proof.
  assert (forall a b,
            In (b, w) (or_empty (map_get a (createAdjacencyList g)))
            <-> exists e, In e (edges g) /\ weight e = w /\ joins e a b)
    as H.
  { intros a b. rewrite createAdjacencyList_In. split.
    - intros (e & I & W & J). exists e. repeat split; auto.
      destruct J as [[? ?]|[? ?]]; [left|right]; auto.
    - intros (e & I & W & J). exists e. split; auto. split; auto.
      destruct J as [[? ?]|[? ?]]; auto. }
  split; [apply H|]. rewrite !H. split.
  - intros (e & I & W & [[? ?]|[? ?]]); exists e;
      repeat split; auto; [right|left]; auto.
  - intros (e & I & W & [[? ?]|[? ?]]); exists e;
      repeat split; auto; [right|left]; auto.
Qed.

Lemma add_connections_keys adj e k :
  In k (map_keys adj) -> In k (map_keys (add_connections adj e)).
Proof.
  intros H. unfold add_connections.
  destruct (String.eqb (source e) (target e)).
  - destruct (map_get (source e) adj);
      rewrite ?map_keys_set; auto.
  - rewrite !map_keys_set. auto.
Qed.

(** Every node has an entry in the adjacency list, and the entry of a
    node that no edge touches is the empty array. *)
Theorem adjacency_has_every_node g k :
  In k (node_ids g) ->
  exists l, map_get k (createAdjacencyList g) = Some l
    /\ ((forall e, In e (edges g) -> source e <> k /\ target e <> k) ->
        l = []).
Proof.
  intros H.
  assert (In k (map_keys (createAdjacencyList g))) as K.
  { unfold createAdjacencyList.
    assert (forall es adj, In k (map_keys adj) ->
              In k (map_keys (fold_left add_connections es adj))) as F.
    { induction es as [|e r IH]; intros adj Ha; simpl; auto.
      apply IH. now apply add_connections_keys. }
    apply F. apply (fill_keys (fun _ => @nil (string * Z))). now right. }
  apply map_get_in_keys in K.
  destruct (map_get k (createAdjacencyList g)) as [l|] eqn:G;
    [|congruence].
  exists l. split; auto. intros Iso.
  destruct l as [|[v w] l']; auto. exfalso.
  assert (In (v, w) (or_empty (map_get k (createAdjacencyList g)))) as I
      by (rewrite G; now left).
  apply createAdjacencyList_In in I. destruct I as (e & Ie & _ & J).
  destruct (Iso e Ie) as [N1 N2]. destruct J as [[? _]|[? _]]; auto.
Qed.

Lemma adjacency_has_every_node_witness :
  exists l,
    map_get "C" (createAdjacencyList isolated_graph) = Some l
    /\ ((forall e, In e (edges isolated_graph) ->
           source e <> "C" /\ target e <> "C") -> l = []).
Proof.
  apply (adjacency_has_every_node isolated_graph "C"). simpl. auto.
Defined.

Lemma fold_left_map {A B C} (f : A -> B -> A) (h : C -> B) l a :
  fold_left f (map h l) a = fold_left (fun a c => f a (h c)) l a.
Proof. revert a. induction l as [|c r IH]; intros a; simpl; auto. Qed.

(** [resetGraphStatus] keeps ids, positions, labels, endpoints and
    weights, sets every edge to [default], keeps [start] and [end] on
    nodes and sets every other node to [default]; resetting twice is the
    same as resetting once, and the adjacency list of the reset graph is
    that of the graph. *)
Theorem resetGraphStatus_spec g :
  map (fun n => (id n, x n, y n, label n)) (nodes (resetGraphStatus g))
  = map (fun n => (id n, x n, y n, label n)) (nodes g)
  /\ map (fun e => (edge_id e, source e, target e, weight e))
       (edges (resetGraphStatus g))
     = map (fun e => (edge_id e, source e, target e, weight e)) (edges g)
  /\ (forall e, In e (edges (resetGraphStatus g)) ->
        edge_status e = Some es_default)
  /\ (forall i n, nth_error (nodes g) i = Some n ->
        option_map status (nth_error (nodes (resetGraphStatus g)) i)
        = Some (if status_is (status n) st_start
                   || status_is (status n) st_end
                then status n else Some st_default))
  /\ resetGraphStatus (resetGraphStatus g) = resetGraphStatus g
  /\ createAdjacencyList (resetGraphStatus g) = createAdjacencyList g.
Proof.
  unfold resetGraphStatus. cbn [nodes edges]. rewrite !map_map.
  split; [apply map_ext; reflexivity|].
  split; [apply map_ext; reflexivity|].
  split.
  { intros e H. apply in_map_iff in H. destruct H as (e0 & <- & _).
    reflexivity. }
  split.
  { intros i n H. rewrite nth_error_map, H. reflexivity. }
  split.
  - f_equal; apply map_ext; intros a; try reflexivity.
    unfold with_status. cbn [id x y label status]. f_equal.
    destruct (status a) as [[]|]; reflexivity.
  - unfold createAdjacencyList. cbn [nodes edges].
    rewrite !fold_left_map. reflexivity.
Qed.

(** [edgeExists] answers whether some edge joins the two ids in either
    direction, so the order of the two ids does not matter. *)
Theorem edgeExists_iff es a b :
  (edgeExists es a b = true <-> exists e, In e es /\ joins e a b)
  /\ edgeExists es a b = edgeExists es b a.
Proof.
  split.
  - unfold edgeExists. rewrite existsb_exists. split.
    + intros (e & I & H). exists e. split; auto.
      rewrite orb_true_iff, !andb_true_iff, !String.eqb_eq in H.
      destruct H as [[? ?]|[? ?]]; [left|right]; auto.
    + intros (e & I & J). exists e. split; auto.
      rewrite orb_true_iff, !andb_true_iff, !String.eqb_eq.
      destruct J as [[? ?]|[? ?]]; auto.
  - unfold edgeExists. induction es as [|e r IH]; [reflexivity|].
    simpl. rewrite IH. f_equal. apply orb_comm.
Qed.

(* ================================================================= *)
(** ** The graph editor keeps the data-model invariant *)

Lemma edgeExists_app es1 es2 a b :
  edgeExists (es1 ++ es2) a b = edgeExists es1 a b || edgeExists es2 a b.
Proof. unfold edgeExists. apply existsb_app. Qed.

Lemma edgeExists_filter f es a b :
  edgeExists (filter f es) a b = true -> edgeExists es a b = true.
Proof.
  unfold edgeExists. rewrite !existsb_exists.
  intros (e & I & H). apply filter_In in I. exists e. tauto.
Qed.

Lemma simple_edges_filter f es :
  simple_edges es -> simple_edges (filter f es).
Proof.
  induction es as [|e r IH]; simpl; auto.
  intros [H S]. destruct (f e); simpl; auto. split; auto.
  destruct (edgeExists (filter f r) (source e) (target e)) eqn:X; auto.
  apply edgeExists_filter in X. congruence.
Qed.

Lemma simple_edges_snoc es e :
  simple_edges es ->
  edgeExists es (source e) (target e) = false ->
  simple_edges (es ++ [e]).
Proof.
  induction es as [|a r IH]; simpl.
  - intros _ _. auto.
  - intros [H S] X. apply orb_false_iff in X. destruct X as [X1 X2].
    split; [|now apply IH].
    rewrite edgeExists_app, H. simpl. rewrite orb_false_r.
    apply orb_false_iff in X1. destruct X1 as [Y1 Y2].
    rewrite (String.eqb_sym (source e) (source a)),
      (String.eqb_sym (target e) (target a)),
      (String.eqb_sym (source e) (target a)),
      (String.eqb_sym (target e) (source a)).
    rewrite Y1. simpl. rewrite andb_comm. exact Y2.
Qed.

(** Confirming a pending edge between two nodes appends one edge with the
    chosen weight and the id [source-target], changes nothing else, and
    keeps the graph simple and its edges on existing nodes; when an edge
    already joins the two nodes, in either direction, the graph is not
    changed at all. *)
Theorem confirmEdgeCreation_spec g src tgt w :
  (edgeExists (edges g) src tgt = true ->
   confirmEdgeCreation g (Some (src, tgt)) w = None)
  /\ (edgeExists (edges g) src tgt = false ->
      exists g',
        confirmEdgeCreation g (Some (src, tgt)) w = Some g'
        /\ nodes g' = nodes g
        /\ edges g'
           = edges g
             ++ [mkEdge (src ++ "-" ++ tgt) src tgt w (Some es_default)]
        /\ edgeExists (edges g') src tgt = true
        /\ (simple_edges (edges g) -> simple_edges (edges g'))
        /\ (edges_wf g -> In src (node_ids g) -> In tgt (node_ids g) ->
            edges_wf g')).
Proof.
  unfold confirmEdgeCreation. cbn [source target]. split.
  - intros H. now rewrite H.
  - intros H. rewrite H. eexists. split; [reflexivity|].
    cbn [nodes edges]. split; [reflexivity|]. split; [reflexivity|].
    split; [|split].
    + rewrite edgeExists_app. simpl. rewrite !String.eqb_refl. simpl.
      apply orb_true_r.
    + intros S. apply simple_edges_snoc; auto.
    + intros Wf Is It e I. unfold node_ids. cbn [nodes edges] in *.
      apply in_app_iff in I.
      destruct I as [I|[<-|[]]]; [apply (Wf e I) | split; assumption].
Qed.

(** Removing a node in edit mode removes every node with that id and
    every edge that touches it, keeps all other nodes and edges, and keeps
    the graph simple and its edges on existing nodes; outside edit mode or
    during a run the graph is not changed. *)
Theorem handleNodeContextMenu_spec mode isRunning g k :
  (editing mode isRunning = false ->
   handleNodeContextMenu mode isRunning g k = None)
  /\ (editing mode isRunning = true ->
      exists g',
        handleNodeContextMenu mode isRunning g k = Some g'
        /\ ~ In k (node_ids g')
        /\ (forall n, In n (nodes g') <-> In n (nodes g) /\ id n <> k)
        /\ (forall e, In e (edges g')
                      <-> In e (edges g) /\ source e <> k /\ target e <> k)
        /\ (simple_edges (edges g) -> simple_edges (edges g'))
        /\ (edges_wf g -> edges_wf g')).
Proof.
  unfold handleNodeContextMenu. split; intros ->; [reflexivity|].
  eexists. split; [reflexivity|]. cbn [nodes edges].
  assert (forall n,
            In n (filter (fun node => negb (String.eqb (id node) k))
                    (nodes g))
            <-> In n (nodes g) /\ id n <> k) as Hn.
  { intros n. rewrite filter_In, negb_true_iff, String.eqb_neq. tauto. }
  assert (forall e,
            In e (filter (fun edge =>
                            negb (String.eqb (source edge) k)
                            && negb (String.eqb (target edge) k))
                    (edges g))
            <-> In e (edges g) /\ source e <> k /\ target e <> k) as He.
  { intros e. rewrite filter_In, andb_true_iff, !negb_true_iff,
      !String.eqb_neq. tauto. }
  split; [|split; [exact Hn|split; [exact He|split]]].
  - unfold node_ids. cbn [nodes]. intros I. apply in_map_iff in I.
    destruct I as (n & E & I). apply Hn in I. tauto.
  - apply simple_edges_filter.
  - intros Wf e I. unfold node_ids. cbn [nodes edges] in *.
    apply He in I. destruct I as (I & Ns & Nt).
    destruct (Wf e I) as [Ws Wt]. unfold node_ids in Ws, Wt.
    apply in_map_iff in Ws. destruct Ws as (a & Ea & Ia).
    apply in_map_iff in Wt. destruct Wt as (b & Eb & Ib).
    split; apply in_map_iff.
    + exists a. split; auto. apply Hn. split; auto. congruence.
    + exists b. split; auto. apply Hn. split; auto. congruence.
Qed.

(** Removing an edge in edit mode removes every edge with that id and no
    other, leaves the nodes alone, and keeps the graph simple and its
    edges on existing nodes. *)
Theorem handleEdgeContextMenu_spec mode isRunning g k :
  editing mode isRunning = true ->
  exists g',
    handleEdgeContextMenu mode isRunning g k = Some g'
    /\ nodes g' = nodes g
    /\ (forall e, In e (edges g') <-> In e (edges g) /\ edge_id e <> k)
    /\ (simple_edges (edges g) -> simple_edges (edges g'))
    /\ (edges_wf g -> edges_wf g').
Proof.
  unfold handleEdgeContextMenu. intros ->.
  eexists. split; [reflexivity|]. cbn [nodes edges].
  split; [reflexivity|].
  assert (forall e,
            In e (filter (fun edge => negb (String.eqb (edge_id edge) k))
                    (edges g))
            <-> In e (edges g) /\ edge_id e <> k) as He.
  { intros e. rewrite filter_In, negb_true_iff, String.eqb_neq. tauto. }
  split; [exact He|]. split; [apply simple_edges_filter|].
  intros Wf e I. unfold node_ids. cbn [nodes edges] in *.
  apply He in I. apply (Wf e). tauto.
Qed.

Lemma handleEdgeContextMenu_spec_witness :
  exists g',
    handleEdgeContextMenu mode_edit false generateDemoGraph "C-D" = Some g'
    /\ nodes g' = nodes generateDemoGraph
    /\ (forall e, In e (edges g')
                  <-> In e (edges generateDemoGraph) /\ edge_id e <> "C-D")
    /\ (simple_edges (edges generateDemoGraph) -> simple_edges (edges g'))
    /\ (edges_wf generateDemoGraph -> edges_wf g').
Proof.
  apply (handleEdgeContextMenu_spec mode_edit false generateDemoGraph "C-D").
  reflexivity.
Defined.

(** Dragging a node in edit mode changes positions only: ids, labels,
    statuses and edges stay, so the graph keeps its invariant and its
    adjacency list. *)
Theorem handleNodeDrag_spec mode isRunning g k px py :
  editing mode isRunning = true ->
  exists g',
    handleNodeDrag mode isRunning g k px py = Some g'
    /\ map (fun n => (id n, label n, status n)) (nodes g')
       = map (fun n => (id n, label n, status n)) (nodes g)
    /\ edges g' = edges g
    /\ (forall i n, nth_error (nodes g) i = Some n ->
          exists n', nth_error (nodes g') i = Some n'
            /\ (id n = k -> x n' = px /\ y n' = py)
            /\ (id n <> k -> n' = n))
    /\ (edges_wf g -> edges_wf g')
    /\ createAdjacencyList g' = createAdjacencyList g.
Proof.
  unfold handleNodeDrag. intros ->.
  eexists. split; [reflexivity|]. cbn [nodes edges].
  assert (map id
            (map (fun node =>
                    if String.eqb (id node) k
                    then mkNode (id node) px py (label node) (status node)
                    else node) (nodes g))
          = map id (nodes g)) as Ids.
  { rewrite map_map. apply map_ext. intros a.
    destruct (String.eqb (id a) k); reflexivity. }
  split.
  { rewrite map_map. apply map_ext. intros a.
    destruct (String.eqb (id a) k); reflexivity. }
  split; [reflexivity|]. split; [|split].
  - intros i n H. rewrite nth_error_map, H. simpl. eexists.
    split; [reflexivity|].
    str_cases (id n) k; split; intros N;
      try contradiction; try reflexivity. split; reflexivity.
  - intros Wf e I. unfold node_ids. cbn [nodes edges] in *.
    rewrite Ids. apply (Wf e I).
  - unfold createAdjacencyList. cbn [nodes edges]. f_equal.
    rewrite <- (fold_left_map (fun adj i => map_set i [] adj) id).
    rewrite <- (fold_left_map (fun adj i => map_set i [] adj) id (nodes g)).
    now rewrite Ids.
Qed.

Lemma handleNodeDrag_spec_witness :
  exists g',
    handleNodeDrag mode_edit false generateDemoGraph "B" 10 20 = Some g'
    /\ map (fun n => (id n, label n, status n)) (nodes g')
       = map (fun n => (id n, label n, status n)) (nodes generateDemoGraph)
    /\ edges g' = edges generateDemoGraph
    /\ (forall i n, nth_error (nodes generateDemoGraph) i = Some n ->
          exists n', nth_error (nodes g') i = Some n'
            /\ (id n = "B" -> x n' = 10%Z /\ y n' = 20%Z)
            /\ (id n <> "B" -> n' = n))
    /\ (edges_wf generateDemoGraph -> edges_wf g')
    /\ createAdjacencyList g' = createAdjacencyList generateDemoGraph.
Proof.
  apply (handleNodeDrag_spec mode_edit false generateDemoGraph "B" 10 20).
  reflexivity.
Defined.

(* ================================================================= *)
(** ** [getNextLetterLabel] *)

Lemma upper_letter_code_bounds l k :
  upper_letter_code l = Some k ->
  65 <= k <= 90 /\ l = String (Ascii.ascii_of_nat k) EmptyString.
Proof.
  destruct l as [|c [|? ?]]; cbv [upper_letter_code]; try discriminate.
  destruct (Nat.leb 65 (Ascii.nat_of_ascii c)) eqn:A;
    destruct (Nat.leb (Ascii.nat_of_ascii c) 90) eqn:B;
    cbv [andb]; try discriminate.
  intros H. assert (k = Ascii.nat_of_ascii c) as -> by congruence.
  apply Nat.leb_le in A, B. rewrite Ascii.ascii_nat_embedding. auto.
Qed.

Lemma upper_letter_code_letter k :
  65 <= k <= 90 ->
  upper_letter_code (String (Ascii.ascii_of_nat k) EmptyString) = Some k.
Proof.
  intros H. cbv [upper_letter_code].
  rewrite Ascii.nat_ascii_embedding by lia.
  destruct (Nat.leb_spec 65 k); [|lia].
  destruct (Nat.leb_spec k 90); [|lia]. reflexivity.
Qed.

Lemma raise_highest_fold ls h :
  65 <= h <= 90 ->
  h <= fold_left raise_highest ls h <= 90
  /\ forall l k, In l ls -> upper_letter_code l = Some k ->
                 k <= fold_left raise_highest ls h.
Proof.
  revert h. induction ls as [|l r IH]; intros h H; simpl.
  - split; [lia|]. intros l k [].
  - assert (h <= raise_highest h l <= 90
            /\ forall k, upper_letter_code l = Some k ->
                         k <= raise_highest h l) as [B K].
    { unfold raise_highest. destruct (upper_letter_code l) as [k|] eqn:U.
      - destruct (upper_letter_code_bounds _ _ U) as [Bk _].
        destruct (Nat.ltb_spec h k); split; try lia;
          intros k' E; inversion E; lia.
      - split; [lia|]. discriminate. }
    destruct (IH (raise_highest h l)) as [B' K']; [lia|].
    split; [lia|]. intros l' k [<-|I] U.
    + specialize (K k U). lia.
    + eapply K'; eauto.
Qed.

(** [getNextLetterLabel] always returns one capital letter.  It returns
    ["A"] when some node is labelled ["Z"]; otherwise the letter it returns
    is not the label of any node. *)
Theorem getNextLetterLabel_spec ns :
  (exists k, 65 <= k <= 90
     /\ getNextLetterLabel ns = String (Ascii.ascii_of_nat k) EmptyString)
  /\ ((exists n, In n ns /\ label n = Some "Z") ->
      getNextLetterLabel ns = "A")
  /\ ((forall n, In n ns -> label n <> Some "Z") ->
      forall n, In n ns -> label n <> Some (getNextLetterLabel ns)).
Proof.
  destruct ns as [|n0 r].
  { split; [exists 65; split; [lia|reflexivity]|].
    split; [reflexivity | intros _ n []]. }
  set (ns := n0 :: r).
  set (ls := map (fun node => match label node with
                              | Some l => l
                              | None => ""
                              end) ns).
  set (h := fold_left raise_highest ls 65).
  assert (getNextLetterLabel ns
          = if Nat.leb (h + 1) 90
            then String (Ascii.ascii_of_nat (h + 1)) EmptyString
            else "A") as Eg by reflexivity.
  destruct (raise_highest_fold ls 65) as [B K]; [lia|]. fold h in B, K.
  assert (forall n l, In n ns -> label n = Some l -> In l ls) as Lab.
  { intros n l I E. unfold ls. apply in_map_iff. exists n.
    rewrite E. auto. }
  rewrite Eg. split; [|split].
  - destruct (Nat.leb_spec (h + 1) 90).
    + exists (h + 1). split; [lia|reflexivity].
    + exists 65. split; [lia|reflexivity].
  - intros (n & I & E). pose proof (K "Z" 90 (Lab n _ I E) eq_refl).
    destruct (Nat.leb_spec (h + 1) 90); [lia|reflexivity].
  - intros NoZ n I E.
    destruct (Nat.leb_spec (h + 1) 90) as [L|L].
    + pose proof (K _ (h + 1) (Lab n _ I E)
                    (upper_letter_code_letter (h + 1) ltac:(lia))).
      lia.
    + assert (h = 90) as Eh by lia.
      assert (exists l, In l ls /\ upper_letter_code l = Some 90)
        as (l & Il & Ul).
      { clear - Eh. unfold h in Eh. clearbody ls.
        assert (forall ls h0, h0 < 90 ->
                  fold_left raise_highest ls h0 = 90 ->
                  exists l, In l ls /\ upper_letter_code l = Some 90) as F.
        { clear. induction ls as [|l r IH]; intros h0 Lt E; simpl in E;
            [lia|].
          unfold raise_highest in E at 2.
          destruct (upper_letter_code l) as [k|] eqn:U.
          - destruct (Nat.ltb_spec h0 k).
            + destruct (Nat.eq_dec k 90) as [->|Nk].
              * exists l. split; [now left|auto].
              * destruct (upper_letter_code_bounds _ _ U) as [Bk _].
                destruct (IH k) as (l' & I' & U'); [lia|auto|].
                exists l'. split; [now right|auto].
            + destruct (IH h0 Lt E) as (l' & I' & U').
              exists l'. split; [now right|auto].
          - destruct (IH h0 Lt E) as (l' & I' & U').
            exists l'. split; [now right|auto]. }
        apply (F ls 65); [lia|exact Eh]. }
      destruct (upper_letter_code_bounds _ _ Ul) as [_ El].
      unfold ls in Il. apply in_map_iff in Il.
      destruct Il as (m & Em & Im).
      apply (NoZ m Im). destruct (label m) as [lm|].
      * subst lm. rewrite El. reflexivity.
      * subst l. discriminate.
Qed.

(* ================================================================= *)
(** ** Predecessors of visited nodes, and simple paths *)

(** Along the run a visited node keeps its predecessor: the entry of
    [previous] for a node in [visitedNodes] is the same in every later
    step. *)
Theorem visited_predecessor_is_final g start n m v :
  In v (visitedNodes (advance_n n (initializeDijkstra g start))) ->
  map_get v (previous (advance_n (n + m) (initializeDijkstra g start)))
  = map_get v (previous (advance_n n (initializeDijkstra g start))).
Proof.
  rewrite advance_n_add.
  generalize (advance_n n (initializeDijkstra g start)). clear n.
  induction m as [|m IH]; intros s H; [reflexivity|].
  simpl. destruct (active_or_idle s) as [[u A]|I].
  - rewrite IH.
    + rewrite (next_previous s u A). unfold relax_all.
      apply relax_fold_get. left. apply set_add_In. auto.
    + rewrite (next_visited s u A). apply set_add_In. auto.
  - rewrite I. now apply IH.
Qed.

Lemma visited_predecessor_is_final_witness :
  map_get "D"
    (previous (advance_n (2 + 3) (initializeDijkstra generateDemoGraph "A")))
  = map_get "D"
      (previous (advance_n 2 (initializeDijkstra generateDemoGraph "A"))).
Proof.
  apply (visited_predecessor_is_final generateDemoGraph "A" 2 3 "D").
  vm_compute. auto.
Defined.

Lemma prev_or_null_some o a :
  prev_or_null o = Some a -> o = Some (Some a).
Proof.
  destruct o as [[s|]|]; simpl; try discriminate.
  destruct (str_truthy s); [|discriminate]. congruence.
Qed.

Lemma linked_ranks ps visited p :
  (forall v u, map_get v ps = Some (Some u) ->
               rank u visited < rank v visited) ->
  linked ps p ->
  NoDup p
  /\ forall a r, p = a :: r ->
       (forall z, In z r -> rank a visited < rank z visited)
       /\ length p + rank a visited <= S (rank (last p a) visited).
Proof.
  intros R. induction p as [|a r IH]; intros L.
  - split; [constructor|]. discriminate.
  - destruct r as [|b r'].
    + split; [repeat constructor; auto|].
      intros a' r E. inversion E; subst. simpl. split; [tauto|lia].
    + destruct L as [L1 L2]. destruct (IH L2) as [Nd Hb].
      destruct (Hb b r' eq_refl) as [Lt Len].
      apply prev_or_null_some in L1. pose proof (R b a L1) as Rab.
      assert (forall z, In z (b :: r') ->
                rank a visited < rank z visited) as All.
      { intros z [<-|I]; auto. specialize (Lt z I). lia. }
      split.
      * constructor; auto. intros I. specialize (All a I). lia.
      * intros a' r E. inversion E; subst. split; auto.
        change (last (a' :: b :: r') a') with (last (b :: r') a').
        rewrite (last_default_irrelevant b r' a' b).
        simpl length in *. lia.
Qed.

(** In every step of every run, a path that [constructPath] returns from
    the step's [previous] map visits no node twice and has at most one
    element more than there are visited nodes. *)
Theorem constructed_path_is_simple g start s fuel endNodeId p :
  reachable g start s ->
  constructPath fuel endNodeId (previous s) = Some (Some p) ->
  NoDup p /\ length p <= S (length (visitedNodes s)).
Proof.
  intros R C.
  destruct (string_dec endNodeId "") as [->|N].
  - unfold constructPath in C. destruct (_ || _); [discriminate|].
    assert (walk fuel (previous s) (Some "") [] = Some []) as W
        by (destruct fuel; reflexivity).
    rewrite W in C. simpl in C. inversion C. split; [constructor|simpl; lia].
  - destruct (constructPath_follows_aux fuel endNodeId (previous s) p N C)
      as (pre & E & L).
    destruct (linked_ranks (previous s) (visitedNodes s) p
                (reachable_prev_ranked g start s R) L) as [Nd H].
    split; auto.
    destruct p as [|a r]; [simpl; lia|].
    destruct (H a r eq_refl) as [_ Len].
    pose proof (rank_le (last (a :: r) a) (visitedNodes s)). lia.
Qed.

Lemma constructed_path_is_simple_witness :
  NoDup ["A"; "D"; "C"; "E"]
  /\ length ["A"; "D"; "C"; "E"]
     <= S (length (visitedNodes
                     (advance_n 5 (initializeDijkstra generateDemoGraph "A")))).
Proof.
  apply (constructed_path_is_simple generateDemoGraph "A"
           (advance_n 5 (initializeDijkstra generateDemoGraph "A"))
           4 "E" ["A"; "D"; "C"; "E"]).
  - apply reachable_advance_n.
  - reflexivity.
Defined.

(* ================================================================= *)
(** ** The run reads ids, endpoints and weights only *)

Lemma createAdjacencyList_shape g1 g2 :
  node_ids g1 = node_ids g2 ->
  map edge_ends (edges g1) = map edge_ends (edges g2) ->
  createAdjacencyList g1 = createAdjacencyList g2.
Proof.
  intros Hn He.
  assert (forall g,
            createAdjacencyList g
            = fold_left
                (fun adj t =>
                   add_connections adj
                     (mkEdge "" (fst (fst t)) (snd (fst t)) (snd t) None))
                (map edge_ends (edges g))
                (fold_left (fun adj i => map_set i [] adj) (node_ids g) []))
    as Shape.
  { intros g. unfold createAdjacencyList, node_ids.
    rewrite !fold_left_map. reflexivity. }
  now rewrite (Shape g1), (Shape g2), Hn, He.
Qed.

Lemma init_core_shape g1 g2 start :
  node_ids g1 = node_ids g2 ->
  core (initializeDijkstra g1 start) = core (initializeDijkstra g2 start).
Proof.
  intros Hn. rewrite !initializeDijkstra_eq. unfold core. simpl.
  assert (forall g,
            init_distances g start
            = fold_left
                (fun ds i =>
                   map_set i (if String.eqb i start then Fin 0 else Infinity)
                     ds) (node_ids g) []) as Ed
      by (intros g; unfold init_distances, node_ids;
          now rewrite fold_left_map).
  assert (forall g,
            init_previous g
            = fold_left (fun ps i => map_set i None ps) (node_ids g) [])
    as Ep
      by (intros g; unfold init_previous, node_ids;
          now rewrite fold_left_map).
  assert (forall g,
            init_unvisited g
            = fold_left (fun us i => set_add i us) (node_ids g) []) as Eu
      by (intros g; unfold init_unvisited, node_ids;
          now rewrite fold_left_map).
  now rewrite (Ed g1), (Ed g2), (Ep g1), (Ep g2), (Eu g1), (Eu g2), Hn.
Qed.

Lemma step_core_shape s1 s2 :
  core s1 = core s2 ->
  createAdjacencyList (graph s1) = createAdjacencyList (graph s2) ->
  core (dijkstraNextStep s1) = core (dijkstraNextStep s2).
Proof.
  intros Hc Ha. unfold core in Hc. inversion Hc as [[Ed Ep Ec Ev Eu Ei]].
  unfold dijkstraNextStep. rewrite Ei, Ec.
  clear Hc.
  destruct (isDone s2 || negb (ostr_truthy (currentNode s2)));
    [unfold core; congruence|].
  destruct (currentNode s2) as [u|] eqn:Ec2; [|unfold core; congruence].
  unfold core, relax_all. cbn [distances previous currentNode visitedNodes
                                unvisitedNodes isDone].
  now rewrite Ed, Ep, Ev, Eu, Ha.
Qed.

Lemma step_shape g start s :
  reachable g start s ->
  node_ids (graph s) = node_ids g
  /\ map edge_ends (edges (graph s)) = map edge_ends (edges g).
Proof.
  intros R. destruct (reachable_graph g start s R) as [E N].
  now rewrite E, N.
Qed.

(** Two graphs with the same node ids and the same endpoints and weights
    of edges, such as a graph and its reset or dragged copy, give the same
    run: at every step the distances, predecessors, current node, visited
    and unvisited sets and the done flag agree. *)
Theorem run_depends_on_shape_only g1 g2 start n :
  node_ids g1 = node_ids g2 ->
  map edge_ends (edges g1) = map edge_ends (edges g2) ->
  core (advance_n n (initializeDijkstra g1 start))
  = core (advance_n n (initializeDijkstra g2 start)).
Proof.
  intros Hn He. induction n as [|n IH].
  - now apply init_core_shape.
  - rewrite !advance_n_S. apply step_core_shape; auto.
    apply createAdjacencyList_shape.
    + destruct (step_shape g1 start _ (reachable_advance_n g1 start n))
        as [A _].
      destruct (step_shape g2 start _ (reachable_advance_n g2 start n))
        as [B _]. congruence.
    + destruct (step_shape g1 start _ (reachable_advance_n g1 start n))
        as [_ A].
      destruct (step_shape g2 start _ (reachable_advance_n g2 start n))
        as [_ B]. congruence.
Qed.

Lemma run_depends_on_shape_only_witness :
  core (advance_n 3 (initializeDijkstra stale_start_graph "A"))
  = core (advance_n 3
            (initializeDijkstra (resetGraphStatus stale_start_graph) "A")).
Proof.
  apply (run_depends_on_shape_only stale_start_graph
           (resetGraphStatus stale_start_graph) "A" 3); reflexivity.
Defined.
